(** * TCP-peer-tests: line framing, must-fully-send and session lifecycle

    A shallow embedding of [tcp_peer.cpp] (the line-oriented peer) and of
    the helpers it shares with [tcp_stream_peer.cpp] (the keystroke
    peer).  [std::string] and [char] buffers are lists of 8-bit
    characters, C integers are [Z], and every system call is answered by
    an explicit operating-system model that the program threads through
    its execution together with the trace of what it did. *)

From Stdlib Require Import Ascii String List ZArith Lia Bool Arith DecimalString.
From Equations Require Import Equations.
Import ListNotations.

Set Implicit Arguments.
Local Open Scope Z_scope.

(** ** Strings as the code has them *)

(** [std::string], and the [char] arrays handed to the socket calls. *)
Definition cstring := list ascii.

(** The message delimiter ['\n'] (0x0A). *)
Definition NL : ascii := "010"%char.

(** A string literal of the source. *)
Definition lit (s : string) : cstring := list_ascii_of_string s.

Module Str.

(** [s.find(ch)]: position of the first [ch]; [None] is [std::string::npos]. *)
Fixpoint find (s : cstring) (ch : ascii) : option nat :=
  match s with
  | [] => None
  | c :: s' =>
      if Ascii.eqb c ch then Some O
      else match find s' ch with
           | Some pos => Some (S pos)
           | None => None
           end
  end.

(** [s.substr(pos, n)] for [pos <= s.size()]. *)
Definition substr (s : cstring) (pos n : nat) : cstring :=
  firstn n (skipn pos s).

(** [s.erase(pos, n)] for [pos <= s.size()]: drops [n] characters at [pos]. *)
Definition erase (s : cstring) (pos n : nat) : cstring :=
  firstn pos s ++ skipn (pos + n) s.

(** [s.append(chunk, n)]: the first [n] characters of [chunk] are added. *)
Definition append (s chunk : cstring) (n : nat) : cstring :=
  s ++ firstn n chunk.

(** [s.push_back(ch)]. *)
Definition push_back (s : cstring) (ch : ascii) : cstring := s ++ [ch].

End Str.

(** Evidence-carrying case analysis, for the termination argument below. *)
Definition inspect {A : Type} (a : A) : {b : A | a = b} := exist _ a eq_refl.

Lemma find_some_lt (s : cstring) (ch : ascii) (pos : nat) :
  Str.find s ch = Some pos -> (pos < length s)%nat.
Proof.
  revert pos; induction s as [|c s IH]; intros pos; simpl.
  - discriminate.
  - destruct (Ascii.eqb c ch).
    + intros [= <-]. lia.
    + destruct (Str.find s ch) as [p|]; [|discriminate].
      intros [= <-]. specialize (IH p eq_refl). lia.
Qed.

Lemma erase_prefix_length (s : cstring) (n : nat) :
  length (Str.erase s 0 n) = (length s - n)%nat.
Proof. unfold Str.erase. simpl. now rewrite length_skipn. Qed.

(** ** The framer (tcp_peer.cpp, lines 204-210)

    [while (true) { pos = incoming_buffer.find('\n'); if (pos == npos) break;
       one_line = incoming_buffer.substr(0, pos);
       incoming_buffer.erase(0, pos + 1);  ... one_line ... }]

    The result is the lines pulled out, in order, and the buffer left. *)
Equations? extract_messages (incoming_buffer : cstring) : list cstring * cstring
  by wf (length incoming_buffer) lt :=
  extract_messages incoming_buffer with inspect (Str.find incoming_buffer NL) => {
    | exist _ None _ := ([], incoming_buffer);
    | exist _ (Some pos) Hpos :=
        let one_line := Str.substr incoming_buffer 0 pos in
        let r := extract_messages (Str.erase incoming_buffer 0 (pos + 1)) in
        (one_line :: fst r, snd r) }.
Proof.
  rewrite erase_prefix_length. apply find_some_lt in Hpos. lia.
Qed.

(** The receive path without its I/O (lines 201-210): append what [recv]
    delivered, then frame. *)
Definition on_recv (incoming_buffer chunk : cstring) : list cstring * cstring :=
  extract_messages (Str.append incoming_buffer chunk (length chunk)).

(** Feeding successive chunks through the receive path, starting from a
    given buffer: all the messages produced, and the final buffer. *)
Fixpoint feed (incoming_buffer : cstring) (chunks : list cstring)
  : list cstring * cstring :=
  match chunks with
  | [] => ([], incoming_buffer)
  | chunk :: chunks' =>
      let r := on_recv incoming_buffer chunk in
      let r' := feed (snd r) chunks' in
      (fst r ++ fst r', snd r')
  end.

(** The wire image of a framing result: every message with its
    delimiter put back, then the undelimited remainder. *)
Definition reassemble (r : list cstring * cstring) : cstring :=
  concat (map (fun m => m ++ [NL]) (fst r)) ++ snd r.

(** No delimiter anywhere in [s]. *)
Definition nl_free (s : cstring) : Prop := Str.find s NL = None.


(** ** C integers *)

(** [errno] value of an interrupted system call. *)
Definition EINTR : Z := 4.

Definition INT_MIN : Z := - 2 ^ 31.
Definition INT_MAX : Z := 2 ^ 31 - 1.
Definition SIZE_MAX : Z := 2 ^ 64 - 1.

(** [static_cast<uint16_t>(x)]: the value modulo 2^16. *)
Definition to_uint16 (x : Z) : Z := x mod 2 ^ 16.

(** Arithmetic on [size_t] wraps modulo 2^64. *)
Definition to_size_t (x : Z) : Z := x mod 2 ^ 64.

(** [sin_port] holds the port in network byte order: its two bytes as
    they lie in memory, most significant first. *)
Definition htons (x : Z) : Z * Z := (x / 256, x mod 256).
Definition ntohs (b : Z * Z) : Z := fst b * 256 + snd b.

(** [struct sockaddr_in] with [sin_family = AF_INET]: the four octets of
    [sin_addr] and the two bytes of [sin_port]. *)
Record sockaddr_in := { sin_addr : list Z; sin_port : Z * Z }.

(** [htonl(INADDR_ANY)] *)
Definition INADDR_ANY : list Z := [0; 0; 0; 0].

(** [operator<<] of an [int]: its decimal digits. *)
Definition show_int (x : Z) : cstring :=
  lit (DecimalString.NilZero.string_of_int (Z.to_int x)).

(** ** [std::stoi] on a command-line argument

    As [strtol] in base 10: leading white space is skipped, one sign is
    accepted, then the longest run of digits is read and the rest of the
    text is ignored.  [None] stands for the exception thrown when there
    is no digit ([std::invalid_argument]) or when the value does not fit
    an [int] ([std::out_of_range]). *)
Module Stoi.

Definition isspace (c : ascii) : bool :=
  let n := nat_of_ascii c in
  (Nat.eqb n 32 || (Nat.leb 9 n && Nat.leb n 13))%bool.

Definition digit (c : ascii) : option Z :=
  let n := nat_of_ascii c in
  if (Nat.leb 48 n && Nat.leb n 57)%bool then Some (Z.of_nat n - 48) else None.

Fixpoint skip_space (s : cstring) : cstring :=
  match s with
  | c :: s' => if isspace c then skip_space s' else s
  | [] => []
  end.

(** The value of the leading digits after [acc], if there is any digit. *)
Fixpoint digits (acc : option Z) (s : cstring) : option Z :=
  match s with
  | c :: s' =>
      match digit c with
      | Some d => digits (Some (10 * match acc with Some a => a | None => 0 end + d)) s'
      | None => acc
      end
  | [] => acc
  end.

Definition stoi (s : cstring) : option Z :=
  let s1 := skip_space s in
  let '(negative, s2) :=
    match s1 with
    | c :: s' =>
        if Ascii.eqb c "-" then (true, s')
        else if Ascii.eqb c "+" then (false, s')
        else (false, s1)
    | [] => (false, s1)
    end in
  match digits None s2 with
  | None => None
  | Some v =>
      let v := if negative then - v else v in
      if ((INT_MIN <=? v) && (v <=? INT_MAX))%bool then Some v else None
  end.

End Stoi.


(** ** The operating system, as the program sees it *)

(** Return value of a call that yields an [int] or [ssize_t], and the
    [errno] it leaves behind when the value is negative. *)
Record sysret := { rv : Z; err : Z }.

(** [accept]: the new descriptor, [errno], and the peer address written
    through the out-parameter. *)
Record accept_ret := { conn : sysret; peer_addr : sockaddr_in }.

(** [inet_pton]: 1 and the parsed address, or 0/-1. *)
Record pton_ret := { pton_rv : Z; pton_addr : list Z }.

(** [select]: the count of ready descriptors (or -1 and [errno]) and the
    descriptors left in [read_set]. *)
Record select_ret := { ready : sysret; read_set : list Z }.

(** [recv] and [read]: the bytes placed in the caller's buffer, whose
    number is the return value (none: end of stream), or -1 and [errno]. *)
Inductive read_ret :=
| read_bytes (bytes : cstring)
| read_fail (errno : Z).

Definition read_n (r : read_ret) : Z :=
  match r with
  | read_bytes bytes => Z.of_nat (length bytes)
  | read_fail _ => -1
  end.

Definition read_errno (r : read_ret) : Z :=
  match r with
  | read_bytes _ => 0
  | read_fail e => e
  end.

Definition read_buf (r : read_ret) : cstring :=
  match r with
  | read_bytes bytes => bytes
  | read_fail _ => []
  end.

(** [struct termios], as far as the keystroke peer touches it: the local
    flags, the two control characters it sets, and everything else. *)
Record termios := { c_lflag : Z; c_cc_VMIN : Z; c_cc_VTIME : Z; c_other : list Z }.

Record tcgetattr_ret := { tc_ret : sysret; tc_attr : termios }.

(** A platform: how each call the programs make is answered, from a
    state [W] of the outside world that the calls may change. *)
Record platform (W : Type) := {
  os_socket : W -> sysret * W;
  os_setsockopt : Z -> W -> W;
  os_bind : Z -> sockaddr_in -> W -> sysret * W;
  os_listen : Z -> Z -> W -> sysret * W;
  os_accept : Z -> W -> accept_ret * W;
  os_inet_pton : cstring -> W -> pton_ret * W;
  os_connect : Z -> sockaddr_in -> W -> sysret * W;
  os_close : Z -> W -> W;
  os_select : Z -> list Z -> W -> select_ret * W;
  os_getline : W -> option cstring * W;
  os_send : Z -> cstring -> W -> sysret * W;
  os_recv : Z -> Z -> W -> read_ret * W;
  os_tcgetattr : Z -> W -> tcgetattr_ret * W;
  os_tcsetattr : Z -> termios -> W -> sysret * W;
  os_read : Z -> Z -> W -> read_ret * W;
  os_write : Z -> cstring -> W -> W;
  os_inet_ntop : list Z -> cstring;
  os_strerror : Z -> cstring;
  ICANON : Z;
  ECHO : Z
}.

(** What a run does, in order. *)
Inductive event :=
| ev_socket (fd : Z)
| ev_setsockopt (fd : Z)
| ev_bind (fd : Z) (addr : sockaddr_in) (r : Z)
| ev_listen (fd backlog r : Z)
| ev_accept (listen_fd : Z) (r : sysret)
| ev_inet_pton (host : cstring) (r : Z)
| ev_connect (fd : Z) (addr : sockaddr_in) (r : Z)
| ev_close (fd : Z)
| ev_select (nfds : Z) (watched : list Z) (r : sysret)
| ev_getline (line : option cstring)
| ev_send (fd : Z) (data : cstring) (r : sysret)
| ev_recv (fd : Z) (capacity : Z) (r : read_ret)
| ev_tcgetattr (fd : Z) (r : Z)
| ev_tcsetattr (fd : Z) (attr : termios) (r : Z)
| ev_read (fd : Z) (count : Z) (r : read_ret)
| ev_write (fd : Z) (data : cstring)
| ev_cout (text : cstring)
| ev_cerr (text : cstring).


Definition is_send (e : event) : bool :=
  match e with ev_send _ _ _ => true | _ => false end.

Definition is_select (e : event) : bool :=
  match e with ev_select _ _ _ => true | _ => false end.

Definition is_accept (e : event) : bool :=
  match e with ev_accept _ _ => true | _ => false end.

(** Calls that only connection setup makes. *)
Definition is_setup (e : event) : bool :=
  match e with
  | ev_socket _ | ev_setsockopt _ | ev_bind _ _ _ | ev_listen _ _ _
  | ev_accept _ _ | ev_inet_pton _ _ | ev_connect _ _ _ => true
  | _ => false
  end.

(** Text written to the output or to the error stream. *)
Definition is_report (e : event) : bool :=
  match e with ev_cout _ | ev_cerr _ => true | _ => false end.

Definition is_close (e : event) : bool :=
  match e with ev_close _ => true | _ => false end.

(** What the keyboard side of a session pass does: read local input,
    echo it, send it, report. *)
Definition keyboard_side (e : event) : bool :=
  match e with
  | ev_getline _ | ev_read _ _ _ | ev_write _ _ | ev_send _ _ _
  | ev_cout _ | ev_cerr _ => true
  | _ => false
  end.

(** A zero-length read from the channel: the peer has closed its end. *)
Definition is_peer_close (e : event) : bool :=
  match e with ev_recv _ _ r => read_n r =? 0 | _ => false end.



(** The bytes a [send] event put on the wire: the first [n] bytes of
    what it was given, when it returned [n > 0]. *)
Definition sent_bytes (e : event) : cstring :=
  match e with
  | ev_send _ data r => if rv r >? 0 then firstn (Z.to_nat (rv r)) data else []
  | _ => []
  end.

(** Everything transmitted during a trace, in order. *)
Definition transmitted (tr : list event) : cstring :=
  concat (map sent_bytes tr).

(** ** Computations *)

(** How a computation ends: with a value, with an exception that nothing
    catches, or not within the steps allowed. *)
Inductive outcome (A : Type) :=
| Returned (a : A)
| Thrown
| OutOfFuel.
Arguments Thrown {A}.
Arguments OutOfFuel {A}.

Section Programs.

Variable W : Type.

(** A computation runs from a state of the world, and ends in an
    outcome, a new state and the events it caused. *)
Definition M (A : Type) : Type := W -> outcome A * W * list event.

Definition ret {A} (a : A) : M A := fun w => (Returned a, w, []).

Definition bind {A B} (m : M A) (k : A -> M B) : M B :=
  fun w =>
    match m w with
    | (Returned a, w1, t1) =>
        let '(r, w2, t2) := k a w1 in (r, w2, t1 ++ t2)
    | (Thrown, w1, t1) => (Thrown, w1, t1)
    | (OutOfFuel, w1, t1) => (OutOfFuel, w1, t1)
    end.

Definition throw {A} : M A := fun w => (Thrown, w, []).
Definition out_of_fuel {A} : M A := fun w => (OutOfFuel, w, []).

(** A call answered by the platform and recorded in the trace. *)
Definition call {A} (f : W -> A * W) (log : A -> event) : M A :=
  fun w => let '(a, w') := f w in (Returned a, w', [log a]).

(** A call whose result the program does not look at. *)
Definition call_ (f : W -> W) (e : event) : M unit :=
  fun w => (Returned tt, f w, [e]).

Definition emit (e : event) : M unit := fun w => (Returned tt, w, [e]).

End Programs.

Arguments ret {W A} a.
Arguments throw {W A}.
Arguments out_of_fuel {W A}.
Arguments emit {W} e.

Declare Scope prog_scope.
Delimit Scope prog_scope with prog.
Notation "x <- m ;; k" := (bind m (fun x => k))
  (at level 61, m at next level, right associativity) : prog_scope.
Notation "m ;; k" := (bind m (fun _ => k))
  (at level 61, right associativity) : prog_scope.
Local Open Scope prog_scope.

(** [std::string == const char*] *)
Definition str_eqb (a b : cstring) : bool :=
  if list_eq_dec ascii_dec a b then true else false.

(** [FD_ISSET(fd, &read_set)] *)
Definition FD_ISSET (fd : Z) (set : list Z) : bool := existsb (Z.eqb fd) set.

Definition STDIN_FILENO : Z := 0.
Definition STDOUT_FILENO : Z := 1.

(** How one pass through a loop body ends: at its last statement, at a
    [continue], or at a [break]. *)
Inductive flow := f_next | f_continue | f_break.

(** ** The helpers shared by both programs *)
Section Helpers.

Variable W : Type.
Variable P : platform W.

Definition sys_socket : M W sysret :=
  call (os_socket P) (fun r => ev_socket (rv r)).
Definition sys_setsockopt (fd : Z) : M W unit :=
  call_ (os_setsockopt P fd) (ev_setsockopt fd).
Definition sys_bind (fd : Z) (addr : sockaddr_in) : M W sysret :=
  call (os_bind P fd addr) (fun r => ev_bind fd addr (rv r)).
Definition sys_listen (fd backlog : Z) : M W sysret :=
  call (os_listen P fd backlog) (fun r => ev_listen fd backlog (rv r)).
Definition sys_accept (fd : Z) : M W accept_ret :=
  call (os_accept P fd) (fun r => ev_accept fd (conn r)).
Definition sys_inet_pton (host : cstring) : M W pton_ret :=
  call (os_inet_pton P host) (fun r => ev_inet_pton host (pton_rv r)).
Definition sys_connect (fd : Z) (addr : sockaddr_in) : M W sysret :=
  call (os_connect P fd addr) (fun r => ev_connect fd addr (rv r)).
Definition sys_close (fd : Z) : M W unit :=
  call_ (os_close P fd) (ev_close fd).
Definition sys_select (nfds : Z) (watched : list Z) : M W select_ret :=
  call (os_select P nfds watched) (fun r => ev_select nfds watched (ready r)).
Definition sys_send (fd : Z) (data : cstring) : M W sysret :=
  call (os_send P fd data) (fun r => ev_send fd data r).
Definition sys_recv (fd capacity : Z) : M W read_ret :=
  call (os_recv P fd capacity) (ev_recv fd capacity).
Definition cout (text : cstring) : M W unit := emit (ev_cout text).
Definition cerr (text : cstring) : M W unit := emit (ev_cerr text).

Definition strerror (e : Z) : cstring := os_strerror P e.

(** The loop of [send_all_bytes] (tcp_peer.cpp 35-46, part_000 77-88):
    [data] is the offset of the moving pointer into the bytes to send,
    [left] the [size_t] count still to go. *)
Fixpoint send_loop (fuel : nat) (socket_fd : Z) (text : cstring) (data left : Z)
  : M W bool :=
  match fuel with
  | O => out_of_fuel
  | S fuel' =>
      if left >? 0 then
        r <- sys_send socket_fd (Str.substr text (Z.to_nat data) (Z.to_nat left)) ;;
        let n := rv r in
        if n <? 0 then
          if err r =? EINTR then send_loop fuel' socket_fd text data left
          else
            cerr (lit "send error: " ++ strerror (err r) ++ [NL]) ;;
            ret false
        else if n =? 0 then ret false
        else send_loop fuel' socket_fd text (data + n) (to_size_t (left - n))
      else ret true
  end.

(** tcp_peer.cpp: [send_all_bytes(int socket_fd, const std::string& text)] *)
Definition send_all_bytes (fuel : nat) (socket_fd : Z) (text : cstring) : M W bool :=
  send_loop fuel socket_fd text 0 (Z.of_nat (length text)).

(** part_000: [send_all_bytes(int socket_fd, const char* data, size_t len)] *)
Definition send_all_bytes_raw (fuel : nat) (socket_fd : Z) (data : cstring) (len : Z)
  : M W bool :=
  send_loop fuel socket_fd data 0 len.

(** [connect_to_peer] (tcp_peer.cpp 50-79, part_000 92-116) *)
Definition connect_to_peer (host : cstring) (port : Z) : M W Z :=
  s <- sys_socket ;;
  let fd := rv s in
  if fd <? 0 then
    cerr (lit "socket() failed: " ++ strerror (err s) ++ [NL]) ;;
    ret (-1)
  else
    let port_field := htons (to_uint16 port) in
    a <- sys_inet_pton host ;;
    if negb (pton_rv a =? 1) then
      cerr (lit "inet_pton failed for host: " ++ host ++ [NL]) ;;
      sys_close fd ;;
      ret (-1)
    else
      let addr := {| sin_addr := pton_addr a; sin_port := port_field |} in
      c <- sys_connect fd addr ;;
      if rv c <? 0 then
        cerr (lit "connect() failed: " ++ strerror (err c) ++ [NL]) ;;
        sys_close fd ;;
        ret (-1)
      else ret fd.

(** [listen_and_accept] (tcp_peer.cpp 82-135, part_000 119-165) *)
Definition listen_and_accept (port : Z) : M W Z :=
  s <- sys_socket ;;
  let listen_fd := rv s in
  if listen_fd <? 0 then
    cerr (lit "socket() failed: " ++ strerror (err s) ++ [NL]) ;;
    ret (-1)
  else
    sys_setsockopt listen_fd ;;
    let addr := {| sin_addr := INADDR_ANY; sin_port := htons (to_uint16 port) |} in
    b <- sys_bind listen_fd addr ;;
    if rv b <? 0 then
      cerr (lit "bind() failed: " ++ strerror (err b) ++ [NL]) ;;
      sys_close listen_fd ;;
      ret (-1)
    else
      l <- sys_listen listen_fd 1 ;;
      if rv l <? 0 then
        cerr (lit "listen() failed: " ++ strerror (err l) ++ [NL]) ;;
        sys_close listen_fd ;;
        ret (-1)
      else
        cout (lit "listening on port " ++ show_int port
                ++ lit " ... waiting for one peer" ++ [NL]) ;;
        a <- sys_accept listen_fd ;;
        let conn_fd := rv (conn a) in
        if conn_fd <? 0 then
          cerr (lit "accept() failed: " ++ strerror (err (conn a)) ++ [NL]) ;;
          sys_close listen_fd ;;
          ret (-1)
        else
          let ip_text := os_inet_ntop P (sin_addr (peer_addr a)) in
          let peer_port := ntohs (sin_port (peer_addr a)) in
          cout (lit "connected to peer " ++ ip_text ++ lit ":"
                  ++ show_int peer_port ++ [NL]) ;;
          sys_close listen_fd ;;
          ret conn_fd.

End Helpers.

(** ** tcp_peer.cpp: the line-oriented peer *)
Module TcpPeer.
Section Main.

Variable W : Type.
Variable P : platform W.

Definition sys_getline : M W (option cstring) :=
  call (os_getline P) ev_getline.

(** Lines 204-210, with their output: every complete line leaves the
    buffer and is printed. *)
Equations? print_lines (incoming_buffer : cstring) : M W cstring
  by wf (length incoming_buffer) lt :=
  print_lines incoming_buffer with inspect (Str.find incoming_buffer NL) => {
    | exist _ None _ := ret incoming_buffer;
    | exist _ (Some pos) Hpos :=
        let one_line := Str.substr incoming_buffer 0 pos in
        cout (lit "[peer] " ++ one_line ++ [NL]) ;;
        print_lines (Str.erase incoming_buffer 0 (pos + 1)) }.
Proof.
  rewrite erase_prefix_length. apply find_some_lt in Hpos. lia.
Qed.

(** Lines 172-184: keyboard input is ready. *)
Definition pump_stdin (fuel : nat) (socket_fd : Z) : M W flow :=
  got <- sys_getline ;;
  match got with
  | None =>
      cout (lit "stdin closed; goodbye" ++ [NL]) ;;
      ret f_break
  | Some line =>
      let line := Str.push_back line NL in
      sent <- send_all_bytes P fuel socket_fd line ;;
      if negb sent then
        cerr (lit "failed to send to peer" ++ [NL]) ;;
        ret f_break
      else ret f_next
  end.

(** Lines 187-211: the socket is ready. *)
Definition pump_socket (socket_fd : Z) (incoming_buffer : cstring)
  : M W (flow * cstring) :=
  r <- sys_recv P socket_fd 4096 ;;
  let n := read_n r in
  if n =? 0 then
    cout (lit "peer disconnected" ++ [NL]) ;;
    ret (f_break, incoming_buffer)
  else if n <? 0 then
    if read_errno r =? EINTR then ret (f_continue, incoming_buffer)
    else
      cerr (lit "recv() failed: " ++ strerror P (read_errno r) ++ [NL]) ;;
      ret (f_break, incoming_buffer)
  else
    let incoming_buffer := Str.append incoming_buffer (read_buf r) (Z.to_nat n) in
    incoming_buffer <- print_lines incoming_buffer ;;
    ret (f_next, incoming_buffer).

(** One pass through the body of [while (true)] (lines 155-212 and,
    word for word, 228-277). *)
Definition iteration (fuel : nat) (socket_fd : Z) (incoming_buffer : cstring)
  : M W (flow * cstring) :=
  let max_fd := if socket_fd >? 0 then socket_fd else 0 in
  s <- sys_select P (max_fd + 1) [0; socket_fd] ;;
  if rv (ready s) <? 0 then
    if err (ready s) =? EINTR then ret (f_continue, incoming_buffer)
    else
      cerr (lit "select() failed: " ++ strerror P (err (ready s)) ++ [NL]) ;;
      ret (f_break, incoming_buffer)
  else
    f <- (if FD_ISSET 0 (read_set s) then pump_stdin fuel socket_fd else ret f_next) ;;
    match f with
    | f_next =>
        if FD_ISSET socket_fd (read_set s)
        then pump_socket socket_fd incoming_buffer
        else ret (f_next, incoming_buffer)
    | _ => ret (f, incoming_buffer)
    end.

(** The [while (true)] loop. *)
Fixpoint session (fuel : nat) (socket_fd : Z) (incoming_buffer : cstring) : M W unit :=
  match fuel with
  | O => out_of_fuel
  | S fuel' =>
      r <- iteration fuel' socket_fd incoming_buffer ;;
      match fst r with
      | f_break => ret tt
      | _ => session fuel' socket_fd (snd r)
      end
  end.

Definition usage (argv0 : cstring) : cstring :=
  lit "Usage:" ++ [NL]
    ++ lit "  " ++ argv0 ++ lit " --listen <port>" ++ [NL]
    ++ lit "  " ++ argv0 ++ lit " --connect <host> <port>" ++ [NL].

(** The two command forms that [main] tests for. *)
Definition listen_form (argv : list cstring) : bool :=
  ((3 <=? Z.of_nat (length argv)) && str_eqb (nth 1 argv []) (lit "--listen"))%bool.

Definition connect_form (argv : list cstring) : bool :=
  ((4 <=? Z.of_nat (length argv)) && str_eqb (nth 1 argv []) (lit "--connect"))%bool.

(** [main(argc, argv)], with [argc = length argv]; the value is the
    exit status. *)
Definition main (fuel : nat) (argv : list cstring) : M W Z :=
  if listen_form argv then
    match Stoi.stoi (nth 2 argv []) with
    | None => throw
    | Some port =>
        socket_fd <- listen_and_accept P port ;;
        if socket_fd <? 0 then ret 1
        else
          cout (lit "type a message and press Enter to send; Ctrl+D to quit" ++ [NL]) ;;
          session fuel socket_fd [] ;;
          sys_close P socket_fd ;;
          ret 0
    end
  else if connect_form argv then
    let host := nth 2 argv [] in
    match Stoi.stoi (nth 3 argv []) with
    | None => throw
    | Some port =>
        socket_fd <- connect_to_peer P host port ;;
        if socket_fd <? 0 then ret 1
        else
          cout (lit "connected to " ++ host ++ lit ":" ++ show_int port ++ [NL]) ;;
          cout (lit "type a message and press Enter to send; Ctrl+D to quit" ++ [NL]) ;;
          session fuel socket_fd [] ;;
          sys_close P socket_fd ;;
          ret 0
    end
  else
    cerr (usage (nth 0 argv [])) ;;
    ret 1.

End Main.
End TcpPeer.

(** ** part_000 (tcp_stream_peer.cpp): the keystroke peer *)
Module StreamPeer.
Section Main.

Variable W : Type.
Variable P : platform W.

Definition sys_tcgetattr (fd : Z) : M W tcgetattr_ret :=
  call (os_tcgetattr P fd) (fun r => ev_tcgetattr fd (rv (tc_ret r))).
Definition sys_tcsetattr (fd : Z) (attr : termios) : M W sysret :=
  call (os_tcsetattr P fd attr) (fun r => ev_tcsetattr fd attr (rv r)).
Definition sys_read (fd count : Z) : M W read_ret :=
  call (os_read P fd count) (ev_read fd count).
Definition sys_write (fd : Z) (data : cstring) : M W unit :=
  call_ (os_write P fd data) (ev_write fd data).

(** [struct TerminalRawGuard] *)
Record TerminalRawGuard := { original : termios; active : bool }.

(** [TerminalRawGuard::enable] (lines 36-61): the result and the guard
    as the call leaves it. *)
Definition enable : M W (bool * TerminalRawGuard) :=
  g <- sys_tcgetattr STDIN_FILENO ;;
  let original := tc_attr g in
  if negb (rv (tc_ret g) =? 0) then
    cerr (lit "tcgetattr failed: " ++ strerror P (err (tc_ret g)) ++ [NL]) ;;
    ret (false, {| original := original; active := false |})
  else
    let raw :=
      {| c_lflag := Z.land (Z.land (c_lflag original) (Z.lnot (ICANON P)))
                           (Z.lnot (ECHO P));
         c_cc_VMIN := 1;
         c_cc_VTIME := 0;
         c_other := c_other original |} in
    s <- sys_tcsetattr STDIN_FILENO raw ;;
    if negb (rv s =? 0) then
      cerr (lit "tcsetattr failed: " ++ strerror P (err s) ++ [NL]) ;;
      ret (false, {| original := original; active := false |})
    else ret (true, {| original := original; active := true |}).

(** [~TerminalRawGuard] (lines 64-68) *)
Definition destroy (raw : TerminalRawGuard) : M W unit :=
  if active raw then
    sys_tcsetattr STDIN_FILENO (original raw) ;;
    ret tt
  else ret tt.

(** Lines 205-226: a key is ready. *)
Definition pump_stdin (fuel : nat) (sock : Z) : M W flow :=
  r <- sys_read STDIN_FILENO 1 ;;
  let n := read_n r in
  let ch := firstn 1 (read_buf r) in
  if n =? 1 then
    sys_write STDOUT_FILENO ch ;;
    sent <- send_all_bytes_raw P fuel sock ch 1 ;;
    if negb sent then
      cerr (NL :: lit "failed to send to peer" ++ [NL]) ;;
      ret f_break
    else ret f_next
  else if n =? 0 then
    cout (NL :: lit "stdin closed" ++ [NL]) ;;
    ret f_break
  else
    if read_errno r =? EINTR then ret f_continue
    else
      cerr (NL :: lit "read(stdin) failed: " ++ strerror P (read_errno r) ++ [NL]) ;;
      ret f_break.

(** Lines 229-243: the socket is ready. *)
Definition pump_socket (sock : Z) : M W flow :=
  r <- sys_recv P sock 4096 ;;
  let n := read_n r in
  if n =? 0 then
    cout (NL :: lit "peer disconnected" ++ [NL]) ;;
    ret f_break
  else if n <? 0 then
    if read_errno r =? EINTR then ret f_continue
    else
      cerr (NL :: lit "recv() failed: " ++ strerror P (read_errno r) ++ [NL]) ;;
      ret f_break
  else
    sys_write STDOUT_FILENO (firstn (Z.to_nat n) (read_buf r)) ;;
    ret f_next.

(** One pass through the body of [while (true)] (lines 189-244 and 264-311). *)
Definition iteration (fuel : nat) (sock : Z) : M W flow :=
  let max_fd := if sock >? STDIN_FILENO then sock else STDIN_FILENO in
  s <- sys_select P (max_fd + 1) [STDIN_FILENO; sock] ;;
  if rv (ready s) <? 0 then
    if err (ready s) =? EINTR then ret f_continue
    else
      cerr (lit "select() failed: " ++ strerror P (err (ready s)) ++ [NL]) ;;
      ret f_break
  else
    f <- (if FD_ISSET STDIN_FILENO (read_set s) then pump_stdin fuel sock
          else ret f_next) ;;
    match f with
    | f_next =>
        if FD_ISSET sock (read_set s) then pump_socket sock else ret f_next
    | _ => ret f
    end.

Fixpoint session (fuel : nat) (sock : Z) : M W unit :=
  match fuel with
  | O => out_of_fuel
  | S fuel' =>
      f <- iteration fuel' sock ;;
      match f with
      | f_break => ret tt
      | _ => session fuel' sock
      end
  end.

(** What follows a successful connection setup in both branches of
    [main] (lines 178-247 and 255-314). *)
Definition run_session (fuel : nat) (sock : Z) : M W Z :=
  e <- enable ;;
  let raw := snd e in
  if negb (fst e) then
    cerr (lit "failed to enable raw terminal mode" ++ [NL]) ;;
    sys_close P sock ;;
    destroy raw ;;
    ret 1
  else
    cout (lit "Real-time: type to send. Press Ctrl-C to quit." ++ [NL]) ;;
    session fuel sock ;;
    sys_close P sock ;;
    destroy raw ;;
    ret 0.

Definition main (fuel : nat) (argv : list cstring) : M W Z :=
  if TcpPeer.listen_form argv then
    match Stoi.stoi (nth 2 argv []) with
    | None => throw
    | Some port =>
        sock <- listen_and_accept P port ;;
        if sock <? 0 then ret 1 else run_session fuel sock
    end
  else if TcpPeer.connect_form argv then
    let host := nth 2 argv [] in
    match Stoi.stoi (nth 3 argv []) with
    | None => throw
    | Some port =>
        sock <- connect_to_peer P host port ;;
        if sock <? 0 then ret 1 else run_session fuel sock
    end
  else
    cerr (TcpPeer.usage (nth 0 argv [])) ;;
    ret 1.

End Main.
End StreamPeer.

(** The states of the inbound buffer that the receive path can reach:
    empty when the session starts (line 153), and what a pass through
    the loop body leaves when it was entered with a reachable buffer. *)
Inductive buffer_at_rest {W} (P : platform W) (socket_fd : Z) : cstring -> Prop :=
| at_session_start : buffer_at_rest P socket_fd []
| after_iteration fuel buf w f buf' w' tr :
    buffer_at_rest P socket_fd buf ->
    TcpPeer.iteration P fuel socket_fd buf w = (Returned (f, buf'), w', tr) ->
    buffer_at_rest P socket_fd buf'.

(** The two programs of the repository. *)
Inductive program := LinePeer | KeystrokePeer.

Definition run_main {W} (prog : program) (P : platform W) : nat -> list cstring -> M W Z :=
  match prog with
  | LinePeer => TcpPeer.main P
  | KeystrokePeer => StreamPeer.main P
  end.

(** What each program prints when the peer has disconnected. *)
Definition farewell (prog : program) : cstring :=
  match prog with
  | LinePeer => lit "peer disconnected" ++ [NL]
  | KeystrokePeer => NL :: lit "peer disconnected" ++ [NL]
  end.

Definition is_tcsetattr (e : event) : bool :=
  match e with ev_tcsetattr _ _ _ => true | _ => false end.

(** How a run ends once the channel has returned zero bytes: the
    announcement, the close of the connection, and, in the keystroke
    peer, the terminal settings put back. *)
Definition main_tail (prog : program) (t : list event) : Prop :=
  exists fd r restore,
    read_n r = 0 /\
    t = ev_recv fd 4096 r :: ev_cout (farewell prog) :: ev_close fd :: restore /\
    forallb is_tcsetattr restore = true.

(** The argument that [main] hands to [std::stoi] as the port. *)
Definition port_argument (argv : list cstring) : option cstring :=
  if TcpPeer.listen_form argv then Some (nth 2 argv [])
  else if TcpPeer.connect_form argv then Some (nth 3 argv [])
  else None.

(** The address given to [bind] or [connect] designates port [q]. *)
Definition uses_port (q : Z) (e : event) : bool :=
  match e with
  | ev_bind _ addr _ | ev_connect _ addr _ => ntohs (sin_port addr) =? q
  | _ => true
  end.

(** The run opens a socket and, when it got one, goes on to [bind] it
    to port [q] on every local address: the port is not inspected
    before. *)
Definition binds_port (q : Z) (tr : list event) : Prop :=
  exists s rest,
    tr = ev_socket s :: rest /\
    (0 <= s ->
     exists r rest',
       rest = ev_setsockopt s
                :: ev_bind s {| sin_addr := INADDR_ANY; sin_port := htons q |} r
                :: rest').

(** The run opens a socket and, when it got one and [host] is a
    numeric address, goes on to [connect] it to port [q] of that
    address: the port is not inspected before. *)
Definition dials_port (host : cstring) (q : Z) (tr : list event) : Prop :=
  exists s rest,
    tr = ev_socket s :: rest /\
    (0 <= s ->
     exists answer rest',
       rest = ev_inet_pton host answer :: rest' /\
       (answer = 1 ->
        exists a r rest'',
          rest' = ev_connect s {| sin_addr := a; sin_port := htons q |} r :: rest'')).

(** ** Vocabulary of the statements *)

(** What the receive path prints for one message. *)
Definition printed (one_line : cstring) : event :=
  ev_cout (lit "[peer] " ++ one_line ++ [NL]).

(** The number of calls that [n] bytes take at [k] bytes per call:
    [ceil(n/k)]. *)
Definition calls_needed (k n : Z) : Z := (n + k - 1) / k.

Definition in_session (e : event) : bool := negb (is_setup e).

(** What must-fully-send asks of a run of [send_all_bytes] given
    [message] and a primitive taking up to [k] bytes per call: it
    returns success, has made calls of [send] only, as many as the
    primitive's pace asks for, and the bytes transmitted are the
    message. *)
Definition fully_sends {W} (k : Z) (message : cstring)
           (run : outcome bool * W * list event) : Prop :=
  let N := Z.of_nat (length message) in
  fst (fst run) = Returned true /\
  forallb is_send (snd run) = true /\
  transmitted (snd run) = message /\
  calls_needed k N <= Z.of_nat (length (snd run)) <= N.

Definition not_peer_close (e : event) : bool := negb (is_peer_close e).

(** The end of a session pass that read zero bytes from [fd]. *)
Definition session_tail (prog : program) (fd : Z) (t : list event) : Prop :=
  exists r, read_n r = 0 /\ t = [ev_recv fd 4096 r; ev_cout (farewell prog)].

Section RunPredicates.

Variable W : Type.

Definition outcome_of {A} (x : outcome A * W * list event) : outcome A := fst (fst x).
Definition trace_of {A} (x : outcome A * W * list event) : list event := snd x.

(** Every event [m] can cause satisfies [p]. *)
Definition emits {A} (p : event -> bool) (m : M W A) : Prop :=
  forall w, forallb p (trace_of (m w)) = true.

(** Whenever [m] returns, its value satisfies [Q]. *)
Definition returns {A} (m : M W A) (Q : A -> Prop) : Prop :=
  forall w a w' tr, m w = (Returned a, w', tr) -> Q a.

(** Either the run saw no zero-length read, or it returned a value
    that satisfies [good] and its trace ends with a [tail]. *)
Definition closes_last {A} (tail : list event -> Prop) (good : A -> Prop)
           (x : outcome A * W * list event) : Prop :=
  forallb not_peer_close (trace_of x) = true \/
  ((exists a, outcome_of x = Returned a /\ good a) /\
   exists before t,
     tail t /\ trace_of x = before ++ t /\ forallb not_peer_close before = true).

End RunPredicates.

(** ** Concrete worlds

    Platforms on which the programs can be run by evaluation.  The state
    of the world is a clock that [select] advances, so that a scenario
    can answer differently from one pass of the session loop to the
    next; setup calls succeed unless the scenario says otherwise. *)
Module Scenario.

Record scenario := {
  accept_answer : sysret;
  select_answer : nat -> select_ret;
  keyboard : nat -> option cstring;
  send_answer : cstring -> sysret;
  recv_answer : nat -> read_ret
}.

Definition ok (v : Z) : sysret := {| rv := v; err := 0 |}.
Definition failed (e : Z) : sysret := {| rv := -1; err := e |}.

Definition dotted (octets : list Z) : cstring :=
  concat (map (fun o => show_int o ++ lit ".") (removelast octets))
    ++ show_int (last octets 0).

Definition cooked : termios :=
  {| c_lflag := 10; c_cc_VMIN := 0; c_cc_VTIME := 0; c_other := [] |}.

Definition platform_of (s : scenario) : platform nat := {|
  os_socket := fun t => (ok 3, t);
  os_setsockopt := fun _ t => t;
  os_bind := fun _ _ t => (ok 0, t);
  os_listen := fun _ _ t => (ok 0, t);
  os_accept := fun _ t =>
    ({| conn := accept_answer s;
        peer_addr := {| sin_addr := [127; 0; 0; 1]; sin_port := htons 50000 |} |}, t);
  os_inet_pton := fun _ t => ({| pton_rv := 1; pton_addr := [127; 0; 0; 1] |}, t);
  os_connect := fun _ _ t => (ok 0, t);
  os_close := fun _ t => t;
  os_select := fun _ _ t => (select_answer s t, S t);
  os_getline := fun t => (keyboard s t, t);
  os_send := fun _ data t => (send_answer s data, t);
  os_recv := fun _ _ t => (recv_answer s t, t);
  os_tcgetattr := fun _ t => ({| tc_ret := ok 0; tc_attr := cooked |}, t);
  os_tcsetattr := fun _ _ t => (ok 0, t);
  os_read := fun _ _ t =>
    (match keyboard s t with
     | Some (c :: _) => read_bytes [c]
     | Some [] => read_fail EINTR
     | None => read_bytes []
     end, t);
  os_write := fun _ _ t => t;
  os_inet_ntop := dotted;
  os_strerror := fun e => lit "errno " ++ show_int e;
  ICANON := 2;
  ECHO := 8
|}.

Definition select_ready (fds : list Z) : select_ret :=
  {| ready := ok (Z.of_nat (length fds)); read_set := fds |}.

(** A send primitive that takes at most [k] bytes per call. *)
Definition capped_send (k : Z) (data : cstring) : sysret :=
  ok (Z.min k (Z.of_nat (length data))).

(** The peer sends two chunks and closes; nothing is typed. *)
Definition peer_talks_then_closes : scenario := {|
  accept_answer := ok 4;
  select_answer := fun _ => select_ready [4];
  keyboard := fun _ => None;
  send_answer := capped_send 3;
  recv_answer := fun t =>
    match t with
    | 1%nat => read_bytes (lit "pi")
    | 2%nat => read_bytes (lit "ng" ++ NL :: NL :: lit "po")
    | _ => read_bytes []
    end
|}.


(** A line is typed and goes out three bytes at a time; then the
    keyboard is closed. *)
Definition slow_send : scenario := {|
  accept_answer := ok 4;
  select_answer := fun _ => select_ready [0];
  keyboard := fun t => match t with 1%nat => Some (lit "hello, peer") | _ => None end;
  send_answer := capped_send 3;
  recv_answer := fun _ => read_fail EINTR
|}.

(** As [slow_send], with a primitive that takes one byte per call. *)
Definition one_byte_send : scenario := {|
  accept_answer := ok 4;
  select_answer := fun _ => select_ready [0];
  keyboard := fun t => match t with 1%nat => Some (lit "hello, peer") | _ => None end;
  send_answer := capped_send 1;
  recv_answer := fun _ => read_fail EINTR
|}.

(** A signal arrives while the listener waits in [accept]. *)
Definition accept_interrupted : scenario := {|
  accept_answer := failed EINTR;
  select_answer := fun _ => select_ready [4];
  keyboard := fun _ => None;
  send_answer := capped_send 3;
  recv_answer := fun _ => read_bytes []
|}.

End Scenario.


(** ** Vocabulary of the further properties *)

(** The number of delimiters in a buffer. *)
Definition count_nl (buf : cstring) : nat := count_occ ascii_dec buf NL.

(** How many events of a trace satisfy [p]. *)
Definition count (p : event -> bool) (tr : list event) : nat := length (filter p tr).

Definition is_cerr (e : event) : bool :=
  match e with ev_cerr _ => true | _ => false end.

Definition is_connect (e : event) : bool :=
  match e with ev_connect _ _ _ => true | _ => false end.

(** [close] of the descriptor [fd]. *)
Definition closes (fd : Z) (e : event) : bool :=
  match e with ev_close f => f =? fd | _ => false end.

(** Further worlds to run the programs in. *)
Module MoreScenarios.

(** Four bytes of a longer message go out; then the peer is gone and
    [send] returns 0. *)
Definition peer_goes_away : Scenario.scenario := {|
  Scenario.accept_answer := Scenario.ok 4;
  Scenario.select_answer := fun _ => Scenario.select_ready [0];
  Scenario.keyboard := fun _ => Some (lit "hello, peer");
  Scenario.send_answer := fun data =>
    if (5 <? Z.of_nat (length data)) then Scenario.ok 4 else Scenario.ok 0;
  Scenario.recv_answer := fun _ => read_fail EINTR
|}.

End MoreScenarios.

(** The read set of a readiness wait is the keyboard and [fd], both of
    them and nothing else, and [nfds] is the larger of the two plus
    one. *)
Definition watches_both (fd nfds : Z) (watched : list Z) : bool :=
  match watched with
  | [keyboard; connection] =>
      (keyboard =? STDIN_FILENO) && (connection =? fd)
      && (nfds =? (if fd >? STDIN_FILENO then fd else STDIN_FILENO) + 1)
  | _ => false
  end%bool.

(** What the session loop of either program may do on the connection
    [fd]: wait on the keyboard and [fd], both of them, read and echo
    local input, send on [fd], receive from [fd] into its 4096-byte
    buffer, and report. *)
Definition session_call (fd : Z) (e : event) : bool :=
  match e with
  | ev_select nfds watched _ => watches_both fd nfds watched
  | ev_send f _ _ => f =? fd
  | ev_recv f capacity _ => (f =? fd) && (capacity =? 4096)
  | ev_read f n _ => (f =? STDIN_FILENO) && (n =? 1)
  | ev_write f _ => f =? STDOUT_FILENO
  | ev_getline _ | ev_cout _ | ev_cerr _ => true
  | _ => false
  end%bool.


(** The terminal attributes that [TerminalRawGuard::enable] asks for,
    from the ones it found. *)
Definition raw_mode {W} (P : platform W) (found : termios) : termios :=
  {| c_lflag := Z.land (Z.land (c_lflag found) (Z.lnot (ICANON P))) (Z.lnot (ECHO P));
     c_cc_VMIN := 1;
     c_cc_VTIME := 0;
     c_other := c_other found |}.

Definition is_terminal_call (e : event) : bool :=
  match e with ev_tcgetattr _ _ | ev_tcsetattr _ _ _ => true | _ => false end.




(** [t] begins with [p]. *)
Definition starts_with (p t : cstring) : bool := str_eqb (firstn (length p) t) p.

(** A line printed as coming from the peer. *)
Definition is_peer_line (e : event) : bool :=
  match e with ev_cout t => starts_with (lit "[peer] ") t | _ => false end.

(** The lines a run printed as coming from the peer, in order. *)
Definition peer_lines (tr : list event) : list event := filter is_peer_line tr.

(** The bytes a [recv] event delivered. *)
Definition recv_bytes (e : event) : cstring :=
  match e with ev_recv _ _ r => read_buf r | _ => [] end.

(** Everything received from the channel during a trace, in order. *)
Definition received (tr : list event) : cstring := concat (map recv_bytes tr).

(** An event that neither receives nor prints a peer line. *)
Definition inbound_quiet (e : event) : bool :=
  match e with
  | ev_recv _ _ _ => false
  | _ => negb (is_peer_line e)
  end.

(** The peer lines of a trace are the messages framed out of the buffer
    [buf] followed by the bytes the trace received. *)
Definition framed (buf : cstring) (tr : list event) : Prop :=
  peer_lines tr = map printed (fst (extract_messages (buf ++ received tr))).

(** A run frames what it receives, from the buffer [buf], and its value
    relates to the buffer left by [res]. *)
Definition frames {W A} (buf : cstring) (res : A -> cstring -> Prop)
           (x : outcome A * W * list event) : Prop :=
  framed buf (trace_of x) /\
  forall a, outcome_of x = Returned a ->
            res a (snd (extract_messages (buf ++ received (trace_of x)))).

(** The bytes an event wrote to the standard output with [write]. *)
Definition written_bytes (e : event) : cstring :=
  match e with
  | ev_write f data => if f =? STDOUT_FILENO then data else []
  | _ => []
  end.

(** The bytes an event brought in that the keystroke peer shows: a key
    read from the keyboard, or what a [recv] delivered. *)
Definition shown_bytes (e : event) : cstring :=
  match e with
  | ev_read _ _ r => if read_n r =? 1 then read_buf r else []
  | ev_recv _ _ r => read_buf r
  | _ => []
  end.

Definition written (tr : list event) : cstring := concat (map written_bytes tr).
Definition shown (tr : list event) : cstring := concat (map shown_bytes tr).

(** An event that neither brings bytes in nor writes any out. *)
Definition screen_neutral (e : event) : bool :=
  match e with
  | ev_read _ _ _ | ev_recv _ _ _ | ev_write _ _ => false
  | _ => true
  end.

(** What reached the screen is what came in. *)
Definition echoes (tr : list event) : Prop := written tr = shown tr.

(** Every run of [m] shows what it took in. *)
Definition passes {W A} (m : M W A) : Prop := forall w, echoes (trace_of (m w)).

(** The lines typed at the keyboard of the line-oriented peer. *)
Definition typed_line (e : event) : list cstring :=
  match e with ev_getline (Some line) => [line] | _ => [] end.

Definition typed (tr : list event) : list cstring := flat_map typed_line tr.

(** What the typed lines are on the wire: each with its delimiter. *)
Definition wire (tr : list event) : cstring := reassemble (typed tr, []).

(** The report that a line could not be sent. *)
Definition gave_up : event := ev_cerr (lit "failed to send to peer" ++ [NL]).

(** An event that neither takes a line from the keyboard nor sends. *)
Definition outbound_quiet (e : event) : bool :=
  match e with
  | ev_getline _ | ev_send _ _ _ => false
  | _ => true
  end.

(** What a run has transmitted is the beginning of what was typed; it
    is all of it when the run returns a value that does not say stop,
    and when it returns without having given up on a send. *)
Definition outbound_ok {W A} (stop : A -> Prop) (x : outcome A * W * list event) : Prop :=
  exists rest,
    wire (trace_of x) = transmitted (trace_of x) ++ rest /\
    (forall a, outcome_of x = Returned a -> ~ stop a -> rest = []) /\
    (forall a, outcome_of x = Returned a -> ~ In gave_up (trace_of x) -> rest = []).

(** The platform's side of the contract, for the outbound path: [send]
    never reports more bytes than it was given, and a line read from the
    keyboard, with its delimiter, has a length that fits [size_t]. *)
Definition sane_platform {W} (P : platform W) : Prop :=
  (forall fd data w, rv (fst (os_send P fd data w)) <= Z.of_nat (length data)) /\
  (forall w line, fst (os_getline P w) = Some line ->
                  Z.of_nat (length line) + 1 <= SIZE_MAX).

Module MoreWorlds.

(** The peer's bytes arrive in two pieces that cut a line in two; then
    the peer closes. *)
Definition peer_sends_hello : Scenario.scenario := {|
  Scenario.accept_answer := Scenario.ok 4;
  Scenario.select_answer := fun _ => Scenario.select_ready [3];
  Scenario.keyboard := fun _ => None;
  Scenario.send_answer := Scenario.capped_send 3;
  Scenario.recv_answer := fun t =>
    match t with
    | 1%nat => read_bytes (lit "hello")
    | 2%nat => read_bytes (lit ", peer" ++ [NL])
    | _ => read_bytes []
    end
|}.

(** A platform on which no host text is a numeric IPv4 address. *)
Definition rejecting_hosts (P : platform nat) : platform nat := {|
  os_socket := os_socket P;
  os_setsockopt := os_setsockopt P;
  os_bind := os_bind P;
  os_listen := os_listen P;
  os_accept := os_accept P;
  os_inet_pton := fun _ t => ({| pton_rv := 0; pton_addr := [] |}, t);
  os_connect := os_connect P;
  os_close := os_close P;
  os_select := os_select P;
  os_getline := os_getline P;
  os_send := os_send P;
  os_recv := os_recv P;
  os_tcgetattr := os_tcgetattr P;
  os_tcsetattr := os_tcsetattr P;
  os_read := os_read P;
  os_write := os_write P;
  os_inet_ntop := os_inet_ntop P;
  os_strerror := os_strerror P;
  ICANON := ICANON P;
  ECHO := ECHO P
|}.

End MoreWorlds.
(** * Properties *)

(** ** The models at work *)

Example extract_ex :
  extract_messages (lit "ab" ++ NL :: NL :: lit "c") = ([lit "ab"; []], lit "c").
Proof. reflexivity. Qed.
Example stoi_ex1 : Stoi.stoi (lit " 3333x") = Some 3333.
Proof. reflexivity. Qed.
Example stoi_ex2 : Stoi.stoi (lit "-7") = Some (-7).
Proof. reflexivity. Qed.
Example stoi_ex3 : Stoi.stoi (lit "port") = None.
Proof. reflexivity. Qed.
Example stoi_ex4 : Stoi.stoi (lit "2147483648") = None.
Proof. reflexivity. Qed.
Example show_int_ex : show_int 3333 = lit "3333" /\ show_int 0 = lit "0" /\ show_int (-12) = lit "-12".
Proof. repeat split; reflexivity. Qed.

(** ** Facts about [std::string] operations *)

Lemma find_none_iff (s : cstring) (ch : ascii) :
  Str.find s ch = None <-> ~ In ch s.
Proof.
  induction s as [|c s IH]; simpl.
  - tauto.
  - destruct (Ascii.eqb_spec c ch) as [->|Hne].
    + split; [discriminate | intros H; exfalso; apply H; now left].
    + destruct (Str.find s ch) as [p|].
      * split; [discriminate|]. intros H. exfalso.
        assert (Hs : ~ In ch s) by (intros Hin; apply H; now right).
        apply IH in Hs. discriminate.
      * split; [|reflexivity]. intros _ [Heq|Hin]; [congruence|].
        now apply IH in Hin.
Qed.

Lemma find_some_split (s : cstring) (ch : ascii) (pos : nat) :
  Str.find s ch = Some pos ->
  s = firstn pos s ++ ch :: skipn (S pos) s /\ Str.find (firstn pos s) ch = None.
Proof.
  revert pos; induction s as [|c s IH]; intros pos; simpl.
  - discriminate.
  - destruct (Ascii.eqb_spec c ch) as [->|Hne].
    + intros [= <-]. simpl. auto.
    + destruct (Str.find s ch) as [p|]; [|discriminate].
      intros [= <-]. destruct (IH p eq_refl) as [Hs Hf]. split.
      * change (c :: s = c :: (firstn p s ++ ch :: skipn (S p) s)).
        now rewrite <- Hs.
      * simpl. destruct (Ascii.eqb_spec c ch); [contradiction|]. now rewrite Hf.
Qed.

Lemma find_app_clean (a b : cstring) (ch : ascii) :
  Str.find a ch = None -> Str.find (a ++ ch :: b) ch = Some (length a).
Proof.
  induction a as [|c a IH]; simpl.
  - intros _. now rewrite Ascii.eqb_refl.
  - destruct (Ascii.eqb c ch); [discriminate|].
    destruct (Str.find a ch); [discriminate|]. intros _. now rewrite IH.
Qed.

Lemma find_app_none (a b : cstring) (ch : ascii) :
  Str.find (a ++ b) ch = None <-> Str.find a ch = None /\ Str.find b ch = None.
Proof.
  rewrite !find_none_iff, in_app_iff. tauto.
Qed.

Lemma substr_0_app (a b : cstring) : Str.substr (a ++ b) 0 (length a) = a.
Proof.
  unfold Str.substr. simpl. rewrite firstn_app, Nat.sub_diag, firstn_all. simpl.
  apply app_nil_r.
Qed.

Lemma erase_0_app (a b : cstring) (c : ascii) :
  Str.erase (a ++ c :: b) 0 (length a + 1) = b.
Proof.
  unfold Str.erase. simpl. rewrite skipn_app, skipn_all2 by lia.
  replace (length a + 1 - length a)%nat with 1%nat by lia. reflexivity.
Qed.

(** ** The framer, equation by equation *)

Lemma extract_messages_none (buf : cstring) :
  Str.find buf NL = None -> extract_messages buf = ([], buf).
Proof.
  intros H. rewrite extract_messages_equation_1.
  destruct (inspect (Str.find buf NL)) as [[pos|] e].
  - congruence.
  - reflexivity.
Qed.

Lemma extract_messages_some (buf : cstring) (pos : nat) :
  Str.find buf NL = Some pos ->
  extract_messages buf =
    (Str.substr buf 0 pos :: fst (extract_messages (Str.erase buf 0 (pos + 1))),
     snd (extract_messages (Str.erase buf 0 (pos + 1)))).
Proof.
  intros H. rewrite extract_messages_equation_1.
  destruct (inspect (Str.find buf NL)) as [[p|] e].
  - assert (p = pos) by congruence. subst p. reflexivity.
  - congruence.
Qed.

(** A first line without a delimiter, then the delimiter. *)
Lemma extract_messages_line (a b : cstring) :
  nl_free a ->
  extract_messages (a ++ NL :: b) =
    (a :: fst (extract_messages b), snd (extract_messages b)).
Proof.
  intros Ha. rewrite (@extract_messages_some _ (length a)) by now apply find_app_clean.
  now rewrite substr_0_app, erase_0_app.
Qed.

(** What the loop leaves and what it was given. *)
Lemma extract_messages_ind (Q : cstring -> list cstring -> cstring -> Prop) :
  (forall buf, nl_free buf -> Q buf [] buf) ->
  (forall a b, nl_free a ->
     Q b (fst (extract_messages b)) (snd (extract_messages b)) ->
     Q (a ++ NL :: b) (a :: fst (extract_messages b)) (snd (extract_messages b))) ->
  forall buf, Q buf (fst (extract_messages buf)) (snd (extract_messages buf)).
Proof.
  intros Hnone Hsome buf.
  remember (length buf) as n eqn:Hn. revert buf Hn.
  induction n as [n IH] using lt_wf_ind. intros buf ->.
  destruct (Str.find buf NL) as [pos|] eqn:Hf.
  - destruct (find_some_split _ _ Hf) as [Hsplit Hclean].
    pose proof (find_some_lt _ _ Hf) as Hlt.
    set (a := firstn pos buf) in *. set (b := skipn (S pos) buf) in *.
    rewrite Hsplit, extract_messages_line by exact Hclean. simpl.
    apply Hsome; [exact Hclean|].
    apply (IH (length b)); [|reflexivity].
    subst b. rewrite length_skipn. lia.
  - rewrite extract_messages_none by exact Hf. simpl. now apply Hnone.
Qed.

Lemma extract_messages_rest_clean (buf : cstring) :
  nl_free (snd (extract_messages buf)).
Proof.
  apply (extract_messages_ind (fun _ _ rest => nl_free rest)); auto.
Qed.

Lemma reassemble_extract (buf : cstring) :
  reassemble (extract_messages buf) = buf.
Proof.
  unfold reassemble.
  apply (extract_messages_ind
           (fun buf ms rest => concat (map (fun m => m ++ [NL]) ms) ++ rest = buf)).
  - reflexivity.
  - intros a b _ IH. simpl. rewrite <- !app_assoc. simpl. now rewrite IH.
Qed.

(** Framing a buffer with more bytes behind it: the lines of the buffer,
    then the lines of what it left followed by the new bytes. *)
Lemma extract_messages_app (a b : cstring) :
  extract_messages (a ++ b) =
    (fst (extract_messages a) ++ fst (extract_messages (snd (extract_messages a) ++ b)),
     snd (extract_messages (snd (extract_messages a) ++ b))).
Proof.
  revert b.
  apply (extract_messages_ind
           (fun a ms rest => forall b,
                extract_messages (a ++ b) =
                  (ms ++ fst (extract_messages (rest ++ b)),
                   snd (extract_messages (rest ++ b))))).
  - intros buf _ b. simpl. now destruct (extract_messages (buf ++ b)).
  - intros l a' Hl IH b. rewrite <- app_assoc. simpl.
    rewrite extract_messages_line by exact Hl. now rewrite IH.
Qed.

Lemma feed_extract (buf : cstring) (chunks : list cstring) :
  nl_free buf -> feed buf chunks = extract_messages (buf ++ concat chunks).
Proof.
  revert buf; induction chunks as [|c cs IH]; intros buf Hbuf; simpl.
  - rewrite app_nil_r. symmetry. now apply extract_messages_none.
  - unfold on_recv, Str.append. rewrite firstn_all.
    rewrite IH by apply extract_messages_rest_clean.
    rewrite app_assoc. now rewrite (extract_messages_app (buf ++ c)).
Qed.

(** C1.  Framing idempotence: whatever the way a byte sequence is cut
    into non-empty chunks, appending the chunks to the inbound buffer one
    at a time and framing after each append gives the same messages in
    the same order (and leaves the same buffer) as appending the whole
    sequence at once and framing once. *)
Theorem framing_idempotence (chunks : list cstring) :
  Forall (fun chunk => chunk <> []) chunks ->
  feed [] chunks = feed [] [concat chunks].
Proof.
  intros _. rewrite !feed_extract by reflexivity. simpl. now rewrite app_nil_r.
Qed.

Lemma framing_idempotence_witness :
  let chunks := [lit "he"; lit "llo" ++ NL :: lit "wo"; [NL]; lit "rld" ++ [NL] ++ lit "x"] in
  Forall (fun chunk => chunk <> []) chunks /\
  fst (feed [] chunks) = [lit "hello"; lit "wo"; lit "rld"] /\
  feed [] chunks = feed [] [concat chunks].
Proof.
  assert (H : Forall (fun chunk : cstring => chunk <> [])
                [lit "he"; lit "llo" ++ NL :: lit "wo"; [NL]; lit "rld" ++ [NL] ++ lit "x"])
    by (repeat constructor; discriminate).
  split; [exact H|]. split; [reflexivity|].
  exact (framing_idempotence H).
Defined.

(** C2.  No data loss or duplication: the extracted messages, each
    followed by the delimiter again, and then the bytes left in the
    buffer, are the input, byte for byte; also when the input arrived in
    chunks. *)
Theorem no_loss_no_duplication :
  (forall input : cstring, reassemble (extract_messages input) = input) /\
  (forall chunks : list cstring, reassemble (feed [] chunks) = concat chunks).
Proof.
  split.
  - apply reassemble_extract.
  - intros chunks. rewrite feed_extract by reflexivity. apply reassemble_extract.
Qed.

(** ** Reasoning about computations *)

Section Computations.

Variable W : Type.

Lemma emits_ret {A} p (a : A) : emits p (@ret W A a).
Proof. intros w. reflexivity. Qed.

Lemma emits_throw {A} p : emits p (@throw W A).
Proof. intros w. reflexivity. Qed.

Lemma emits_out_of_fuel {A} p : emits p (@out_of_fuel W A).
Proof. intros w. reflexivity. Qed.

Lemma emits_emit p e : p e = true -> emits p (emit (W := W) e).
Proof. intros H w. unfold trace_of. simpl. now rewrite H. Qed.

Lemma emits_call {A} p (f : W -> A * W) log :
  (forall a, p (log a) = true) -> emits p (call f log).
Proof.
  intros H w. unfold call, trace_of. destruct (f w) as [a w']. simpl. now rewrite H.
Qed.

Lemma emits_call_ p (f : W -> W) e : p e = true -> emits p (call_ f e).
Proof. intros H w. unfold trace_of. simpl. now rewrite H. Qed.

Lemma emits_bind {A B} p (m : M W A) (k : A -> M W B) :
  emits p m -> (forall a, emits p (k a)) -> emits p (bind m k).
Proof.
  intros Hm Hk w. specialize (Hm w). unfold bind, trace_of in *.
  destruct (m w) as [[[a| |] w1] t1]; simpl in *; try exact Hm.
  specialize (Hk a w1). destruct (k a w1) as [[r w2] t2]. simpl in *.
  now rewrite forallb_app, Hm, Hk.
Qed.

Lemma returns_ret {A} (a : A) (Q : A -> Prop) : Q a -> returns (@ret W A a) Q.
Proof. intros H w a' w' tr [= <- _ _]. exact H. Qed.

Lemma returns_bind {A B} (m : M W A) (k : A -> M W B) (Q : B -> Prop) :
  (forall a, returns (k a) Q) -> returns (bind m k) Q.
Proof.
  intros Hk w b w' tr. unfold bind.
  destruct (m w) as [[[a| |] w1] t1]; try discriminate.
  destruct (k a w1) as [[r w2] t2] eqn:Hka. intros [= -> _ _].
  exact (Hk a w1 b w2 t2 Hka).
Qed.

(** A run of [bind] that returns is a run of each half. *)
Lemma bind_returned {A B} (m : M W A) (k : A -> M W B) w b w' tr :
  bind m k w = (Returned b, w', tr) ->
  exists a w1 t1 t2,
    m w = (Returned a, w1, t1) /\ k a w1 = (Returned b, w', t2) /\ tr = t1 ++ t2.
Proof.
  unfold bind. destruct (m w) as [[[a| |] w1] t1]; try discriminate.
  destruct (k a w1) as [[r w2] t2] eqn:Hka. intros [= -> -> <-].
  now exists a, w1, t1, t2.
Qed.

End Computations.

Ltac emits_step :=
  match goal with
  | |- emits _ (bind _ _) => apply emits_bind; [|intros ?]
  | |- emits _ (ret _) => apply emits_ret
  | |- emits _ throw => apply emits_throw
  | |- emits _ out_of_fuel => apply emits_out_of_fuel
  | |- emits _ (call _ _) => apply emits_call; intros; reflexivity
  | |- emits _ (call_ _ _) => apply emits_call_; reflexivity
  | |- emits _ (emit _) => apply emits_emit; reflexivity
  | |- emits _ (if ?c then _ else _) => destruct c
  | |- emits _ (match ?x with _ => _ end) => destruct x
  end.

(** ** Malformed invocations *)



(** ** Connection setup *)

(** Runs a straight-line computation symbolically: every answer of the
    platform becomes a variable, every test a case. *)
Ltac os_answer :=
  match goal with
  | |- context [os_socket ?P ?w] => destruct (os_socket P w) as [? ?]
  | |- context [os_bind ?P ?fd ?a ?w] => destruct (os_bind P fd a w) as [? ?]
  | |- context [os_listen ?P ?fd ?b ?w] => destruct (os_listen P fd b w) as [? ?]
  | |- context [os_accept ?P ?fd ?w] => destruct (os_accept P fd w) as [? ?]
  | |- context [os_inet_pton ?P ?h ?w] => destruct (os_inet_pton P h w) as [? ?]
  | |- context [os_connect ?P ?fd ?a ?w] => destruct (os_connect P fd a w) as [? ?]
  | |- context [os_select ?P ?n ?s ?w] => destruct (os_select P n s w) as [? ?]
  | |- context [os_getline ?P ?w] => destruct (os_getline P w) as [? ?]
  | |- context [os_send ?P ?fd ?d ?w] => destruct (os_send P fd d w) as [? ?]
  | |- context [os_recv ?P ?fd ?c ?w] => destruct (os_recv P fd c w) as [? ?]
  | |- context [os_tcgetattr ?P ?fd ?w] => destruct (os_tcgetattr P fd w) as [? ?]
  | |- context [os_tcsetattr ?P ?fd ?a ?w] => destruct (os_tcsetattr P fd a w) as [? ?]
  | |- context [os_read ?P ?fd ?c ?w] => destruct (os_read P fd c w) as [? ?]
  end.

Ltac os_test :=
  match goal with
  | |- context [if ?c then _ else _] => destruct c eqn:?
  end.

Ltac run_setup :=
  unfold listen_and_accept, connect_to_peer, sys_socket, sys_setsockopt, sys_bind,
    sys_listen, sys_accept, sys_inet_pton, sys_connect, sys_close, cout, cerr,
    bind, call, call_, emit, ret;
  repeat (first [os_answer | os_test]; simpl).

Lemma listen_and_accept_accepts_once (W : Type) (P : platform W) (port : Z) (w : W) :
  (length (filter is_accept (trace_of (listen_and_accept P port w))) <= 1)%nat.
Proof.
  unfold trace_of. run_setup; simpl; lia.
Qed.

Lemma listen_and_accept_returns (W : Type) (P : platform W) (port : Z) (w : W) :
  exists fd, outcome_of (listen_and_accept P port w) = Returned fd.
Proof.
  unfold outcome_of. run_setup; simpl; eauto.
Qed.

(** The amended C6.  [accept] is called at most once: any negative
    answer, a signal interruption ([errno = EINTR]) as much as a genuine
    failure, is reported as an accept error, the listening socket is
    closed and [listen_and_accept] returns -1.  Nothing is retried. *)
Theorem accept_failure_is_final
  (W : Type) (P : platform W) (port : Z) (w w' : W) (r : outcome Z)
  (tr : list event) (fd : Z) (a : sysret) :
  listen_and_accept P port w = (r, w', tr) ->
  In (ev_accept fd a) tr ->
  rv a < 0 ->
  r = Returned (-1) /\
  length (filter is_accept tr) = 1%nat /\
  exists before,
    tr = before ++ [ev_accept fd a;
                    ev_cerr (lit "accept() failed: " ++ strerror P (err a) ++ [NL]);
                    ev_close fd].
Proof.
  intros Hrun Hin Hneg. revert Hrun.
  run_setup; intros [= <- <- <-]; simpl in Hin;
    repeat (destruct Hin as [Hin|Hin]; [try discriminate|]); try contradiction;
    injection Hin as <- <-.
  - repeat split.
    match goal with |- exists before, ?t = _ => exists (firstn 5 t) end.
    reflexivity.
  - match goal with H : (_ <? 0) = false |- _ => apply Z.ltb_ge in H; lia end.
Qed.

Lemma accept_failure_is_final_witness :
  let P := Scenario.platform_of Scenario.accept_interrupted in
  let a := Scenario.failed EINTR in
  let tr := trace_of (listen_and_accept P 3333 O) in
  In (ev_accept 3 a) tr /\
  err a = EINTR /\
  outcome_of (listen_and_accept P 3333 O) = Returned (-1) /\
  length (filter is_accept tr) = 1%nat /\
  exists before,
    tr = before ++ [ev_accept 3 a;
                    ev_cerr (lit "accept() failed: " ++ strerror P (err a) ++ [NL]);
                    ev_close 3].
Proof.
  assert (Hin : In (ev_accept 3 (Scenario.failed EINTR))
                  (trace_of (listen_and_accept
                               (Scenario.platform_of Scenario.accept_interrupted) 3333 O)))
    by (vm_compute; tauto).
  split; [exact Hin|]. split; [reflexivity|].
  exact (@accept_failure_is_final nat
           (Scenario.platform_of Scenario.accept_interrupted) 3333 O _ _ _ 3
           (Scenario.failed EINTR) eq_refl Hin eq_refl).
Defined.

(** C6 as the specification words it does not hold: here a signal
    interrupts [accept] once; the call is not made again, the
    interruption is reported as an error and [listen_and_accept] fails. *)
Lemma interrupted_accept_not_retried :
  listen_and_accept (Scenario.platform_of Scenario.accept_interrupted) 3333 O
  = (Returned (-1), O,
     [ev_socket 3; ev_setsockopt 3;
      ev_bind 3 {| sin_addr := INADDR_ANY; sin_port := htons 3333 |} 0;
      ev_listen 3 1 0;
      ev_cout (lit "listening on port 3333 ... waiting for one peer" ++ [NL]);
      ev_accept 3 {| rv := -1; err := EINTR |};
      ev_cerr (lit "accept() failed: errno 4" ++ [NL]);
      ev_close 3]).
Proof. vm_compute. reflexivity. Qed.

(** ** The framing loop with its output *)

Lemma print_lines_none (W : Type) (buf : cstring) :
  Str.find buf NL = None -> @TcpPeer.print_lines W buf = ret buf.
Proof.
  intros H. rewrite TcpPeer.print_lines_equation_1.
  destruct (inspect (Str.find buf NL)) as [[pos|] e].
  - congruence.
  - reflexivity.
Qed.

Lemma print_lines_some (W : Type) (buf : cstring) (pos : nat) :
  Str.find buf NL = Some pos ->
  @TcpPeer.print_lines W buf =
    (cout (lit "[peer] " ++ Str.substr buf 0 pos ++ [NL]) ;;
     @TcpPeer.print_lines W (Str.erase buf 0 (pos + 1))).
Proof.
  intros H. rewrite TcpPeer.print_lines_equation_1.
  destruct (inspect (Str.find buf NL)) as [[p|] e].
  - assert (p = pos) by congruence. subst p. reflexivity.
  - congruence.
Qed.

(** The loop always ends; it prints the extracted messages in order,
    leaves the remainder, and does not touch the world. *)
Lemma print_lines_extract (W : Type) (buf : cstring) (w : W) :
  @TcpPeer.print_lines W buf w
  = (Returned (snd (extract_messages buf)), w, map printed (fst (extract_messages buf))).
Proof.
  apply (extract_messages_ind
           (fun buf ms rest =>
              @TcpPeer.print_lines W buf w = (Returned rest, w, map printed ms))).
  - intros b Hb. now rewrite print_lines_none.
  - intros a b Ha IH.
    rewrite (@print_lines_some _ _ (length a)) by now apply find_app_clean.
    rewrite substr_0_app, erase_0_app. unfold bind, cout, emit. now rewrite IH.
Qed.

(** A message never holds a delimiter. *)
Lemma extract_messages_lines_clean (buf : cstring) :
  Forall nl_free (fst (extract_messages buf)).
Proof.
  apply (extract_messages_ind (fun _ ms _ => Forall nl_free ms)); auto.
Qed.

(** When [recv] delivers bytes, the socket side of a session pass is the
    receive path [on_recv]: the messages it extracts are printed in
    order and the buffer it leaves is carried to the next pass. *)
Lemma pump_socket_on_recv (W : Type) (P : platform W) (fd : Z)
      (incoming_buffer bytes : cstring) (w w1 : W) :
  os_recv P fd 4096 w = (read_bytes bytes, w1) ->
  bytes <> [] ->
  TcpPeer.pump_socket P fd incoming_buffer w
  = (Returned (f_next, snd (on_recv incoming_buffer bytes)), w1,
     ev_recv fd 4096 (read_bytes bytes)
       :: map printed (fst (on_recv incoming_buffer bytes))).
Proof.
  intros Hrecv Hne. unfold TcpPeer.pump_socket, bind, sys_recv, call. rewrite Hrecv.
  cbv zeta. cbn [read_n read_buf read_errno].
  assert (Hlen : 0 < Z.of_nat (length bytes)) by (destruct bytes; [congruence | simpl; lia]).
  destruct (Z.of_nat (length bytes) =? 0) eqn:Hz; [apply Z.eqb_eq in Hz; lia|].
  destruct (Z.of_nat (length bytes) <? 0) eqn:Hn; [apply Z.ltb_lt in Hn; lia|].
  rewrite Nat2Z.id, print_lines_extract. unfold on_recv, ret. simpl.
  now rewrite app_nil_r.
Qed.

(** C9.  Empty messages are legal outputs: when the input is a sequence
    of delimiter-free segments, each followed by a delimiter, and then a
    delimiter-free remainder, the framer yields exactly those segments,
    empty ones (between consecutive delimiters, or before a leading one)
    included, and the receive path prints every one of them, an empty
    segment as a line of its own. *)
Theorem empty_messages_are_emitted
  (W : Type) (w : W) (segments : list cstring) (rest : cstring) :
  Forall nl_free segments ->
  nl_free rest ->
  extract_messages (reassemble (segments, rest)) = (segments, rest) /\
  @TcpPeer.print_lines W (reassemble (segments, rest)) w
    = (Returned rest, w, map printed segments) /\
  (forall n, nth_error segments n = Some [] ->
             nth_error (map printed segments) n = Some (ev_cout (lit "[peer] " ++ [NL]))).
Proof.
  intros Hseg Hrest.
  assert (Hex : extract_messages (reassemble (segments, rest)) = (segments, rest)).
  { unfold reassemble. simpl. induction Hseg as [|m ms Hm _ IH]; simpl.
    - now apply extract_messages_none.
    - rewrite <- !app_assoc. simpl. rewrite extract_messages_line by exact Hm.
      now rewrite IH. }
  split; [exact Hex|]. split.
  - now rewrite print_lines_extract, Hex.
  - intros n Hn. now rewrite nth_error_map, Hn.
Qed.

Lemma empty_messages_are_emitted_witness :
  let segments := [[]; lit "a"; []; []; lit "b"] in
  reassemble (segments, lit "c") = NL :: lit "a" ++ NL :: NL :: NL :: lit "b" ++ NL :: lit "c" /\
  extract_messages (reassemble (segments, lit "c")) = (segments, lit "c") /\
  @TcpPeer.print_lines nat (reassemble (segments, lit "c")) O
    = (Returned (lit "c"), O, map printed segments) /\
  (forall n, nth_error segments n = Some [] ->
             nth_error (map printed segments) n = Some (ev_cout (lit "[peer] " ++ [NL]))).
Proof.
  split; [reflexivity|].
  apply (@empty_messages_are_emitted nat O
           [[]; lit "a"; []; []; lit "b"] (lit "c")).
  - repeat constructor.
  - reflexivity.
Defined.

(** ** Which events each part of the programs can cause *)

Lemma emits_weaken (W A : Type) (p q : event -> bool) (m : M W A) :
  (forall e, p e = true -> q e = true) -> emits p m -> emits q m.
Proof.
  intros Hpq Hm w. specialize (Hm w). rewrite forallb_forall in *. auto.
Qed.

Lemma emits_run (W A : Type) (p : event -> bool) (m : M W A) w o w' tr :
  emits p m -> m w = (o, w', tr) -> forallb p tr = true.
Proof. intros Hm Hrun. specialize (Hm w). now rewrite Hrun in Hm. Qed.

Ltac unfold_calls :=
  unfold sys_socket, sys_setsockopt, sys_bind, sys_listen, sys_accept, sys_inet_pton,
    sys_connect, sys_close, sys_select, sys_send, sys_recv, TcpPeer.sys_getline,
    StreamPeer.sys_tcgetattr, StreamPeer.sys_tcsetattr, StreamPeer.sys_read,
    StreamPeer.sys_write, cout, cerr.

Ltac emits_auto :=
  repeat first [emits_step | progress unfold_calls | progress cbv zeta].

Section Classes.

Variable W : Type.
Variable P : platform W.

(** Setup makes no call of the session loop. *)
Lemma listen_and_accept_emits port :
  emits (fun e => is_setup e || is_report e || is_close e)%bool (listen_and_accept P port).
Proof. unfold listen_and_accept. emits_auto. Qed.

Lemma connect_to_peer_emits host port :
  emits (fun e => is_setup e || is_report e || is_close e)%bool (connect_to_peer P host port).
Proof. unfold connect_to_peer. emits_auto. Qed.

Lemma send_loop_emits fuel fd text data left :
  emits (fun e => is_send e || is_report e)%bool (send_loop P fuel fd text data left).
Proof.
  revert data left; induction fuel as [|fuel IH]; intros data left; simpl.
  - emits_auto.
  - destruct (left >? 0); [|emits_auto].
    apply emits_bind; [emits_auto|]. intros r. cbv zeta.
    destruct (rv r <? 0).
    + destruct (err r =? EINTR); [apply IH | emits_auto].
    + destruct (rv r =? 0); [emits_auto | apply IH].
Qed.

Lemma print_lines_emits buf :
  emits is_report (@TcpPeer.print_lines W buf).
Proof.
  intros w. rewrite print_lines_extract. unfold trace_of. simpl.
  induction (fst (extract_messages buf)); simpl; auto.
Qed.

End Classes.

Ltac by_event :=
  let ev := fresh "ev" in intros ev; destruct ev; simpl; intros; auto; discriminate.

Section SessionClasses.

Variable W : Type.
Variable P : platform W.

Lemma send_loop_in_session fuel fd text data left :
  emits in_session (send_loop P fuel fd text data left).
Proof. eapply emits_weaken; [|apply send_loop_emits]. by_event. Qed.

Lemma print_lines_in_session buf : emits in_session (@TcpPeer.print_lines W buf).
Proof. eapply emits_weaken; [|apply print_lines_emits]. by_event. Qed.

Lemma send_loop_keyboard_side fuel fd text data left :
  emits keyboard_side (send_loop P fuel fd text data left).
Proof. eapply emits_weaken; [|apply send_loop_emits]. by_event. Qed.

Lemma tcp_pump_stdin_keyboard_side fuel fd :
  emits keyboard_side (TcpPeer.pump_stdin P fuel fd).
Proof.
  unfold TcpPeer.pump_stdin, send_all_bytes.
  apply emits_bind; [emits_auto|]. intros [line|]; [|emits_auto].
  cbv zeta. apply emits_bind; [apply send_loop_keyboard_side | intros; emits_auto].
Qed.

Lemma tcp_pump_stdin_in_session fuel fd :
  emits in_session (TcpPeer.pump_stdin P fuel fd).
Proof. eapply emits_weaken; [|apply tcp_pump_stdin_keyboard_side]. by_event. Qed.

Lemma tcp_pump_socket_in_session fd buf :
  emits in_session (TcpPeer.pump_socket P fd buf).
Proof.
  unfold TcpPeer.pump_socket.
  apply emits_bind; [emits_auto|]. intros r. cbv zeta.
  destruct (read_n r =? 0); [emits_auto|].
  destruct (read_n r <? 0); [emits_auto|].
  apply emits_bind; [apply print_lines_in_session | intros; emits_auto].
Qed.

Lemma tcp_iteration_in_session fuel fd buf :
  emits in_session (TcpPeer.iteration P fuel fd buf).
Proof.
  unfold TcpPeer.iteration. cbv zeta.
  apply emits_bind; [emits_auto|]. intros s.
  destruct (rv (ready s) <? 0); [emits_auto|].
  apply emits_bind.
  - destruct (FD_ISSET 0 (read_set s)); [apply tcp_pump_stdin_in_session | emits_auto].
  - intros [| |]; try solve [emits_auto].
    destruct (FD_ISSET fd (read_set s)); [apply tcp_pump_socket_in_session | emits_auto].
Qed.

Lemma tcp_session_in_session fuel fd buf :
  emits in_session (TcpPeer.session P fuel fd buf).
Proof.
  revert buf; induction fuel as [|fuel IH]; intros buf; simpl.
  - emits_auto.
  - apply emits_bind; [apply tcp_iteration_in_session|].
    intros [[| |] buf']; simpl; solve [apply IH | emits_auto].
Qed.

Lemma stream_pump_stdin_keyboard_side fuel fd :
  emits keyboard_side (StreamPeer.pump_stdin P fuel fd).
Proof.
  unfold StreamPeer.pump_stdin, send_all_bytes_raw.
  apply emits_bind; [emits_auto|]. intros r. cbv zeta.
  destruct (read_n r =? 1); [|emits_auto].
  apply emits_bind; [emits_auto|]. intros _.
  apply emits_bind; [apply send_loop_keyboard_side | intros; emits_auto].
Qed.

Lemma stream_pump_stdin_in_session fuel fd :
  emits in_session (StreamPeer.pump_stdin P fuel fd).
Proof. eapply emits_weaken; [|apply stream_pump_stdin_keyboard_side]. by_event. Qed.

Lemma stream_pump_socket_in_session fd :
  emits in_session (StreamPeer.pump_socket P fd).
Proof. unfold StreamPeer.pump_socket. emits_auto. Qed.

Lemma stream_iteration_in_session fuel fd :
  emits in_session (StreamPeer.iteration P fuel fd).
Proof.
  unfold StreamPeer.iteration. cbv zeta.
  apply emits_bind; [emits_auto|]. intros s.
  destruct (rv (ready s) <? 0); [emits_auto|].
  apply emits_bind.
  - destruct (FD_ISSET STDIN_FILENO (read_set s));
      [apply stream_pump_stdin_in_session | emits_auto].
  - intros [| |]; try solve [emits_auto].
    destruct (FD_ISSET fd (read_set s)); [apply stream_pump_socket_in_session | emits_auto].
Qed.

Lemma stream_session_in_session fuel fd :
  emits in_session (StreamPeer.session P fuel fd).
Proof.
  induction fuel as [|fuel IH]; simpl.
  - emits_auto.
  - apply emits_bind; [apply stream_iteration_in_session|].
    intros [| |]; solve [apply IH | emits_auto].
Qed.

Lemma stream_run_session_in_session fuel fd :
  emits in_session (StreamPeer.run_session P fuel fd).
Proof.
  unfold StreamPeer.run_session, StreamPeer.enable, StreamPeer.destroy.
  apply emits_bind; [emits_auto|]. intros e. cbv zeta.
  destruct (negb (fst e)); [emits_auto|].
  apply emits_bind; [emits_auto|]. intros _.
  apply emits_bind; [apply stream_session_in_session|]. intros _. emits_auto.
Qed.

End SessionClasses.

(** ** The port that reaches the socket calls *)

Lemma ntohs_htons (x : Z) : ntohs (htons x) = x.
Proof.
  unfold ntohs, htons. simpl. pose proof (Z.div_mod x 256). lia.
Qed.

Section Ports.

Variable W : Type.
Variable P : platform W.

Lemma in_session_uses_port q (A : Type) (m : M W A) :
  emits in_session m -> emits (uses_port q) m.
Proof. apply emits_weaken. by_event. Qed.

Ltac port_call :=
  match goal with
  | |- emits _ (call _ _) =>
      apply emits_call; intros; simpl; rewrite ?ntohs_htons, ?Z.eqb_refl; reflexivity
  end.

Lemma listen_and_accept_port port :
  emits (uses_port (to_uint16 port)) (listen_and_accept P port).
Proof.
  unfold listen_and_accept.
  repeat first [emits_step | port_call | progress unfold_calls | progress cbv zeta].
Qed.

Lemma connect_to_peer_port host port :
  emits (uses_port (to_uint16 port)) (connect_to_peer P host port).
Proof.
  unfold connect_to_peer.
  repeat first [emits_step | port_call | progress unfold_calls | progress cbv zeta].
Qed.

Lemma tcp_main_port fuel argv arg p :
  port_argument argv = Some arg -> Stoi.stoi arg = Some p ->
  emits (uses_port (to_uint16 p)) (TcpPeer.main P fuel argv).
Proof.
  unfold port_argument, TcpPeer.main. intros Harg Hp.
  destruct (TcpPeer.listen_form argv); [|destruct (TcpPeer.connect_form argv)];
    [| |discriminate]; injection Harg as <-; rewrite Hp.
  - apply emits_bind; [apply listen_and_accept_port|]. intros fd.
    destruct (fd <? 0); [emits_auto|].
    apply emits_bind; [emits_auto|]. intros _.
    apply emits_bind; [|intros; emits_auto].
    apply in_session_uses_port, tcp_session_in_session.
  - cbv zeta. apply emits_bind; [apply connect_to_peer_port|]. intros fd.
    destruct (fd <? 0); [emits_auto|].
    apply emits_bind; [emits_auto|]. intros _.
    apply emits_bind; [emits_auto|]. intros _.
    apply emits_bind; [|intros; emits_auto].
    apply in_session_uses_port, tcp_session_in_session.
Qed.

Lemma stream_main_port fuel argv arg p :
  port_argument argv = Some arg -> Stoi.stoi arg = Some p ->
  emits (uses_port (to_uint16 p)) (StreamPeer.main P fuel argv).
Proof.
  unfold port_argument, StreamPeer.main. intros Harg Hp.
  destruct (TcpPeer.listen_form argv); [|destruct (TcpPeer.connect_form argv)];
    [| |discriminate]; injection Harg as <-; rewrite Hp.
  - apply emits_bind; [apply listen_and_accept_port|]. intros fd.
    destruct (fd <? 0); [emits_auto|].
    apply in_session_uses_port, stream_run_session_in_session.
  - cbv zeta. apply emits_bind; [apply connect_to_peer_port|]. intros fd.
    destruct (fd <? 0); [emits_auto|].
    apply in_session_uses_port, stream_run_session_in_session.
Qed.

Lemma bind_extends (A B : Type) (m : M W A) (k : A -> M W B) (w : W) :
  exists rest, trace_of (bind m k w) = trace_of (m w) ++ rest.
Proof.
  unfold bind, trace_of. destruct (m w) as [[[a| |] w1] t1]; simpl.
  - destruct (k a w1) as [[r w2] t2]. now exists t2.
  - exists []. now rewrite app_nil_r.
  - exists []. now rewrite app_nil_r.
Qed.

Lemma binds_port_app q (t1 t2 : list event) :
  binds_port q t1 -> binds_port q (t1 ++ t2).
Proof.
  intros (s & rest & -> & H). exists s, (rest ++ t2). split; [reflexivity|].
  intros Hs. destruct (H Hs) as (r & rest' & ->). now exists r, (rest' ++ t2).
Qed.

Lemma dials_port_app host q (t1 t2 : list event) :
  dials_port host q t1 -> dials_port host q (t1 ++ t2).
Proof.
  intros (s & rest & -> & H). exists s, (rest ++ t2). split; [reflexivity|].
  intros Hs. destruct (H Hs) as (answer & rest' & -> & H').
  exists answer, (rest' ++ t2). split; [reflexivity|].
  intros Ha. destruct (H' Ha) as (a & r & rest'' & ->). now exists a, r, (rest'' ++ t2).
Qed.

(** Whatever the port, [listen_and_accept] goes as far as [bind]. *)
Lemma listen_and_accept_binds port w :
  binds_port (to_uint16 port) (trace_of (listen_and_accept P port w)).
Proof.
  unfold binds_port, trace_of. run_setup;
    (do 2 eexists; split; [reflexivity|]); intros Hs;
    try (match goal with H : (_ <? 0) = true |- _ => apply Z.ltb_lt in H; simpl in H end; lia);
    do 2 eexists; reflexivity.
Qed.

(** Whatever the port, [connect_to_peer] goes as far as [connect] when
    the host is a numeric address. *)
Lemma connect_to_peer_dials host port w :
  dials_port host (to_uint16 port) (trace_of (connect_to_peer P host port w)).
Proof.
  unfold dials_port, trace_of. run_setup;
    (do 2 eexists; split; [reflexivity|]); intros Hs;
    try (match goal with H : (_ <? 0) = true |- _ => apply Z.ltb_lt in H; simpl in H end; lia);
    (do 2 eexists; split; [reflexivity|]); intros Ha;
    try (match goal with
         | H : negb (_ =? 1) = true |- _ =>
             apply negb_true_iff, Z.eqb_neq in H; simpl in H; contradiction
         end);
    do 3 eexists; reflexivity.
Qed.

Lemma main_listens fuel argv p :
  TcpPeer.listen_form argv = true -> Stoi.stoi (nth 2 argv []) = Some p ->
  forall w,
    binds_port (to_uint16 p) (trace_of (TcpPeer.main P fuel argv w)) /\
    binds_port (to_uint16 p) (trace_of (StreamPeer.main P fuel argv w)).
Proof.
  intros Hform Hp w. unfold TcpPeer.main, StreamPeer.main. rewrite Hform, Hp. split.
  - match goal with
    | |- binds_port _ (trace_of (bind ?m ?k w)) =>
        destruct (bind_extends m k w) as [rest ->]
    end.
    apply binds_port_app, listen_and_accept_binds.
  - match goal with
    | |- binds_port _ (trace_of (bind ?m ?k w)) =>
        destruct (bind_extends m k w) as [rest ->]
    end.
    apply binds_port_app, listen_and_accept_binds.
Qed.

Lemma main_connects fuel argv p :
  TcpPeer.listen_form argv = false -> TcpPeer.connect_form argv = true ->
  Stoi.stoi (nth 3 argv []) = Some p ->
  forall w,
    dials_port (nth 2 argv []) (to_uint16 p) (trace_of (TcpPeer.main P fuel argv w)) /\
    dials_port (nth 2 argv []) (to_uint16 p) (trace_of (StreamPeer.main P fuel argv w)).
Proof.
  intros Hl Hc Hp w. unfold TcpPeer.main, StreamPeer.main. rewrite Hl, Hc. cbv zeta.
  rewrite Hp. split.
  - match goal with
    | |- dials_port _ _ (trace_of (bind ?m ?k w)) =>
        destruct (bind_extends m k w) as [rest ->]
    end.
    apply dials_port_app, connect_to_peer_dials.
  - match goal with
    | |- dials_port _ _ (trace_of (bind ?m ?k w)) =>
        destruct (bind_extends m k w) as [rest ->]
    end.
    apply dials_port_app, connect_to_peer_dials.
Qed.

End Ports.

(** C10.  Port truncation: when the port argument is accepted by the
    parser with value [p], then, in both programs and whatever [p] is,
    the port is never refused: in the listen form the run opens a
    socket and, having got one, binds it to port [p mod 2^16]; in the
    connect form it opens a socket and, having got one and the host
    being a numeric address, connects it to port [p mod 2^16]; and
    every [bind] and every [connect] of the run carries the port
    [p mod 2^16] in its address.  Nothing checks the range, so when [p]
    lies outside 0..65535 that is a port other than the one asked
    for. *)
Theorem port_is_truncated_mod_2_16
  (W : Type) (P : platform W) (fuel : nat) (argv : list cstring) (arg : cstring)
  (p : Z) (w : W) :
  port_argument argv = Some arg ->
  Stoi.stoi arg = Some p ->
  let line_peer := trace_of (TcpPeer.main P fuel argv w) in
  let keystroke_peer := trace_of (StreamPeer.main P fuel argv w) in
  forallb (uses_port (p mod 2 ^ 16)) line_peer = true /\
  forallb (uses_port (p mod 2 ^ 16)) keystroke_peer = true /\
  (p < 0 \/ 65535 < p -> p mod 2 ^ 16 <> p) /\
  (if TcpPeer.listen_form argv
   then binds_port (p mod 2 ^ 16) line_peer /\
        binds_port (p mod 2 ^ 16) keystroke_peer
   else dials_port (nth 2 argv []) (p mod 2 ^ 16) line_peer /\
        dials_port (nth 2 argv []) (p mod 2 ^ 16) keystroke_peer).
Proof.
  intros Harg Hp line_peer keystroke_peer. split; [|split; [|split]].
  - exact (tcp_main_port P fuel argv Harg Hp w).
  - exact (stream_main_port P fuel argv Harg Hp w).
  - intros Hout Heq. pose proof (Z.mod_pos_bound p (2 ^ 16) eq_refl). lia.
  - unfold port_argument in Harg.
    destruct (TcpPeer.listen_form argv) eqn:Hl.
    + injection Harg as <-. exact (main_listens P fuel argv Hl Hp w).
    + destruct (TcpPeer.connect_form argv) eqn:Hc; [|discriminate].
      injection Harg as <-. exact (main_connects P fuel argv Hl Hc Hp w).
Qed.

Lemma port_is_truncated_mod_2_16_witness :
  let P := Scenario.platform_of Scenario.peer_talks_then_closes in
  let dial := [lit "tcp_peer"; lit "--connect"; lit "127.0.0.1"; lit "65616"] in
  let serve := [lit "tcp_peer"; lit "--listen"; lit "-65456"] in
  (Stoi.stoi (lit "65616") = Some 65616 /\
   Stoi.stoi (lit "-65456") = Some (-65456) /\
   65616 mod 2 ^ 16 = 80 /\
   (-65456) mod 2 ^ 16 = 80 /\
   In (ev_connect 3 {| sin_addr := [127; 0; 0; 1]; sin_port := htons 80 |} 0)
      (trace_of (TcpPeer.main P 10 dial O)) /\
   In (ev_connect 3 {| sin_addr := [127; 0; 0; 1]; sin_port := htons 80 |} 0)
      (trace_of (StreamPeer.main P 10 dial O)) /\
   In (ev_bind 3 {| sin_addr := INADDR_ANY; sin_port := htons 80 |} 0)
      (trace_of (TcpPeer.main P 10 serve O)) /\
   In (ev_bind 3 {| sin_addr := INADDR_ANY; sin_port := htons 80 |} 0)
      (trace_of (StreamPeer.main P 10 serve O))) /\
  (let line_peer := trace_of (TcpPeer.main P 10 dial O) in
   let keystroke_peer := trace_of (StreamPeer.main P 10 dial O) in
   forallb (uses_port (65616 mod 2 ^ 16)) line_peer = true /\
   forallb (uses_port (65616 mod 2 ^ 16)) keystroke_peer = true /\
   (65616 < 0 \/ 65535 < 65616 -> 65616 mod 2 ^ 16 <> 65616) /\
   (if TcpPeer.listen_form dial
    then binds_port (65616 mod 2 ^ 16) line_peer /\
         binds_port (65616 mod 2 ^ 16) keystroke_peer
    else dials_port (nth 2 dial []) (65616 mod 2 ^ 16) line_peer /\
         dials_port (nth 2 dial []) (65616 mod 2 ^ 16) keystroke_peer)) /\
  (let line_peer := trace_of (TcpPeer.main P 10 serve O) in
   let keystroke_peer := trace_of (StreamPeer.main P 10 serve O) in
   forallb (uses_port ((-65456) mod 2 ^ 16)) line_peer = true /\
   forallb (uses_port ((-65456) mod 2 ^ 16)) keystroke_peer = true /\
   (-65456 < 0 \/ 65535 < -65456 -> (-65456) mod 2 ^ 16 <> -65456) /\
   (if TcpPeer.listen_form serve
    then binds_port ((-65456) mod 2 ^ 16) line_peer /\
         binds_port ((-65456) mod 2 ^ 16) keystroke_peer
    else dials_port (nth 2 serve []) ((-65456) mod 2 ^ 16) line_peer /\
         dials_port (nth 2 serve []) ((-65456) mod 2 ^ 16) keystroke_peer)).
Proof.
  split; [repeat split; vm_compute; tauto|]. split.
  - exact (@port_is_truncated_mod_2_16 nat
             (Scenario.platform_of Scenario.peer_talks_then_closes) 10
             [lit "tcp_peer"; lit "--connect"; lit "127.0.0.1"; lit "65616"]
             (lit "65616") 65616 O eq_refl eq_refl).
  - exact (@port_is_truncated_mod_2_16 nat
             (Scenario.platform_of Scenario.peer_talks_then_closes) 10
             [lit "tcp_peer"; lit "--listen"; lit "-65456"]
             (lit "-65456") (-65456) O eq_refl eq_refl).
Defined.

(** ** Exit status *)

Lemma forallb_existsb_disjoint (p q : event -> bool) (tr : list event) :
  (forall e, p e = true -> q e = false) ->
  forallb p tr = true -> existsb q tr = false.
Proof.
  intros Hpq. induction tr as [|e tr IH]; simpl; [reflexivity|].
  intros [He Htr]%andb_prop. now rewrite (Hpq e He), IH.
Qed.

Section ExitStatus.

Variable W : Type.
Variable P : platform W.







End ExitStatus.




(** ** Termination on peer close *)

Lemma peer_close_position (a b pre post : list event) (x y : event) :
  forallb not_peer_close a = true ->
  forallb not_peer_close b = true ->
  is_peer_close x = true ->
  is_peer_close y = true ->
  pre ++ x :: post = a ++ y :: b ->
  pre = a /\ x = y /\ post = b.
Proof.
  intros Ha Hb Hx Hy. revert pre. induction a as [|e a IH]; intros pre Heq.
  - destruct pre as [|e' pre]; simpl in *.
    + injection Heq as -> ->. auto.
    + injection Heq as -> <-. rewrite forallb_app in Hb. simpl in Hb.
      unfold not_peer_close in Hb at 2. rewrite Hx in Hb. simpl in Hb.
      rewrite andb_false_r in Hb. discriminate.
  - simpl in Ha. apply andb_prop in Ha as [He Ha].
    destruct pre as [|e' pre]; simpl in *.
    + injection Heq as -> _. unfold not_peer_close in He. rewrite Hx in He. discriminate.
    + injection Heq as -> Heq. destruct (IH Ha pre Heq) as (-> & -> & ->). auto.
Qed.

Section PeerClose.

Variable W : Type.

(** What a run may end with once it has read zero bytes. *)
Variable tail : list event -> Prop.

Lemma closes_last_emits {A} good (m : M W A) w :
  emits not_peer_close m -> closes_last tail good (m w).
Proof. intros H. left. apply H. Qed.

Lemma closes_last_bind {A B} good (m : M W A) (k : A -> M W B) w :
  emits not_peer_close m ->
  (forall a w1, closes_last tail good (k a w1)) ->
  closes_last tail good (bind m k w).
Proof.
  intros Hm Hk. specialize (Hm w). unfold bind, closes_last, trace_of, outcome_of in *.
  destruct (m w) as [[[a| |] w1] t1]; simpl in *; auto.
  specialize (Hk a w1). destruct (k a w1) as [[r w2] t2]. simpl in *.
  destruct Hk as [Hk|[Hgood (before & t & Ht & -> & Hb)]].
  - left. now rewrite forallb_app, Hm, Hk.
  - right. split; [exact Hgood|]. exists (t1 ++ before), t.
    split; [exact Ht|]. split; [now rewrite app_assoc|].
    now rewrite forallb_app, Hm, Hb.
Qed.

(** A loop body followed by the rest of the loop: when the body ends
    on a zero-length read it says stop, and the rest does nothing. *)
Lemma closes_last_loop {A B} (stop : A -> Prop) good
      (m : M W A) (k : A -> M W B) w :
  closes_last tail stop (m w) ->
  (forall a w1, closes_last tail good (k a w1)) ->
  (forall a w1, stop a -> exists b, k a w1 = (Returned b, w1, []) /\ good b) ->
  closes_last tail good (bind m k w).
Proof.
  intros Hm Hk Hstop. unfold bind, closes_last, trace_of, outcome_of in *.
  destruct (m w) as [[[a| |] w1] t1]; simpl in *.
  - destruct Hm as [Hm|[(a' & [= <-] & Ha) (before & t & Ht & -> & Hb)]].
    + specialize (Hk a w1). destruct (k a w1) as [[r w2] t2]. simpl in *.
      destruct Hk as [Hk|[Hgood (before & t & Ht & -> & Hb)]].
      * left. now rewrite forallb_app, Hm, Hk.
      * right. split; [exact Hgood|]. exists (t1 ++ before), t.
        split; [exact Ht|]. split; [now rewrite app_assoc|].
        now rewrite forallb_app, Hm, Hb.
    + destruct (Hstop a w1 Ha) as (b & -> & Hgood). simpl. right.
      split; [now exists b|]. exists before, t. now rewrite app_nil_r.
  - destruct Hm as [Hm|[(a' & [=] & _) _]]. now left.
  - destruct Hm as [Hm|[(a' & [=] & _) _]]. now left.
Qed.

End PeerClose.

(** What follows a computation that may have ended on a zero-length
    read: the steps [k] takes after it lengthen the tail. *)
Lemma closes_last_then (W A B : Type) (tail1 tail2 : list event -> Prop)
      (good1 : A -> Prop) (good2 : B -> Prop) (m : M W A) (k : A -> M W B) (w : W) :
  closes_last tail1 good1 (m w) ->
  (forall a, emits not_peer_close (k a)) ->
  (forall a w1, good1 a ->
     exists b, outcome_of (k a w1) = Returned b /\ good2 b /\
               forall t, tail1 t -> tail2 (t ++ trace_of (k a w1))) ->
  closes_last tail2 good2 (bind m k w).
Proof.
  intros Hm Hk Hext. unfold bind, closes_last, trace_of, outcome_of in *.
  destruct (m w) as [[[a| |] w1] t1]; simpl in *.
  - specialize (Hk a w1). specialize (Hext a w1). unfold trace_of in Hk.
    destruct (k a w1) as [[r w2] t2]. simpl in *.
    destruct Hm as [Hm|[(a' & [= <-] & Hgood) (before & t & Ht & -> & Hb)]].
    + left. now rewrite forallb_app, Hm, Hk.
    + destruct (Hext Hgood) as (b & -> & Hb2 & Htail). right.
      split; [now exists b|]. exists before, (t ++ t2).
      split; [now apply Htail|]. split; [now rewrite app_assoc | exact Hb].
  - destruct Hm as [Hm|[(a' & [=] & _) _]]. now left.
  - destruct Hm as [Hm|[(a' & [=] & _) _]]. now left.
Qed.

Lemma printed_not_peer_close (ms : list cstring) :
  forallb not_peer_close (map printed ms) = true.
Proof. induction ms; simpl; auto. Qed.

Lemma in_session_not_peer_close_report (W A : Type) (m : M W A) :
  emits (fun e => is_send e || is_report e)%bool m -> emits not_peer_close m.
Proof. apply emits_weaken. by_event. Qed.

Section TcpPeerClose.

Variable W : Type.
Variable P : platform W.

Lemma tcp_pump_socket_closes fd buf w :
  closes_last (session_tail LinePeer fd) (fun r : flow * cstring => fst r = f_break)
    (TcpPeer.pump_socket P fd buf w).
Proof.
  unfold TcpPeer.pump_socket, bind, sys_recv, call, cout, cerr, emit, ret.
  destruct (os_recv P fd 4096 w) as [r w1]. cbv zeta.
  destruct (read_n r =? 0) eqn:Hz.
  - right. split; [eexists; split; reflexivity|].
    exists [], [ev_recv fd 4096 r; ev_cout (farewell LinePeer)].
    apply Z.eqb_eq in Hz. repeat split. now exists r.
  - left. unfold trace_of.
    assert (Hr : not_peer_close (ev_recv fd 4096 r) = true)
      by (unfold not_peer_close; simpl; now rewrite Hz).
    destruct (read_n r <? 0); [destruct (read_errno r =? EINTR)|]; simpl;
      rewrite ?Hr; try reflexivity.
    rewrite print_lines_extract. simpl. rewrite Hr, app_nil_r. simpl.
    apply printed_not_peer_close.
Qed.

Lemma tcp_pump_stdin_quiet fuel fd : emits not_peer_close (TcpPeer.pump_stdin P fuel fd).
Proof. eapply emits_weaken; [|apply tcp_pump_stdin_keyboard_side]. by_event. Qed.

Lemma tcp_iteration_closes fuel fd buf w :
  closes_last (session_tail LinePeer fd) (fun r : flow * cstring => fst r = f_break)
    (TcpPeer.iteration P fuel fd buf w).
Proof.
  unfold TcpPeer.iteration. cbv zeta.
  apply closes_last_bind; [emits_auto|]. intros s w1.
  destruct (rv (ready s) <? 0).
  { apply closes_last_emits. emits_auto. }
  apply closes_last_bind.
  { destruct (FD_ISSET 0 (read_set s)); [apply tcp_pump_stdin_quiet | emits_auto]. }
  intros f w2. destruct f; try solve [apply closes_last_emits; emits_auto].
  destruct (FD_ISSET fd (read_set s)).
  - apply tcp_pump_socket_closes.
  - apply closes_last_emits. emits_auto.
Qed.

Lemma tcp_session_closes fuel fd buf w :
  closes_last (session_tail LinePeer fd) (fun _ : unit => True) (TcpPeer.session P fuel fd buf w).
Proof.
  revert buf w; induction fuel as [|fuel IH]; intros buf w; simpl.
  { apply closes_last_emits. emits_auto. }
  apply closes_last_loop with (stop := fun r : flow * cstring => fst r = f_break).
  - apply tcp_iteration_closes.
  - intros [[| |] buf'] w1; simpl; solve [apply IH | apply closes_last_emits; emits_auto].
  - intros [f buf'] w1 Hf. simpl in Hf. subst f. now exists tt.
Qed.

(** After the session: [::close(socket_fd); return 0;] *)
Lemma tcp_after_session_closes fuel fd w :
  closes_last (main_tail LinePeer) (fun code => code = 0)
    ((TcpPeer.session P fuel fd [] ;; sys_close P fd ;; ret 0) w).
Proof.
  eapply closes_last_then.
  - apply tcp_session_closes.
  - intros; emits_auto.
  - intros [] w1 _. exists 0. repeat split.
    intros t (r & Hr & ->). exists fd, r, []. repeat split. exact Hr.
Qed.

Lemma tcp_main_closes fuel argv w :
  closes_last (main_tail LinePeer) (fun code => code = 0) (TcpPeer.main P fuel argv w).
Proof.
  unfold TcpPeer.main.
  destruct (TcpPeer.listen_form argv); [|destruct (TcpPeer.connect_form argv)].
  - destruct (Stoi.stoi (nth 2 argv [])) as [port|];
      [|apply closes_last_emits; emits_auto].
    apply closes_last_bind.
    { eapply emits_weaken; [|apply listen_and_accept_emits]. by_event. }
    intros fd w1. destruct (fd <? 0); [apply closes_last_emits; emits_auto|].
    apply closes_last_bind; [emits_auto|]. intros _ w2.
    apply tcp_after_session_closes.
  - cbv zeta. destruct (Stoi.stoi (nth 3 argv [])) as [port|];
      [|apply closes_last_emits; emits_auto].
    apply closes_last_bind.
    { eapply emits_weaken; [|apply connect_to_peer_emits]. by_event. }
    intros fd w1. destruct (fd <? 0); [apply closes_last_emits; emits_auto|].
    apply closes_last_bind; [emits_auto|]. intros _ w2.
    apply closes_last_bind; [emits_auto|]. intros _ w3.
    apply tcp_after_session_closes.
  - apply closes_last_emits. emits_auto.
Qed.

End TcpPeerClose.

Section StreamPeerClose.

Variable W : Type.
Variable P : platform W.

Lemma stream_pump_socket_closes fd w :
  closes_last (session_tail KeystrokePeer fd) (fun f : flow => f = f_break)
    (StreamPeer.pump_socket P fd w).
Proof.
  unfold StreamPeer.pump_socket, bind, sys_recv, StreamPeer.sys_write, call, call_,
    cout, cerr, emit, ret.
  destruct (os_recv P fd 4096 w) as [r w1]. cbv zeta.
  destruct (read_n r =? 0) eqn:Hz.
  - right. split; [eexists; split; reflexivity|].
    exists [], [ev_recv fd 4096 r; ev_cout (farewell KeystrokePeer)].
    apply Z.eqb_eq in Hz. repeat split. now exists r.
  - left. unfold trace_of.
    assert (Hr : not_peer_close (ev_recv fd 4096 r) = true)
      by (unfold not_peer_close; simpl; now rewrite Hz).
    destruct (read_n r <? 0); [destruct (read_errno r =? EINTR)|]; simpl;
      rewrite ?Hr; reflexivity.
Qed.

Lemma stream_pump_stdin_quiet fuel fd :
  emits not_peer_close (StreamPeer.pump_stdin P fuel fd).
Proof. eapply emits_weaken; [|apply stream_pump_stdin_keyboard_side]. by_event. Qed.

Lemma stream_iteration_closes fuel fd w :
  closes_last (session_tail KeystrokePeer fd) (fun f : flow => f = f_break)
    (StreamPeer.iteration P fuel fd w).
Proof.
  unfold StreamPeer.iteration. cbv zeta.
  apply closes_last_bind; [emits_auto|]. intros s w1.
  destruct (rv (ready s) <? 0).
  { apply closes_last_emits. emits_auto. }
  apply closes_last_bind.
  { destruct (FD_ISSET STDIN_FILENO (read_set s));
      [apply stream_pump_stdin_quiet | emits_auto]. }
  intros f w2. destruct f; try solve [apply closes_last_emits; emits_auto].
  destruct (FD_ISSET fd (read_set s)).
  - apply stream_pump_socket_closes.
  - apply closes_last_emits. emits_auto.
Qed.

Lemma stream_session_closes fuel fd w :
  closes_last (session_tail KeystrokePeer fd) (fun _ : unit => True) (StreamPeer.session P fuel fd w).
Proof.
  revert w; induction fuel as [|fuel IH]; intros w; simpl.
  { apply closes_last_emits. emits_auto. }
  apply closes_last_loop with (stop := fun f : flow => f = f_break).
  - apply stream_iteration_closes.
  - intros [| |] w1; solve [apply IH | apply closes_last_emits; emits_auto].
  - intros f w1 ->. now exists tt.
Qed.

Lemma stream_run_session_closes fuel fd w :
  closes_last (main_tail KeystrokePeer) (fun code => code = 0)
    (StreamPeer.run_session P fuel fd w).
Proof.
  unfold StreamPeer.run_session.
  apply closes_last_bind.
  { unfold StreamPeer.enable. emits_auto. }
  intros e w1. cbv zeta.
  destruct (negb (fst e)).
  { apply closes_last_emits. unfold StreamPeer.destroy. emits_auto. }
  apply closes_last_bind; [emits_auto|]. intros _ w2.
  eapply closes_last_then.
  - apply stream_session_closes.
  - intros. unfold StreamPeer.destroy. emits_auto.
  - intros [] w3 _. exists 0.
    unfold StreamPeer.destroy, bind, sys_close, StreamPeer.sys_tcsetattr, call, call_, ret,
      outcome_of, trace_of.
    destruct (StreamPeer.active (snd e)).
    + destruct (os_tcsetattr P STDIN_FILENO (StreamPeer.original (snd e)) (os_close P fd w3))
        as [s w4]. simpl. repeat split.
      intros t (r & Hr & ->). exists fd, r, [ev_tcsetattr STDIN_FILENO (StreamPeer.original (snd e)) (rv s)].
      repeat split. exact Hr.
    + simpl. repeat split.
      intros t (r & Hr & ->). exists fd, r, []. repeat split. exact Hr.
Qed.

Lemma stream_main_closes fuel argv w :
  closes_last (main_tail KeystrokePeer) (fun code => code = 0)
    (StreamPeer.main P fuel argv w).
Proof.
  unfold StreamPeer.main.
  destruct (TcpPeer.listen_form argv); [|destruct (TcpPeer.connect_form argv)].
  - destruct (Stoi.stoi (nth 2 argv [])) as [port|];
      [|apply closes_last_emits; emits_auto].
    apply closes_last_bind.
    { eapply emits_weaken; [|apply listen_and_accept_emits]. by_event. }
    intros fd w1. destruct (fd <? 0); [apply closes_last_emits; emits_auto|].
    apply stream_run_session_closes.
  - cbv zeta. destruct (Stoi.stoi (nth 3 argv [])) as [port|];
      [|apply closes_last_emits; emits_auto].
    apply closes_last_bind.
    { eapply emits_weaken; [|apply connect_to_peer_emits]. by_event. }
    intros fd w1. destruct (fd <? 0); [apply closes_last_emits; emits_auto|].
    apply stream_run_session_closes.
  - apply closes_last_emits. emits_auto.
Qed.

End StreamPeerClose.

Lemma run_main_closes (W : Type) (prog : program) (P : platform W) fuel argv w :
  closes_last (main_tail prog) (fun code => code = 0) (run_main prog P fuel argv w).
Proof.
  destruct prog; [apply tcp_main_closes | apply stream_main_closes].
Qed.

(** C7.  Termination on peer close: in every run of either program,
    once the channel has returned zero bytes the run only announces the
    disconnection and closes the connection (the keystroke peer then
    puts the terminal settings back); it sends nothing more, and the
    process ends with exit code 0. *)
Theorem peer_close_terminates_session
  (W : Type) (prog : program) (P : platform W) (fuel : nat) (argv : list cstring)
  (w w' : W) (o : outcome Z) (tr pre post : list event) (e : event) :
  run_main prog P fuel argv w = (o, w', tr) ->
  tr = pre ++ e :: post ->
  is_peer_close e = true ->
  o = Returned 0 /\
  existsb is_send post = false /\
  exists fd r restore,
    e = ev_recv fd 4096 r /\
    post = ev_cout (farewell prog) :: ev_close fd :: restore /\
    forallb is_tcsetattr restore = true.
Proof.
  intros Hrun -> He.
  pose proof (run_main_closes prog P fuel argv w) as Hshape.
  rewrite Hrun in Hshape. unfold closes_last, trace_of, outcome_of in Hshape. simpl in Hshape.
  destruct Hshape as [Hnone|[(code & -> & ->) (before & t & Ht & Heq & Hb)]].
  - rewrite forallb_app in Hnone. simpl in Hnone. unfold not_peer_close in Hnone at 2.
    rewrite He in Hnone. simpl in Hnone. rewrite andb_false_r in Hnone. discriminate.
  - destruct Ht as (fd & r & restore & Hr & -> & Hrestore).
    assert (Hrest : forallb not_peer_close
                      (ev_cout (farewell prog) :: ev_close fd :: restore) = true).
    { simpl. apply (forallb_existsb_disjoint _ is_peer_close) in Hrestore; [|by_event].
      clear -Hrestore. induction restore as [|x xs IH]; simpl in *; [reflexivity|].
      apply orb_false_elim in Hrestore as [Hx Hxs]. unfold not_peer_close at 1.
      now rewrite Hx, IH. }
    assert (Hy : is_peer_close (ev_recv fd 4096 r) = true)
      by (simpl; now apply Z.eqb_eq).
    destruct (peer_close_position _ _ _ _ _ _ Hb Hrest He Hy Heq) as (-> & -> & ->).
    split; [reflexivity|]. split.
    + simpl. apply (forallb_existsb_disjoint _ is_send) in Hrestore; [exact Hrestore | by_event].
    + now exists fd, r, restore.
Qed.

Lemma peer_close_terminates_session_witness :
  let P := Scenario.platform_of Scenario.peer_talks_then_closes in
  let argv := [lit "tcp_peer"; lit "--listen"; lit "3333"] in
  let e := ev_recv 4 4096 (read_bytes []) in
  let post := [ev_cout (farewell LinePeer); ev_close 4] in
  let tr := trace_of (run_main LinePeer P 10 argv O) in
  tr = firstn 16 tr ++ e :: post /\
  is_peer_close e = true /\
  outcome_of (run_main LinePeer P 10 argv O) = Returned 0 /\
  existsb is_send post = false /\
  exists fd r restore,
    e = ev_recv fd 4096 r /\
    post = ev_cout (farewell LinePeer) :: ev_close fd :: restore /\
    forallb is_tcsetattr restore = true.
Proof.
  split; [reflexivity|]. split; [reflexivity|].
  exact (@peer_close_terminates_session nat LinePeer
           (Scenario.platform_of Scenario.peer_talks_then_closes) 10
           [lit "tcp_peer"; lit "--listen"; lit "3333"] O _ _ _
           (firstn 16 (trace_of (run_main LinePeer
              (Scenario.platform_of Scenario.peer_talks_then_closes) 10
              [lit "tcp_peer"; lit "--listen"; lit "3333"] O)))
           [ev_cout (farewell LinePeer); ev_close 4]
           (ev_recv 4 4096 (read_bytes []))
           eq_refl eq_refl eq_refl).
Defined.

Example keystroke_peer_close_run :
  let run := run_main KeystrokePeer (Scenario.platform_of Scenario.peer_talks_then_closes) 10
               [lit "tcp_stream_peer"; lit "--listen"; lit "3333"] O in
  outcome_of run = Returned 0 /\
  skipn 18 (trace_of run)
  = [ev_recv 4 4096 (read_bytes []); ev_cout (farewell KeystrokePeer); ev_close 4;
     ev_tcsetattr 0 Scenario.cooked 0].
Proof. vm_compute. split; reflexivity. Qed.

(** ** The inbound buffer between framer invocations *)

Section BufferInvariant.

Variable W : Type.
Variable P : platform W.

Lemma returns_bind_with {A B} (m : M W A) (k : A -> M W B)
      (Q1 : A -> Prop) (Q : B -> Prop) :
  returns m Q1 -> (forall a, Q1 a -> returns (k a) Q) -> returns (bind m k) Q.
Proof.
  intros Hm Hk w b w' tr. unfold bind.
  destruct (m w) as [[[a| |] w1] t1] eqn:Hmw; try discriminate.
  destruct (k a w1) as [[r w2] t2] eqn:Hka. intros [= -> _ _].
  exact (Hk a (Hm _ _ _ _ Hmw) w1 b w2 t2 Hka).
Qed.

Lemma print_lines_returns buf : returns (@TcpPeer.print_lines W buf) nl_free.
Proof.
  intros w a w' tr. rewrite print_lines_extract. intros [= <- _ _].
  apply extract_messages_rest_clean.
Qed.

Lemma tcp_pump_socket_keeps_clean fd buf :
  nl_free buf ->
  returns (TcpPeer.pump_socket P fd buf) (fun r => nl_free (snd r)).
Proof.
  intros Hbuf. unfold TcpPeer.pump_socket.
  apply returns_bind. intros r. cbv zeta.
  destruct (read_n r =? 0); [apply returns_bind; intros; now apply returns_ret|].
  destruct (read_n r <? 0).
  - destruct (read_errno r =? EINTR); [now apply returns_ret|].
    apply returns_bind; intros; now apply returns_ret.
  - eapply returns_bind_with; [apply print_lines_returns|].
    intros b Hb. now apply returns_ret.
Qed.

Lemma tcp_iteration_keeps_clean fuel fd buf :
  nl_free buf ->
  returns (TcpPeer.iteration P fuel fd buf) (fun r => nl_free (snd r)).
Proof.
  intros Hbuf. unfold TcpPeer.iteration. cbv zeta.
  apply returns_bind. intros s.
  destruct (rv (ready s) <? 0).
  - destruct (err (ready s) =? EINTR); [now apply returns_ret|].
    apply returns_bind; intros; now apply returns_ret.
  - apply returns_bind. intros [| |]; try now apply returns_ret.
    destruct (FD_ISSET fd (read_set s)); [|now apply returns_ret].
    now apply tcp_pump_socket_keeps_clean.
Qed.

End BufferInvariant.

(** C3.  Inbound buffer invariant: whatever buffer the framer is given,
    the buffer it leaves holds no delimiter; and so does the inbound
    buffer in every reachable state of the receive path, that is at the
    start of the session and after every pass through the session loop. *)
Theorem inbound_buffer_invariant :
  (forall buf : cstring, Str.find (snd (extract_messages buf)) NL = None) /\
  (forall (W : Type) (P : platform W) (socket_fd : Z) (buf : cstring),
      buffer_at_rest P socket_fd buf -> Str.find buf NL = None).
Proof.
  split.
  - apply extract_messages_rest_clean.
  - intros W P fd buf Hreach. induction Hreach as [|fuel buf w f buf' w' tr _ IH Hrun].
    + reflexivity.
    + exact (tcp_iteration_keeps_clean P fuel fd IH w Hrun).
Qed.

Lemma inbound_buffer_invariant_witness :
  let P := Scenario.platform_of Scenario.peer_talks_then_closes in
  buffer_at_rest P 4 (lit "po") /\ Str.find (lit "po") NL = None.
Proof.
  assert (H : buffer_at_rest (Scenario.platform_of Scenario.peer_talks_then_closes) 4
                (lit "po")).
  { apply after_iteration
      with (fuel := 5%nat) (buf := lit "pi") (w := 1%nat) (f := f_next) (w' := 2%nat)
           (tr := [ev_select 5 [0; 4] (Scenario.ok 1);
                   ev_recv 4 4096 (read_bytes (lit "ng" ++ NL :: NL :: lit "po"));
                   printed (lit "ping"); printed []]).
    - apply after_iteration
        with (fuel := 5%nat) (buf := []) (w := O) (f := f_next) (w' := 1%nat)
             (tr := [ev_select 5 [0; 4] (Scenario.ok 1);
                     ev_recv 4 4096 (read_bytes (lit "pi"))]).
      + apply at_session_start.
      + reflexivity.
    - reflexivity. }
  split; [exact H|].
  exact (proj2 inbound_buffer_invariant nat
           (Scenario.platform_of Scenario.peer_talks_then_closes) 4 (lit "po") H).
Defined.

(** ** Must-fully-send *)

Lemma calls_needed_0 k : 0 < k -> calls_needed k 0 = 0.
Proof. intros Hk. unfold calls_needed. apply Z.div_small. lia. Qed.

Lemma calls_needed_step k n :
  0 < k -> 0 < n -> calls_needed k n = 1 + calls_needed k (n - Z.min k n).
Proof.
  intros Hk Hn. unfold calls_needed.
  destruct (Z.le_gt_cases n k) as [Hle|Hgt].
  - rewrite Z.min_r by lia. replace (n - n + k - 1) with (k - 1) by lia.
    rewrite (Z.div_small (k - 1)) by lia.
    replace (n + k - 1) with ((n - 1) + 1 * k) by lia.
    rewrite Z.div_add by lia. rewrite Z.div_small by lia. reflexivity.
  - rewrite Z.min_l by lia.
    replace (n + k - 1) with ((n - k + k - 1) + 1 * k) by lia.
    rewrite Z.div_add by lia. lia.
Qed.

Lemma calls_needed_nonneg k n : 0 < k -> 0 <= n -> 0 <= calls_needed k n.
Proof. intros Hk Hn. unfold calls_needed. apply Z.div_pos; lia. Qed.

Section MustFullySend.

Variable W : Type.
Variable P : platform W.
Variable socket_fd : Z.
Variable k : Z.
Hypothesis k_positive : 0 < k.

(** The send primitive takes at most [k] bytes per call, and never
    fails or is interrupted. *)
Hypothesis capped :
  forall data w, data <> [] ->
    rv (fst (os_send P socket_fd data w)) = Z.min k (Z.of_nat (length data)).

Lemma send_loop_capped (text : cstring) (fuel : nat) :
  Z.of_nat (length text) <= SIZE_MAX ->
  forall (data left : Z) (w : W),
    0 <= data -> 0 <= left -> data + left = Z.of_nat (length text) ->
    calls_needed k left < Z.of_nat fuel ->
    exists w' tr,
      send_loop P fuel socket_fd text data left w = (Returned true, w', tr) /\
      forallb is_send tr = true /\
      Z.of_nat (length tr) = calls_needed k left /\
      transmitted tr = skipn (Z.to_nat data) text.
Proof.
  intros Hmax. induction fuel as [|fuel IH]; intros data left w Hd Hl Hsum Hfuel.
  { pose proof (calls_needed_nonneg k_positive Hl). lia. }
  simpl. destruct (left >? 0) eqn:Hpos.
  - apply Z.gtb_lt in Hpos.
    set (chunk := Str.substr text (Z.to_nat data) (Z.to_nat left)).
    assert (Hchunk : chunk = skipn (Z.to_nat data) text).
    { unfold chunk, Str.substr. apply firstn_all2. rewrite length_skipn. lia. }
    assert (Hlen : Z.of_nat (length chunk) = left).
    { rewrite Hchunk, length_skipn. lia. }
    assert (Hne : chunk <> []).
    { intros Heq. rewrite Heq in Hlen. simpl in Hlen. lia. }
    pose proof (capped w Hne) as Hrv. rewrite Hlen in Hrv.
    unfold bind at 1, sys_send, call. fold chunk.
    destruct (os_send P socket_fd chunk w) as [r w1]. simpl in Hrv.
    set (n := Z.min k left) in *.
    assert (Hn : 0 < n <= left) by (unfold n; lia).
    rewrite Hrv.
    destruct (n <? 0) eqn:Hneg; [apply Z.ltb_lt in Hneg; lia|].
    destruct (n =? 0) eqn:Hzero; [apply Z.eqb_eq in Hzero; lia|].
    assert (Hwrap : to_size_t (left - n) = left - n).
    { unfold to_size_t. apply Z.mod_small. unfold SIZE_MAX in Hmax. lia. }
    rewrite Hwrap.
    destruct (IH (data + n) (left - n) w1) as (w' & tr & Hrun & Hsend & Hcount & Htx);
      try lia.
    { rewrite (calls_needed_step k_positive Hpos) in Hfuel. fold n in Hfuel. lia. }
    rewrite Hrun. exists w', (ev_send socket_fd chunk r :: tr).
    split; [reflexivity|]. split; [simpl; exact Hsend|]. split.
    + rewrite (calls_needed_step k_positive Hpos). fold n. simpl length. lia.
    + unfold transmitted in *. simpl. rewrite Htx, Hrv.
      destruct (n >? 0) eqn:Hgt; [|rewrite Z.gtb_ltb in Hgt; apply Z.ltb_ge in Hgt; lia].
      rewrite Hchunk. rewrite Z2Nat.inj_add by lia.
      rewrite Nat.add_comm, <- skipn_skipn. apply firstn_skipn.
  - assert (left = 0) by (rewrite Z.gtb_ltb in Hpos; apply Z.ltb_ge in Hpos; lia).
    subst left. exists w, []. split; [reflexivity|]. split; [reflexivity|].
    split; [now rewrite calls_needed_0|].
    unfold transmitted. simpl. symmetry. apply skipn_all2. lia.
Qed.

End MustFullySend.

Lemma transmitted_cons (e : event) (tr : list event) :
  transmitted (e :: tr) = sent_bytes e ++ transmitted tr.
Proof. reflexivity. Qed.

Section SendResult.

Variable W : Type.
Variable P : platform W.
Variable socket_fd : Z.

(** The primitive never reports more bytes than it was given. *)
Hypothesis within_request :
  forall data w, rv (fst (os_send P socket_fd data w)) <= Z.of_nat (length data).

(** Whenever the loop returns, it reports success exactly when
    everything from [data] on has been transmitted. *)
Lemma send_loop_success_iff (text : cstring) (fuel : nat) :
  Z.of_nat (length text) <= SIZE_MAX ->
  forall (data left : Z) (w w' : W) (b : bool) (tr : list event),
    0 <= data -> 0 <= left -> data + left = Z.of_nat (length text) ->
    send_loop P fuel socket_fd text data left w = (Returned b, w', tr) ->
    (b = true <-> transmitted tr = skipn (Z.to_nat data) text).
Proof.
  intros Hmax. induction fuel as [|fuel IH]; intros data left w w' b tr Hd Hl Hsum;
    simpl; [discriminate|].
  destruct (left >? 0) eqn:Hpos.
  - rewrite Z.gtb_ltb in Hpos. apply Z.ltb_lt in Hpos.
    set (chunk := Str.substr text (Z.to_nat data) (Z.to_nat left)).
    assert (Hchunk : chunk = skipn (Z.to_nat data) text).
    { unfold chunk, Str.substr. apply firstn_all2. rewrite length_skipn. lia. }
    assert (Hlen : Z.of_nat (length chunk) = left).
    { rewrite Hchunk, length_skipn. lia. }
    assert (Hne : skipn (Z.to_nat data) text <> []).
    { rewrite <- Hchunk. intros Heq. rewrite Heq in Hlen. simpl in Hlen. lia. }
    pose proof (within_request chunk w) as Hle. rewrite Hlen in Hle.
    unfold bind at 1, sys_send, call.
    destruct (os_send P socket_fd chunk w) as [r w1]. simpl in Hle.
    destruct (rv r <? 0) eqn:Hneg.
    + apply Z.ltb_lt in Hneg.
      assert (Hnone : sent_bytes (ev_send socket_fd chunk r) = []).
      { simpl. destruct (rv r >? 0) eqn:Hgt; [|reflexivity].
        rewrite Z.gtb_ltb in Hgt. apply Z.ltb_lt in Hgt. lia. }
      destruct (err r =? EINTR).
      * destruct (send_loop P fuel socket_fd text data left w1) as [[o w2] t2] eqn:Hrun.
        intros [= -> <- <-]. rewrite transmitted_cons, Hnone. simpl.
        exact (IH _ _ _ _ _ _ Hd Hl Hsum Hrun).
      * unfold bind, cerr, emit, ret. intros [= <- <- <-].
        rewrite transmitted_cons, Hnone. simpl.
        split; [discriminate | intros Heq; now symmetry in Heq].
    + apply Z.ltb_ge in Hneg. destruct (rv r =? 0) eqn:Hzero.
      * apply Z.eqb_eq in Hzero. unfold ret. intros [= <- <- <-].
        unfold transmitted. simpl. rewrite Hzero. simpl.
        split; [discriminate | intros Heq; now symmetry in Heq].
      * apply Z.eqb_neq in Hzero.
        assert (Hwrap : to_size_t (left - rv r) = left - rv r).
        { unfold to_size_t. apply Z.mod_small. unfold SIZE_MAX in Hmax. lia. }
        rewrite Hwrap.
        destruct (send_loop P fuel socket_fd text (data + rv r) (left - rv r) w1)
          as [[o w2] t2] eqn:Hrun.
        intros [= -> <- <-].
        assert (HIH : b = true <-> transmitted t2 = skipn (Z.to_nat (data + rv r)) text)
          by (apply (IH (data + rv r) (left - rv r) w1 w2 b t2); [lia | lia | lia | exact Hrun]).
        rewrite transmitted_cons.
        assert (Hsent : sent_bytes (ev_send socket_fd chunk r)
                        = firstn (Z.to_nat (rv r)) (skipn (Z.to_nat data) text)).
        { simpl. destruct (rv r >? 0) eqn:Hgt.
          - now rewrite Hchunk.
          - rewrite Z.gtb_ltb in Hgt. apply Z.ltb_ge in Hgt. lia. }
        rewrite Hsent, HIH. rewrite Z2Nat.inj_add by lia.
        rewrite (Nat.add_comm (Z.to_nat data)), <- skipn_skipn.
        rewrite <- (firstn_skipn (Z.to_nat (rv r)) (skipn (Z.to_nat data) text)) at 3.
        split; [intros ->; reflexivity | apply app_inv_head].
  - assert (left = 0) by (rewrite Z.gtb_ltb in Hpos; apply Z.ltb_ge in Hpos; lia).
    subst left. unfold ret. intros [= <- <- <-]. unfold transmitted. simpl.
    split; [|reflexivity]. intros _. symmetry. apply skipn_all2. lia.
Qed.

Lemma send_all_bytes_success_iff (text : cstring) (fuel : nat) w w' b tr :
  Z.of_nat (length text) <= SIZE_MAX ->
  send_all_bytes P fuel socket_fd text w = (Returned b, w', tr) ->
  (b = true <-> transmitted tr = text).
Proof.
  intros Hmax Hrun.
  unfold send_all_bytes in Hrun.
  eapply (@send_loop_success_iff text fuel Hmax 0) in Hrun; [exact Hrun | lia..].
Qed.

End SendResult.

Lemma calls_needed_mono k a b : 0 < k -> a <= b -> calls_needed k a <= calls_needed k b.
Proof. intros Hk Hab. unfold calls_needed. apply Z.div_le_mono; lia. Qed.

Section SendBounded.

Variable W : Type.
Variable P : platform W.
Variable socket_fd : Z.
Variable k : Z.
Hypothesis k_positive : 0 < k.

(** The send primitive takes some bytes, at most [k], on every call,
    and never fails or is interrupted. *)
Hypothesis bounded :
  forall data w, data <> [] ->
    1 <= rv (fst (os_send P socket_fd data w)) <= Z.min k (Z.of_nat (length data)).

Lemma send_loop_bounded (text : cstring) (fuel : nat) :
  Z.of_nat (length text) <= SIZE_MAX ->
  forall (data left : Z) (w : W),
    0 <= data -> 0 <= left -> data + left = Z.of_nat (length text) ->
    left < Z.of_nat fuel ->
    exists w' tr,
      send_loop P fuel socket_fd text data left w = (Returned true, w', tr) /\
      forallb is_send tr = true /\
      calls_needed k left <= Z.of_nat (length tr) <= left /\
      transmitted tr = skipn (Z.to_nat data) text.
Proof.
  intros Hmax. induction fuel as [|fuel IH]; intros data left w Hd Hl Hsum Hfuel.
  { simpl in Hfuel. lia. }
  simpl. destruct (left >? 0) eqn:Hpos.
  - apply Z.gtb_lt in Hpos.
    set (chunk := Str.substr text (Z.to_nat data) (Z.to_nat left)).
    assert (Hchunk : chunk = skipn (Z.to_nat data) text).
    { unfold chunk, Str.substr. apply firstn_all2. rewrite length_skipn. lia. }
    assert (Hlen : Z.of_nat (length chunk) = left).
    { rewrite Hchunk, length_skipn. lia. }
    assert (Hne : chunk <> []).
    { intros Heq. rewrite Heq in Hlen. simpl in Hlen. lia. }
    pose proof (bounded w Hne) as Hrv. rewrite Hlen in Hrv.
    unfold bind at 1, sys_send, call. fold chunk.
    destruct (os_send P socket_fd chunk w) as [r w1]. simpl in Hrv.
    set (n := rv r) in *.
    destruct (n <? 0) eqn:Hneg; [apply Z.ltb_lt in Hneg; lia|].
    destruct (n =? 0) eqn:Hzero; [apply Z.eqb_eq in Hzero; lia|].
    assert (Hwrap : to_size_t (left - n) = left - n).
    { unfold to_size_t. apply Z.mod_small. unfold SIZE_MAX in Hmax. lia. }
    rewrite Hwrap.
    destruct (IH (data + n) (left - n) w1) as (w' & tr & Hrun & Hsend & Hcount & Htx);
      try lia.
    rewrite Hrun. exists w', (ev_send socket_fd chunk r :: tr).
    split; [reflexivity|]. split; [simpl; exact Hsend|]. split.
    + rewrite (calls_needed_step k_positive Hpos). simpl length.
      pose proof (@calls_needed_mono k (left - Z.min k left) (left - n) k_positive).
      lia.
    + unfold transmitted in *. simpl. rewrite Htx. fold n.
      destruct (n >? 0) eqn:Hgt; [|rewrite Z.gtb_ltb in Hgt; apply Z.ltb_ge in Hgt; lia].
      rewrite Hchunk. rewrite Z2Nat.inj_add by lia.
      rewrite Nat.add_comm, <- skipn_skipn. apply firstn_skipn.
  - assert (left = 0) by (rewrite Z.gtb_ltb in Hpos; apply Z.ltb_ge in Hpos; lia).
    subst left. exists w, []. split; [reflexivity|]. split; [reflexivity|].
    split; [rewrite calls_needed_0 by exact k_positive; simpl; lia|].
    unfold transmitted. simpl. symmetry. apply skipn_all2. lia.
Qed.

End SendBounded.

Section SendWindow.

Variable W : Type.
Variable P : platform W.
Variable socket_fd : Z.

(** The primitive never reports more bytes than it was given. *)
Hypothesis within_request :
  forall data w, data <> [] ->
    rv (fst (os_send P socket_fd data w)) <= Z.of_nat (length data).

(** The loop reads the [left] bytes from [data] on and nothing behind
    them: what follows the message in the buffer plays no part. *)
Lemma send_loop_window (text tail : cstring) (fuel : nat) :
  Z.of_nat (length text) <= SIZE_MAX ->
  forall (data left : Z) (w : W),
    0 <= data -> 0 <= left -> data + left = Z.of_nat (length text) ->
    send_loop P fuel socket_fd (text ++ tail) data left w
    = send_loop P fuel socket_fd text data left w.
Proof.
  intros Hmax. induction fuel as [|fuel IH]; intros data left w Hd Hl Hsum;
    simpl; [reflexivity|].
  destruct (left >? 0) eqn:Hpos; [|reflexivity].
  apply Z.gtb_lt in Hpos.
  assert (Hsub : Str.substr (text ++ tail) (Z.to_nat data) (Z.to_nat left)
                 = Str.substr text (Z.to_nat data) (Z.to_nat left)).
  { unfold Str.substr. rewrite skipn_app, firstn_app, length_skipn.
    replace (Z.to_nat left - (length text - Z.to_nat data))%nat with 0%nat by lia.
    simpl. now rewrite app_nil_r. }
  rewrite Hsub.
  set (chunk := Str.substr text (Z.to_nat data) (Z.to_nat left)).
  assert (Hlen : Z.of_nat (length chunk) = left).
  { unfold chunk, Str.substr. rewrite firstn_all2 by (rewrite length_skipn; lia).
    rewrite length_skipn. lia. }
  assert (Hne : chunk <> []).
  { intros Heq. rewrite Heq in Hlen. simpl in Hlen. lia. }
  pose proof (within_request w Hne) as Hle. rewrite Hlen in Hle.
  unfold bind at 1 3, sys_send, call.
  destruct (os_send P socket_fd chunk w) as [r w1]. simpl in Hle.
  destruct (rv r <? 0) eqn:Hneg.
  - destruct (err r =? EINTR); [|reflexivity]. now rewrite IH.
  - apply Z.ltb_ge in Hneg. destruct (rv r =? 0); [reflexivity|].
    assert (Hwrap : to_size_t (left - rv r) = left - rv r).
    { unfold to_size_t. apply Z.mod_small. unfold SIZE_MAX in Hmax. lia. }
    rewrite Hwrap. rewrite IH by lia. reflexivity.
Qed.

(** part_000's copy, given a buffer and the length of the message at
    its head, runs as tcp_peer.cpp's copy given the message. *)
Lemma send_all_bytes_raw_window (text tail : cstring) (fuel : nat) (w : W) :
  Z.of_nat (length text) <= SIZE_MAX ->
  send_all_bytes_raw P fuel socket_fd (text ++ tail) (Z.of_nat (length text)) w
  = send_all_bytes P fuel socket_fd text w.
Proof.
  intros Hmax. unfold send_all_bytes_raw, send_all_bytes.
  apply send_loop_window; lia.
Qed.

End SendWindow.

(** The amended C4.  Must-fully-send, of both copies of
    [send_all_bytes]: tcp_peer.cpp's, given the message as a string,
    and part_000's, given a buffer that begins with the message and the
    length [N] of the message.  Let the message have [N > 0] bytes and
    let the send primitive, without interruption or error, take on
    every call at least one byte and at most [k] of the bytes offered,
    [0 < k < N].  Then both copies return success after calls of the
    primitive only, the bytes transmitted are the message in order, and
    the number of calls lies between [ceil(N/k)] and [N]; it is exactly
    [ceil(N/k)] when the primitive takes [k] bytes whenever that many
    are offered.  And of any primitive that stays within the request:
    whenever either copy returns, it returns success exactly when the
    bytes transmitted are the whole message. *)
Theorem must_fully_send
  (W : Type) (P : platform W) (socket_fd : Z) (k : Z) (text tail : cstring)
  (fuel : nat) (w : W) :
  let N := Z.of_nat (length text) in
  let by_string := send_all_bytes P fuel socket_fd text w in
  let by_pointer := send_all_bytes_raw P fuel socket_fd (text ++ tail) N w in
  0 < k < N ->
  Z.of_nat (length (text ++ tail)) <= SIZE_MAX ->
  (forall chunk w0, chunk <> [] ->
     1 <= rv (fst (os_send P socket_fd chunk w0)) <= Z.min k (Z.of_nat (length chunk))) ->
  N < Z.of_nat fuel ->
  fully_sends k text by_string /\
  fully_sends k text by_pointer /\
  ((forall chunk w0, chunk <> [] ->
      rv (fst (os_send P socket_fd chunk w0)) = Z.min k (Z.of_nat (length chunk))) ->
   Z.of_nat (length (snd by_string)) = calls_needed k N /\
   Z.of_nat (length (snd by_pointer)) = calls_needed k N) /\
  (forall (Q : platform W) (fuel' : nat) (w0 w' : W) (b : bool) (tr : list event),
     (forall chunk w1, rv (fst (os_send Q socket_fd chunk w1)) <= Z.of_nat (length chunk)) ->
     send_all_bytes Q fuel' socket_fd text w0 = (Returned b, w', tr) \/
     send_all_bytes_raw Q fuel' socket_fd (text ++ tail) N w0 = (Returned b, w', tr) ->
     (b = true <-> transmitted tr = text)).
Proof.
  intros N by_string by_pointer Hk Hmax Hbound Hfuel.
  assert (HmaxN : N <= SIZE_MAX).
  { rewrite length_app, Nat2Z.inj_add in Hmax. unfold N. lia. }
  assert (Hwithin : forall chunk w0, chunk <> [] ->
            rv (fst (os_send P socket_fd chunk w0)) <= Z.of_nat (length chunk)).
  { intros chunk w0 Hne. pose proof (Hbound chunk w0 Hne). lia. }
  assert (Hsame : by_pointer = by_string).
  { unfold by_pointer, by_string, N. now apply send_all_bytes_raw_window. }
  assert (Hstring : fully_sends k text by_string).
  { unfold by_string, send_all_bytes.
    destruct (@send_loop_bounded W P socket_fd k (proj1 Hk) Hbound text fuel HmaxN
                0 N w) as (w' & tr & Hrun & Hsend & Hcount & Htx); try lia.
    fold N. rewrite Hrun. unfold fully_sends. simpl. fold N. auto. }
  split; [exact Hstring|]. split; [rewrite Hsame; exact Hstring|]. split.
  - intros Hexact. rewrite Hsame.
    destruct (@send_loop_capped W P socket_fd k (proj1 Hk) Hexact text fuel HmaxN
                0 N w) as (w' & tr & Hrun & _ & Hcount & _); try lia.
    { pose proof (@calls_needed_mono k N (N * k) (proj1 Hk)).
      assert (calls_needed k N <= N).
      { destruct Hstring as (_ & _ & _ & Hc). fold N in Hc. lia. }
      lia. }
    unfold by_string, send_all_bytes. fold N. rewrite Hrun. simpl. auto.
  - intros Q fuel' w0 w' b tr HQ Hrun.
    assert (Hrun' : send_all_bytes Q fuel' socket_fd text w0 = (Returned b, w', tr)).
    { destruct Hrun as [Hrun|Hrun]; [exact Hrun|].
      unfold N in Hrun. rewrite send_all_bytes_raw_window in Hrun; auto. }
    exact (@send_all_bytes_success_iff W Q socket_fd HQ text fuel' w0 w' b tr HmaxN Hrun').
Qed.

Lemma must_fully_send_witness :
  let P := Scenario.platform_of Scenario.slow_send in
  let text := lit "hello, peer" ++ [NL] in
  let tail := lit "not sent" in
  let N := Z.of_nat (length text) in
  let by_string := send_all_bytes P 13 4 text O in
  let by_pointer := send_all_bytes_raw P 13 4 (text ++ tail) N O in
  (N = 12 /\ calls_needed 3 N = 4) /\
  fully_sends 3 text by_string /\
  fully_sends 3 text by_pointer /\
  ((forall chunk w0, chunk <> [] ->
      rv (fst (os_send P 4 chunk w0)) = Z.min 3 (Z.of_nat (length chunk))) ->
   Z.of_nat (length (snd by_string)) = calls_needed 3 N /\
   Z.of_nat (length (snd by_pointer)) = calls_needed 3 N) /\
  (forall (Q : platform nat) (fuel' : nat) (w0 w' : nat) (b : bool) (tr : list event),
     (forall chunk w1, rv (fst (os_send Q 4 chunk w1)) <= Z.of_nat (length chunk)) ->
     send_all_bytes Q fuel' 4 text w0 = (Returned b, w', tr) \/
     send_all_bytes_raw Q fuel' 4 (text ++ tail) N w0 = (Returned b, w', tr) ->
     (b = true <-> transmitted tr = text)).
Proof.
  split; [split; reflexivity|].
  apply (@must_fully_send nat (Scenario.platform_of Scenario.slow_send) 4 3
           (lit "hello, peer" ++ [NL]) (lit "not sent") 13 O).
  - split; vm_compute; reflexivity.
  - vm_compute. discriminate.
  - intros chunk w0 Hne. simpl. destruct chunk as [|c chunk]; [contradiction|].
    simpl length. lia.
  - vm_compute. reflexivity.
Defined.

(** C4 as the specification words it does not hold: this primitive
    takes one byte per call, which is at most [k = 3] bytes per call,
    without interruption or error; the 12 bytes of the message are all
    transmitted, in 12 calls, not in [ceil(12/3) = 4]. *)
Lemma one_byte_per_call_takes_N_calls :
  let P := Scenario.platform_of Scenario.one_byte_send in
  let text := lit "hello, peer" ++ [NL] in
  let run := send_all_bytes P 13 4 text O in
  (forall chunk w0, 0 <= rv (fst (os_send P 4 chunk w0)) <= 3) /\
  (forall chunk w0, chunk <> [] -> 0 < rv (fst (os_send P 4 chunk w0))) /\
  fst (fst run) = Returned true /\
  transmitted (snd run) = text /\
  forallb is_send (snd run) = true /\
  Z.of_nat (length (snd run)) = 12 /\
  calls_needed 3 (Z.of_nat (length text)) = 4.
Proof.
  split; [intros chunk w0; simpl; lia|].
  split; [intros [|c chunk] w0 Hne; [contradiction|simpl length; simpl; lia]|].
  repeat split; reflexivity.
Qed.


(** * Further properties of the code *)

(** ** The framer: what a message is *)

Lemma count_nl_app (a b : cstring) : count_nl (a ++ b) = (count_nl a + count_nl b)%nat.
Proof. apply count_occ_app. Qed.

Lemma count_nl_clean (a : cstring) : nl_free a -> count_nl a = 0%nat.
Proof.
  intros Ha. apply find_none_iff in Ha. now apply count_occ_not_In.
Qed.

(** X1.  The framer yields one message per delimiter in its input, no
    more and no less, and no message holds a delimiter. *)
Theorem one_message_per_delimiter (buf : cstring) :
  length (fst (extract_messages buf)) = count_nl buf /\
  Forall nl_free (fst (extract_messages buf)).
Proof.
  split; [|apply extract_messages_lines_clean].
  apply (extract_messages_ind (fun buf ms _ => length ms = count_nl buf)).
  - intros b Hb. now rewrite count_nl_clean.
  - intros a b Ha IH. rewrite count_nl_app, (count_nl_clean Ha). simpl.
    unfold count_nl in *. simpl. destruct (ascii_dec NL NL); [|congruence]. now rewrite IH.
Qed.

(** ** [send_all_bytes]: what goes on the wire *)

Lemma cons_split (e x : event) (t pre post : list event) :
  e :: t = pre ++ x :: post ->
  (pre = [] /\ e = x /\ t = post) \/
  (exists pre', pre = e :: pre' /\ t = pre' ++ x :: post).
Proof.
  destruct pre as [|e' pre']; simpl; intros [= -> ->]; [left | right]; eauto.
Qed.

Section SendInvariant.

Variable W : Type.
Variable P : platform W.
Variable socket_fd : Z.

Hypothesis within_request :
  forall data w, rv (fst (os_send P socket_fd data w)) <= Z.of_nat (length data).

Lemma send_loop_offers_rest (text : cstring) (fuel : nat) :
  Z.of_nat (length text) <= SIZE_MAX ->
  forall (data left : Z) (w w' : W) (o : outcome bool) (tr : list event),
    0 <= data -> 0 <= left -> data + left = Z.of_nat (length text) ->
    send_loop P fuel socket_fd text data left w = (o, w', tr) ->
    forall pre f d r post,
      tr = pre ++ ev_send f d r :: post ->
      f = socket_fd /\ transmitted pre ++ d = skipn (Z.to_nat data) text.
Proof.
  intros Hmax. induction fuel as [|fuel IH]; intros data left w w' o tr Hd Hl Hsum; simpl.
  { intros [= _ _ <-] pre f d r post Heq. now destruct pre. }
  destruct (left >? 0) eqn:Hpos.
  2:{ intros [= _ _ <-] pre f d r post Heq. now destruct pre. }
  rewrite Z.gtb_ltb in Hpos. apply Z.ltb_lt in Hpos.
  set (chunk := Str.substr text (Z.to_nat data) (Z.to_nat left)).
  assert (Hchunk : chunk = skipn (Z.to_nat data) text).
  { unfold chunk, Str.substr. apply firstn_all2. rewrite length_skipn. lia. }
  assert (Hlen : Z.of_nat (length chunk) = left).
  { rewrite Hchunk, length_skipn. lia. }
  pose proof (within_request chunk w) as Hle. rewrite Hlen in Hle.
  unfold bind at 1, sys_send, call.
  destruct (os_send P socket_fd chunk w) as [r0 w1]. simpl in Hle.
  assert (Hfirst : forall t2 pre f d r post,
             (forall pre' f' d' r' post',
                 t2 = pre' ++ ev_send f' d' r' :: post' ->
                 f' = socket_fd /\
                 sent_bytes (ev_send socket_fd chunk r0) ++ transmitted pre' ++ d' = chunk) ->
             ev_send socket_fd chunk r0 :: t2 = pre ++ ev_send f d r :: post ->
             f = socket_fd /\ transmitted pre ++ d = skipn (Z.to_nat data) text).
  { intros t2 pre f d r post Hrest Heq.
    apply cons_split in Heq as [(-> & [= <- <- <-] & _)|(pre' & -> & Heq)].
    - now rewrite <- Hchunk.
    - destruct (Hrest _ _ _ _ _ Heq) as [-> Htx]. split; [reflexivity|].
      rewrite transmitted_cons, <- app_assoc, <- Hchunk. exact Htx. }
  destruct (rv r0 <? 0) eqn:Hneg.
  - apply Z.ltb_lt in Hneg.
    assert (Hnone : sent_bytes (ev_send socket_fd chunk r0) = []).
    { simpl. destruct (rv r0 >? 0) eqn:Hgt; [|reflexivity].
      rewrite Z.gtb_ltb in Hgt. apply Z.ltb_lt in Hgt. lia. }
    destruct (err r0 =? EINTR).
    + destruct (send_loop P fuel socket_fd text data left w1) as [[o2 w2] t2] eqn:Hrun.
      intros [= _ _ <-] pre f d r post Heq. refine (Hfirst t2 pre f d r post _ Heq).
      intros pre' f' d' r' post' Heq'. rewrite Hnone, Hchunk. simpl.
      exact (IH _ _ _ _ _ _ Hd Hl Hsum Hrun _ _ _ _ _ Heq').
    + unfold bind, cerr, emit, ret. intros [= _ _ <-] pre f d r post Heq.
      refine (Hfirst _ pre f d r post _ Heq).
      intros pre' f' d' r' post' Heq'. simpl in Heq'.
      destruct pre' as [|? [|? ?]]; discriminate.
  - apply Z.ltb_ge in Hneg. destruct (rv r0 =? 0) eqn:Hzero.
    + unfold ret. intros [= _ _ <-] pre f d r post Heq.
      refine (Hfirst _ pre f d r post _ Heq).
      intros pre' f' d' r' post' Heq'. now destruct pre'.
    + apply Z.eqb_neq in Hzero.
      assert (Hwrap : to_size_t (left - rv r0) = left - rv r0).
      { unfold to_size_t. apply Z.mod_small. unfold SIZE_MAX in Hmax. lia. }
      rewrite Hwrap.
      destruct (send_loop P fuel socket_fd text (data + rv r0) (left - rv r0) w1)
        as [[o2 w2] t2] eqn:Hrun.
      intros [= _ _ <-] pre f d r post Heq. refine (Hfirst t2 pre f d r post _ Heq).
      intros pre' f' d' r' post' Heq'.
      destruct (IH (data + rv r0) (left - rv r0) w1 w2 o2 t2 ltac:(lia) ltac:(lia)
                   ltac:(lia) Hrun _ _ _ _ _ Heq') as [-> Htx].
      split; [reflexivity|]. rewrite Htx. simpl.
      destruct (rv r0 >? 0) eqn:Hgt;
        [|rewrite Z.gtb_ltb in Hgt; apply Z.ltb_ge in Hgt; lia].
      rewrite Hchunk, Z2Nat.inj_add by lia.
      rewrite (Nat.add_comm (Z.to_nat data)), <- skipn_skipn. apply firstn_skipn.
Qed.

End SendInvariant.

(** X2.  [send_all_bytes] never loses its place: in every run, however
    it ends, each call of the send primitive is made on the socket
    given and is offered exactly the bytes of the message that the
    calls before it have not transmitted; so nothing is sent twice,
    skipped or sent out of order, also when calls were interrupted. *)
Theorem send_offers_untransmitted_rest
  (W : Type) (P : platform W) (socket_fd : Z) (text : cstring) (fuel : nat)
  (w w' : W) (o : outcome bool) (tr pre post : list event) (f : Z) (d : cstring)
  (r : sysret) :
  (forall data w0, rv (fst (os_send P socket_fd data w0)) <= Z.of_nat (length data)) ->
  Z.of_nat (length text) <= SIZE_MAX ->
  send_all_bytes P fuel socket_fd text w = (o, w', tr) ->
  tr = pre ++ ev_send f d r :: post ->
  f = socket_fd /\ transmitted pre ++ d = text.
Proof.
  intros Hreq Hmax Hrun Heq. unfold send_all_bytes in Hrun.
  eapply (@send_loop_offers_rest W P socket_fd Hreq text fuel Hmax 0) in Hrun;
    [exact Hrun | lia | lia | lia | exact Heq].
Qed.

Lemma peer_goes_away_within_request (data : cstring) (w0 : nat) :
  rv (fst (os_send (Scenario.platform_of MoreScenarios.peer_goes_away) 4 data w0))
  <= Z.of_nat (length data).
Proof.
  simpl. destruct (5 <? Z.of_nat (length data)) eqn:H; simpl; [|lia].
  apply Z.ltb_lt in H. lia.
Qed.

Lemma send_offers_untransmitted_rest_witness :
  let P := Scenario.platform_of MoreScenarios.peer_goes_away in
  let text := lit "hello, peer" ++ [NL] in
  let first := ev_send 4 text (Scenario.ok 4) in
  let last := ev_send 4 (lit "eer" ++ [NL]) (Scenario.ok 0) in
  send_all_bytes P 5 4 text O
    = (Returned false, O, [first] ++ ev_send 4 (lit "o, peer" ++ [NL]) (Scenario.ok 4) :: [last]) /\
  4 = 4 /\ transmitted [first] ++ (lit "o, peer" ++ [NL]) = text.
Proof.
  split; [reflexivity|].
  exact (@send_offers_untransmitted_rest nat
           (Scenario.platform_of MoreScenarios.peer_goes_away) 4
           (lit "hello, peer" ++ [NL]) 5 O O (Returned false) _
           [ev_send 4 (lit "hello, peer" ++ [NL]) (Scenario.ok 4)]
           [ev_send 4 (lit "eer" ++ [NL]) (Scenario.ok 0)]
           4 (lit "o, peer" ++ [NL]) (Scenario.ok 4)
           peer_goes_away_within_request ltac:(vm_compute; discriminate)
           eq_refl eq_refl).
Defined.

(** X3.  [send_all_bytes] reports success exactly when every byte of
    the message has been transmitted: whenever it returns, on a
    platform whose [send] stays within the request, the result is
    [true] if and only if the bytes the calls have taken, put end to
    end, are the message. *)
Theorem success_means_all_bytes_sent
  (W : Type) (P : platform W) (socket_fd : Z) (text : cstring) (fuel : nat)
  (w w' : W) (b : bool) (tr : list event) :
  (forall data w0, rv (fst (os_send P socket_fd data w0)) <= Z.of_nat (length data)) ->
  Z.of_nat (length text) <= SIZE_MAX ->
  send_all_bytes P fuel socket_fd text w = (Returned b, w', tr) ->
  (b = true <-> transmitted tr = text).
Proof.
  intros Hreq Hmax Hrun.
  exact (@send_all_bytes_success_iff W P socket_fd Hreq text fuel w w' b tr Hmax Hrun).
Qed.

Lemma success_means_all_bytes_sent_witness :
  let P := Scenario.platform_of MoreScenarios.peer_goes_away in
  let text := lit "hello, peer" ++ [NL] in
  outcome_of (send_all_bytes P 5 4 text O) = Returned false /\
  transmitted (trace_of (send_all_bytes P 5 4 text O)) = lit "hello, p" /\
  (false = true <-> transmitted (trace_of (send_all_bytes P 5 4 text O)) = text).
Proof.
  split; [reflexivity|]. split; [reflexivity|].
  exact (@success_means_all_bytes_sent nat
           (Scenario.platform_of MoreScenarios.peer_goes_away) 4
           (lit "hello, peer" ++ [NL]) 5 O O false _
           peer_goes_away_within_request ltac:(vm_compute; discriminate) eq_refl).
Defined.

(** ** Connection setup: results, reports and descriptors *)

Ltac ltb_facts :=
  repeat match goal with
         | H : (_ <? _) = false |- _ => apply Z.ltb_ge in H
         | H : (_ <? _) = true |- _ => apply Z.ltb_lt in H
         | H : negb _ = true |- _ => apply negb_true_iff in H
         | H : negb _ = false |- _ => apply negb_false_iff in H
         | H : (_ =? _) = true |- _ => apply Z.eqb_eq in H
         | H : (_ =? _) = false |- _ => apply Z.eqb_neq in H
         end.

(** X4.  [listen_and_accept] always returns; it returns either the
    non-negative descriptor that [accept] gave, having written nothing
    to the error stream, or -1, having written exactly one error
    report. *)
Theorem listen_and_accept_result_and_report
  (W : Type) (P : platform W) (port : Z) (w : W) :
  let run := listen_and_accept P port w in
  exists fd,
    outcome_of run = Returned fd /\
    ((fd = -1 /\ count is_cerr (trace_of run) = 1%nat) \/
     (0 <= fd /\ count is_cerr (trace_of run) = 0%nat /\
      exists listen_fd a, In (ev_accept listen_fd a) (trace_of run) /\ rv a = fd)).
Proof.
  unfold outcome_of, trace_of, count. run_setup; ltb_facts;
    (eexists; split; [reflexivity|]);
    first [left; split; reflexivity
          | right; split; [assumption|]; split; [reflexivity|];
            do 2 eexists; split; [|reflexivity]; simpl; tauto].
Qed.

(** X5.  [listen_and_accept] leaks no descriptor and closes nothing
    that is not its own: when [socket] failed it closes nothing; when
    [socket] gave a descriptor, that listening socket is closed exactly
    once, on the success path and on every failure path alike, and no
    other close is made (the accepted connection stays open). *)
Theorem listening_socket_closed_once
  (W : Type) (P : platform W) (port : Z) (w : W) :
  let tr := trace_of (listen_and_accept P port w) in
  exists listen_fd rest,
    tr = ev_socket listen_fd :: rest /\
    (listen_fd < 0 -> filter is_close tr = []) /\
    (0 <= listen_fd -> filter is_close tr = [ev_close listen_fd]).
Proof.
  unfold trace_of. run_setup; ltb_facts;
    (do 2 eexists; split; [reflexivity|]); simpl; split; intros; (reflexivity || lia).
Qed.

(** X6.  [connect_to_peer] always returns; on success it returns the
    descriptor that [socket] created, still open, after exactly one
    [connect] on it and with nothing written to the error stream; on
    failure it returns -1 after exactly one error report, and the
    socket, if one was created, has been closed exactly once. *)
Theorem connect_to_peer_result_and_descriptor
  (W : Type) (P : platform W) (host : cstring) (port : Z) (w : W) :
  let run := connect_to_peer P host port w in
  exists fd s rest,
    outcome_of run = Returned fd /\
    trace_of run = ev_socket s :: rest /\
    ((0 <= fd /\ fd = s /\
      count is_cerr (trace_of run) = 0%nat /\
      filter is_close (trace_of run) = [] /\
      exists addr r, filter is_connect (trace_of run) = [ev_connect fd addr r] /\ 0 <= r)
     \/
     (fd = -1 /\
      count is_cerr (trace_of run) = 1%nat /\
      filter is_close (trace_of run) = if s <? 0 then [] else [ev_close s])).
Proof.
  unfold outcome_of, trace_of, count. run_setup;
    (do 3 eexists; split; [reflexivity|]; split; [reflexivity|]);
    first [ right; split; [reflexivity|]; split; [reflexivity|]; simpl;
            match goal with H : (_ <? 0) = _ |- _ => rewrite H end; reflexivity
          | left; ltb_facts; repeat (split; [first [assumption | reflexivity]|]);
            do 2 eexists; split; [reflexivity | assumption] ].
Qed.

(** ** The session loop: which calls it makes, and on what *)

Ltac fd_call :=
  match goal with
  | |- emits _ (call _ _) =>
      apply emits_call; intros; simpl;
      rewrite ?Z.eqb_refl, ?orb_true_r; reflexivity
  | |- emits _ (call_ _ _) =>
      apply emits_call_; simpl; rewrite ?Z.eqb_refl; reflexivity
  end.

Ltac emits_fd :=
  repeat first [emits_step | fd_call | progress unfold_calls | progress cbv zeta].

Section SessionCalls.

Variable W : Type.
Variable P : platform W.

Lemma send_loop_session_call fuel fd text data left :
  emits (session_call fd) (send_loop P fuel fd text data left).
Proof.
  revert data left; induction fuel as [|fuel IH]; intros data left; simpl.
  - emits_fd.
  - destruct (left >? 0); [|emits_fd].
    apply emits_bind; [emits_fd|]. intros r. cbv zeta.
    destruct (rv r <? 0).
    + destruct (err r =? EINTR); [apply IH | emits_fd].
    + destruct (rv r =? 0); [emits_fd | apply IH].
Qed.

Lemma print_lines_session_call fd buf : emits (session_call fd) (@TcpPeer.print_lines W buf).
Proof. eapply emits_weaken; [|apply print_lines_emits]. by_event. Qed.

Lemma tcp_iteration_session_call fuel fd buf :
  emits (session_call fd) (TcpPeer.iteration P fuel fd buf).
Proof.
  unfold TcpPeer.iteration. cbv zeta.
  apply emits_bind; [emits_fd|]. intros s.
  destruct (rv (ready s) <? 0); [emits_fd|].
  apply emits_bind.
  - destruct (FD_ISSET 0 (read_set s)); [|emits_fd].
    unfold TcpPeer.pump_stdin, send_all_bytes.
    apply emits_bind; [emits_fd|]. intros [line|]; [|emits_fd].
    cbv zeta. apply emits_bind; [apply send_loop_session_call | intros; emits_fd].
  - intros [| |]; try solve [emits_fd].
    destruct (FD_ISSET fd (read_set s)); [|emits_fd].
    unfold TcpPeer.pump_socket.
    apply emits_bind; [emits_fd|]. intros r. cbv zeta.
    destruct (read_n r =? 0); [emits_fd|].
    destruct (read_n r <? 0); [emits_fd|].
    apply emits_bind; [apply print_lines_session_call | intros; emits_fd].
Qed.

Lemma tcp_session_session_call fuel fd buf :
  emits (session_call fd) (TcpPeer.session P fuel fd buf).
Proof.
  revert buf; induction fuel as [|fuel IH]; intros buf; simpl.
  - emits_fd.
  - apply emits_bind; [apply tcp_iteration_session_call|].
    intros [[| |] buf']; simpl; solve [apply IH | emits_fd].
Qed.

Lemma stream_iteration_session_call fuel fd :
  emits (session_call fd) (StreamPeer.iteration P fuel fd).
Proof.
  unfold StreamPeer.iteration. cbv zeta.
  apply emits_bind; [emits_fd|]. intros s.
  destruct (rv (ready s) <? 0); [emits_fd|].
  apply emits_bind.
  - destruct (FD_ISSET STDIN_FILENO (read_set s)); [|emits_fd].
    unfold StreamPeer.pump_stdin, send_all_bytes_raw.
    apply emits_bind; [emits_fd|]. intros r. cbv zeta.
    destruct (read_n r =? 1); [|emits_fd].
    apply emits_bind; [emits_fd|]. intros _.
    apply emits_bind; [apply send_loop_session_call | intros; emits_fd].
  - intros [| |]; try solve [emits_fd].
    destruct (FD_ISSET fd (read_set s)); [|emits_fd].
    unfold StreamPeer.pump_socket. emits_fd.
Qed.

Lemma stream_session_session_call fuel fd :
  emits (session_call fd) (StreamPeer.session P fuel fd).
Proof.
  induction fuel as [|fuel IH]; simpl.
  - emits_fd.
  - apply emits_bind; [apply stream_iteration_session_call|].
    intros [| |]; solve [apply IH | emits_fd].
Qed.

End SessionCalls.

Section SessionStart.

Variable W : Type.
Variable P : platform W.

Lemma bind_starts (A B : Type) (m : M W A) (k : A -> M W B) (w : W) (e : event) :
  (exists rest, trace_of (m w) = e :: rest) ->
  exists rest, trace_of (bind m k w) = e :: rest.
Proof.
  unfold bind, trace_of. destruct (m w) as [[[a| |] w1] t1]; simpl; intros [rest ->].
  - destruct (k a w1) as [[r w2] t2]. simpl. eexists. reflexivity.
  - eexists. reflexivity.
  - eexists. reflexivity.
Qed.

Lemma tcp_session_starts fuel fd buf w :
  exists first rest,
    trace_of (TcpPeer.session P (S fuel) fd buf w) = first :: rest /\
    is_select first = true.
Proof.
  cbn [TcpPeer.session]. unfold TcpPeer.iteration. cbv zeta.
  set (nfds := (if fd >? 0 then fd else 0) + 1).
  destruct (os_select P nfds [0; fd] w) as [s w1] eqn:Hs.
  exists (ev_select nfds [0; fd] (ready s)). 
  match goal with
  | |- exists rest, trace_of (bind (bind ?m ?k1) ?k2 w) = _ /\ _ =>
      destruct (@bind_starts _ _ (bind m k1) k2 w (ev_select nfds [0; fd] (ready s)))
        as [rest Hrest]
  end.
  - apply bind_starts. unfold sys_select, call, trace_of. rewrite Hs. simpl.
    eexists. reflexivity.
  - exists rest. split; [exact Hrest | reflexivity].
Qed.

Lemma stream_session_starts fuel fd w :
  exists first rest,
    trace_of (StreamPeer.session P (S fuel) fd w) = first :: rest /\
    is_select first = true.
Proof.
  cbn [StreamPeer.session]. unfold StreamPeer.iteration. cbv zeta.
  set (nfds := (if fd >? STDIN_FILENO then fd else STDIN_FILENO) + 1).
  destruct (os_select P nfds [STDIN_FILENO; fd] w) as [s w1] eqn:Hs.
  exists (ev_select nfds [STDIN_FILENO; fd] (ready s)).
  match goal with
  | |- exists rest, trace_of (bind (bind ?m ?k1) ?k2 w) = _ /\ _ =>
      destruct (@bind_starts _ _ (bind m k1) k2 w
                  (ev_select nfds [STDIN_FILENO; fd] (ready s)))
        as [rest Hrest]
  end.
  - apply bind_starts. unfold sys_select, call, trace_of. rewrite Hs. simpl.
    eexists. reflexivity.
  - exists rest. split; [exact Hrest | reflexivity].
Qed.

End SessionStart.

(** X7.  The session loop touches nothing but its two descriptors.  In
    every run of the session loop of either program, however it ends:
    the loop begins by waiting in [select]; every [select] watches the
    keyboard and the connection, the two of them and nothing else, with
    [nfds] the larger of the two plus one; every [send] and [recv] is
    on the connection (a [recv] asks for at most 4096 bytes); local
    input is read one unit at a time; and no descriptor is opened or
    closed and no terminal setting changed.  (With no fuel the model
    makes no pass at all.) *)
Theorem session_loop_calls
  (W : Type) (P : platform W) (fuel : nat) (fd : Z) (buf : cstring) (w : W) :
  let line_peer := trace_of (TcpPeer.session P fuel fd buf w) in
  let keystroke_peer := trace_of (StreamPeer.session P fuel fd w) in
  forallb (session_call fd) line_peer = true /\
  forallb (session_call fd) keystroke_peer = true /\
  (fuel = O \/
   exists nfds r rest r' rest',
     nfds = (if fd >? STDIN_FILENO then fd else STDIN_FILENO) + 1 /\
     line_peer = ev_select nfds [STDIN_FILENO; fd] r :: rest /\
     keystroke_peer = ev_select nfds [STDIN_FILENO; fd] r' :: rest').
Proof.
  intros line_peer keystroke_peer.
  pose proof (tcp_session_session_call P fuel fd buf w) as Hline.
  pose proof (stream_session_session_call P fuel fd w) as Hkey.
  fold line_peer in Hline. fold keystroke_peer in Hkey.
  split; [exact Hline|]. split; [exact Hkey|].
  destruct fuel as [|fuel]; [now left|right].
  destruct (tcp_session_starts P fuel fd buf w) as (e & rest & He & Hsel).
  destruct (stream_session_starts P fuel fd w) as (e' & rest' & He' & Hsel').
  fold line_peer in He. fold keystroke_peer in He'.
  rewrite He in Hline. rewrite He' in Hkey. simpl in Hline, Hkey.
  apply andb_prop in Hline as [Hline _]. apply andb_prop in Hkey as [Hkey _].
  destruct e; try discriminate. destruct e'; try discriminate.
  unfold session_call, watches_both in Hline, Hkey.
  destruct watched as [|a [|b [|]]]; try discriminate.
  destruct watched0 as [|a' [|b' [|]]]; try discriminate.
  apply andb_prop in Hline as [[Ha Hb]%andb_prop Hn].
  apply andb_prop in Hkey as [[Ha' Hb']%andb_prop Hn'].
  apply Z.eqb_eq in Ha, Hb, Hn, Ha', Hb', Hn'. subst.
  exists ((if fd >? STDIN_FILENO then fd else STDIN_FILENO) + 1), r, rest, r0, rest'.
  split; [reflexivity|]. split; [exact He | exact He'].
Qed.

(** ** The keystroke peer: the terminal and the connection on the way out *)

Section StreamLifecycle.

Variable W : Type.
Variable P : platform W.

(** The runs of [enable]: what it returns, and what it did. *)
Lemma enable_run (w : W) :
  let g := fst (os_tcgetattr P STDIN_FILENO w) in
  let found := tc_attr g in
  exists ok w' tr,
    StreamPeer.enable P w
    = (Returned (ok, {| StreamPeer.original := found; StreamPeer.active := ok |}), w', tr) /\
    forallb (fun e => is_terminal_call e || is_cerr e)%bool tr = true /\
    (ok = true ->
     tr = [ev_tcgetattr STDIN_FILENO 0; ev_tcsetattr STDIN_FILENO (raw_mode P found) 0]).
Proof.
  unfold StreamPeer.enable, StreamPeer.sys_tcgetattr, StreamPeer.sys_tcsetattr,
    bind, call, cerr, emit, ret.
  destruct (os_tcgetattr P STDIN_FILENO w) as [g w1]. simpl. cbv zeta.
  destruct (rv (tc_ret g) =? 0) eqn:Hg; simpl.
  - match goal with
    | |- context [os_tcsetattr P ?fd ?a ?x] => destruct (os_tcsetattr P fd a x) as [s w2]
    end.
    simpl. destruct (rv s =? 0) eqn:Hs; simpl.
    + exists true. do 2 eexists. split; [reflexivity|]. split; [reflexivity|].
      intros _. apply Z.eqb_eq in Hg, Hs. rewrite Hg, Hs. reflexivity.
    + exists false. do 2 eexists. split; [reflexivity|]. split; [reflexivity|]. discriminate.
  - exists false. do 2 eexists. split; [reflexivity|]. split; [reflexivity|]. discriminate.
Qed.

End StreamLifecycle.

(** X8.  [TerminalRawGuard::enable] succeeds only after both terminal
    calls returned 0, and what it then has asked for differs from the
    settings it found in this only: in the local flags the bits of
    ICANON and of ECHO are cleared and every other bit is kept, VMIN is
    1 and VTIME is 0.  The guard remembers the settings found, and is
    active exactly when [enable] succeeded. *)
Theorem enable_sets_raw_mode
  (W : Type) (P : platform W) (w w' : W) (ok : bool)
  (guard : StreamPeer.TerminalRawGuard) (tr : list event) :
  StreamPeer.enable P w = (Returned (ok, guard), w', tr) ->
  let found := tc_attr (fst (os_tcgetattr P STDIN_FILENO w)) in
  StreamPeer.original guard = found /\
  StreamPeer.active guard = ok /\
  (ok = true ->
   exists raw,
     tr = [ev_tcgetattr STDIN_FILENO 0; ev_tcsetattr STDIN_FILENO raw 0] /\
     c_cc_VMIN raw = 1 /\ c_cc_VTIME raw = 0 /\ c_other raw = c_other found /\
     forall i, 0 <= i ->
       Z.testbit (c_lflag raw) i
       = (Z.testbit (c_lflag found) i
          && negb (Z.testbit (ICANON P) i) && negb (Z.testbit (ECHO P) i))%bool).
Proof.
  intros Hrun found.
  destruct (enable_run P w) as (ok' & w1 & tr' & Hrun' & _ & Hok).
  rewrite Hrun in Hrun'. injection Hrun' as -> -> _ ->.
  split; [reflexivity|]. split; [reflexivity|].
  intros Htrue. exists (raw_mode P found). split; [exact (Hok Htrue)|].
  repeat split. intros i Hi. simpl.
  now rewrite !Z.land_spec, !Z.lnot_spec by exact Hi.
Qed.

Lemma enable_sets_raw_mode_witness :
  let P := Scenario.platform_of Scenario.slow_send in
  let guard := {| StreamPeer.original := Scenario.cooked; StreamPeer.active := true |} in
  let raw := {| c_lflag := 0; c_cc_VMIN := 1; c_cc_VTIME := 0; c_other := [] |} in
  StreamPeer.enable P O
    = (Returned (true, guard), O,
       [ev_tcgetattr STDIN_FILENO 0; ev_tcsetattr STDIN_FILENO raw 0]) /\
  StreamPeer.original guard = Scenario.cooked /\
  StreamPeer.active guard = true /\
  (true = true ->
   exists raw',
     [ev_tcgetattr STDIN_FILENO 0; ev_tcsetattr STDIN_FILENO raw 0]
     = [ev_tcgetattr STDIN_FILENO 0; ev_tcsetattr STDIN_FILENO raw' 0] /\
     c_cc_VMIN raw' = 1 /\ c_cc_VTIME raw' = 0 /\ c_other raw' = c_other Scenario.cooked /\
     forall i, 0 <= i ->
       Z.testbit (c_lflag raw') i
       = (Z.testbit (c_lflag Scenario.cooked) i
          && negb (Z.testbit (ICANON P) i) && negb (Z.testbit (ECHO P) i))%bool).
Proof.
  split; [reflexivity|].
  exact (@enable_sets_raw_mode nat (Scenario.platform_of Scenario.slow_send) O O true
           {| StreamPeer.original := Scenario.cooked; StreamPeer.active := true |}
           _ eq_refl).
Defined.

Section StreamExit.

Variable W : Type.
Variable P : platform W.

Lemma stream_session_returned_calls fuel sock w w' tr :
  StreamPeer.session P fuel sock w = (Returned tt, w', tr) ->
  forallb (session_call sock) tr = true /\ existsb is_select tr = true.
Proof.
  intros Hrun. split.
  - exact (emits_run _ (stream_session_session_call P fuel sock) Hrun).
  - destruct fuel as [|fuel]; simpl in Hrun; [discriminate|].
    apply bind_returned in Hrun as (f & w1 & t1 & t2 & Hit & _ & ->).
    unfold StreamPeer.iteration in Hit. cbv zeta in Hit.
    apply bind_returned in Hit as (s & w2 & t3 & t4 & Hsel & _ & ->).
    unfold sys_select, call in Hsel. destruct (os_select P _ _ w) as [s' w3].
    injection Hsel as <- <- <-. reflexivity.
Qed.

(** The two ways [run_session] returns. *)
Lemma stream_run_session_returned fuel sock w w' code tr :
  StreamPeer.run_session P fuel sock w = (Returned code, w', tr) ->
  let found := tc_attr (fst (os_tcgetattr P STDIN_FILENO w)) in
  (code = 1 /\
   exists before,
     tr = before ++ [ev_close sock] /\
     forallb (fun e => is_terminal_call e || is_cerr e)%bool before = true /\
     existsb (fun e => match e with
                       | ev_tcsetattr _ _ r => r =? 0
                       | _ => false
                       end) before = false)
  \/
  (code = 0 /\
   exists ts r,
     tr = [ev_tcgetattr STDIN_FILENO 0; ev_tcsetattr STDIN_FILENO (raw_mode P found) 0;
           ev_cout (lit "Real-time: type to send. Press Ctrl-C to quit." ++ [NL])]
            ++ ts ++ [ev_close sock; ev_tcsetattr STDIN_FILENO found r] /\
     forallb (session_call sock) ts = true /\
     existsb is_select ts = true).
Proof.
  intros Hrun found. unfold StreamPeer.run_session in Hrun.
  apply bind_returned in Hrun as ([ok g] & w1 & t1 & t2 & Hen & Hrest & ->).
  destruct (enable_run P w) as (ok' & w1' & t1' & Hen' & Hcls & Hok).
  rewrite Hen in Hen'. injection Hen' as <- -> <- <-. fold found in Hok.
  cbv zeta in Hrest. simpl fst in Hrest. simpl snd in Hrest.
  destruct ok; simpl negb in Hrest; cbv iota in Hrest.
  - right.
    apply bind_returned in Hrest as ([] & w2 & t3 & t4 & Hc & Hrest & ->).
    apply bind_returned in Hrest as ([] & w3 & ts & t5 & Hs & Hrest & ->).
    apply bind_returned in Hrest as ([] & w4 & t6 & t7 & Hcl & Hrest & ->).
    apply bind_returned in Hrest as ([] & w5 & t8 & t9 & Hd & Hrest & ->).
    injection Hrest as <- _ <-. injection Hc as _ <-. injection Hcl as _ <-.
    unfold StreamPeer.destroy in Hd. simpl in Hd.
    apply bind_returned in Hd as (s & w6 & t10 & t11 & Hset & Hr & ->).
    injection Hr as _ <-.
    unfold StreamPeer.sys_tcsetattr, call in Hset.
    match type of Hset with
    | context [os_tcsetattr P ?fd ?a ?x] => destruct (os_tcsetattr P fd a x) as [s' w7]
    end.
    injection Hset as <- _ <-.
    destruct (stream_session_returned_calls _ _ _ Hs) as [Hcalls Hsel].
    split; [reflexivity|]. exists ts, (rv s'). rewrite (Hok eq_refl).
    split; [|split; assumption].
    simpl. rewrite <- ?app_assoc. simpl. rewrite ?app_nil_r. reflexivity.
  - left.
    apply bind_returned in Hrest as ([] & w2 & t3 & t4 & Hc & Hrest & ->).
    apply bind_returned in Hrest as ([] & w3 & t5 & t6 & Hcl & Hrest & ->).
    apply bind_returned in Hrest as ([] & w4 & t7 & t8 & Hd & Hrest & ->).
    injection Hrest as <- _ <-. injection Hc as _ <-. injection Hcl as _ <-.
    unfold StreamPeer.destroy in Hd. simpl in Hd. injection Hd as _ <-.
    split; [reflexivity|].
    exists (t1 ++ [ev_cerr (lit "failed to enable raw terminal mode" ++ [NL])]).
    split; [simpl; now rewrite <- !app_assoc|]. split.
    + rewrite forallb_app, Hcls. reflexivity.
    + rewrite existsb_app. simpl. rewrite orb_false_r.
      clear -Hen. unfold StreamPeer.enable, StreamPeer.sys_tcgetattr,
        StreamPeer.sys_tcsetattr, bind, call, cerr, emit, ret in Hen.
      destruct (os_tcgetattr P STDIN_FILENO w) as [g' w1']. simpl in Hen.
      destruct (rv (tc_ret g') =? 0); simpl in Hen.
      * match type of Hen with
        | context [os_tcsetattr P ?fd ?a ?x] => destruct (os_tcsetattr P fd a x) as [s w2']
        end.
        simpl in Hen. destruct (rv s =? 0) eqn:Hs; simpl in Hen; [discriminate|].
        apply (f_equal snd) in Hen. simpl in Hen. rewrite <- Hen. simpl. now rewrite Hs.
      * apply (f_equal snd) in Hen. simpl in Hen. rewrite <- Hen. reflexivity.
Qed.

End StreamExit.

(** X9.  The keystroke peer's way out of a connection (part_000, lines
    178-247 and 255-314).  When raw mode could not be switched on, the
    connection is closed, no session takes place, no terminal setting
    was changed with success, and the status is 1.  Otherwise the
    session runs on the connection and, whatever ended it, the
    connection is closed and then, as the last act, the terminal is
    given back exactly the settings that [tcgetattr] had found; the
    status is 0. *)
Theorem terminal_restored_after_session
  (W : Type) (P : platform W) (fuel : nat) (sock : Z) (w w' : W) (code : Z)
  (tr : list event) :
  StreamPeer.run_session P fuel sock w = (Returned code, w', tr) ->
  let found := tc_attr (fst (os_tcgetattr P STDIN_FILENO w)) in
  (code = 1 /\
   exists before,
     tr = before ++ [ev_close sock] /\
     forallb (fun e => is_terminal_call e || is_cerr e)%bool before = true /\
     existsb (fun e => match e with
                       | ev_tcsetattr _ _ r => r =? 0
                       | _ => false
                       end) before = false)
  \/
  (code = 0 /\
   exists ts r,
     tr = [ev_tcgetattr STDIN_FILENO 0; ev_tcsetattr STDIN_FILENO (raw_mode P found) 0;
           ev_cout (lit "Real-time: type to send. Press Ctrl-C to quit." ++ [NL])]
            ++ ts ++ [ev_close sock; ev_tcsetattr STDIN_FILENO found r] /\
     forallb (session_call sock) ts = true /\
     existsb is_select ts = true).
Proof. apply stream_run_session_returned. Qed.

Lemma terminal_restored_after_session_witness :
  let P := Scenario.platform_of MoreScenarios.peer_goes_away in
  let run := StreamPeer.run_session P 6 4 O in
  outcome_of run = Returned 0 /\
  (exists ts r,
     trace_of run
     = [ev_tcgetattr STDIN_FILENO 0;
        ev_tcsetattr STDIN_FILENO (raw_mode P Scenario.cooked) 0;
        ev_cout (lit "Real-time: type to send. Press Ctrl-C to quit." ++ [NL])]
         ++ ts ++ [ev_close 4; ev_tcsetattr STDIN_FILENO Scenario.cooked r] /\
     forallb (session_call 4) ts = true /\
     existsb is_select ts = true).
Proof.
  split; [reflexivity|].
  destruct (@terminal_restored_after_session nat
              (Scenario.platform_of MoreScenarios.peer_goes_away) 6 4 O _ 0 _ eq_refl)
    as [[Hcode _]|[_ H]]; [discriminate | exact H].
Defined.

Section Lifecycle.

Variable W : Type.
Variable P : platform W.








End Lifecycle.



(** X11.  A port argument that [std::stoi] cannot convert (no digit
    where a number should start, or a value outside [int]) is not a
    usage error: in the listen form and in the connect form alike the
    exception ends the run before any system call is made and before
    anything is printed, in both programs. *)
Theorem unparsable_port_throws
  (W : Type) (prog : program) (P : platform W) (fuel : nat) (argv : list cstring)
  (arg : cstring) (w : W) :
  port_argument argv = Some arg ->
  Stoi.stoi arg = None ->
  run_main prog P fuel argv w = (Thrown, w, []).
Proof.
  unfold port_argument. intros Harg Hstoi.
  destruct prog; simpl; unfold TcpPeer.main, StreamPeer.main;
    (destruct (TcpPeer.listen_form argv); [|destruct (TcpPeer.connect_form argv)];
     [| |discriminate]; injection Harg as <-; now rewrite Hstoi).
Qed.

Lemma unparsable_port_throws_witness :
  let P := Scenario.platform_of Scenario.slow_send in
  port_argument [lit "tcp_peer"; lit "--connect"; lit "127.0.0.1"; lit "99999999999"]
    = Some (lit "99999999999") /\
  Stoi.stoi (lit "99999999999") = None /\
  run_main LinePeer P 10 [lit "tcp_peer"; lit "--connect"; lit "127.0.0.1"; lit "99999999999"] O
    = (Thrown, O, []).
Proof.
  split; [reflexivity|]. split; [reflexivity|].
  exact (@unparsable_port_throws nat LinePeer (Scenario.platform_of Scenario.slow_send) 10
           [lit "tcp_peer"; lit "--connect"; lit "127.0.0.1"; lit "99999999999"]
           (lit "99999999999") O eq_refl eq_refl).
Defined.

(** ** The line-oriented peer: what is printed is what was framed *)

Lemma peer_lines_app (a b : list event) : peer_lines (a ++ b) = peer_lines a ++ peer_lines b.
Proof. apply filter_app. Qed.

Lemma received_app (a b : list event) : received (a ++ b) = received a ++ received b.
Proof. unfold received. now rewrite map_app, concat_app. Qed.

Lemma quiet_trace (tr : list event) :
  forallb inbound_quiet tr = true -> peer_lines tr = [] /\ received tr = [].
Proof.
  induction tr as [|e tr IH]; simpl; [auto|].
  intros [He Htr]%andb_prop. destruct (IH Htr) as [Hp Hr].
  unfold peer_lines, received in *. simpl. rewrite Hr.
  destruct e; simpl in *; try discriminate; rewrite ?Hp; auto;
    try (apply negb_true_iff in He; rewrite He); auto.
Qed.

Lemma framed_nil (buf : cstring) : nl_free buf -> framed buf [].
Proof.
  intros Hb. unfold framed. simpl. rewrite app_nil_r.
  now rewrite extract_messages_none.
Qed.

Lemma framed_quiet_l (buf : cstring) (t1 t2 : list event) :
  forallb inbound_quiet t1 = true -> framed buf t2 -> framed buf (t1 ++ t2).
Proof.
  intros [Hp Hr]%quiet_trace H. unfold framed in *.
  now rewrite peer_lines_app, received_app, Hp, Hr.
Qed.

Lemma framed_quiet_r (buf : cstring) (t1 t2 : list event) :
  framed buf t1 -> forallb inbound_quiet t2 = true -> framed buf (t1 ++ t2).
Proof.
  intros H [Hp Hr]%quiet_trace. unfold framed in *.
  now rewrite peer_lines_app, received_app, Hp, Hr, !app_nil_r.
Qed.

Lemma framed_app (buf : cstring) (t1 t2 : list event) :
  framed buf t1 ->
  framed (snd (extract_messages (buf ++ received t1))) t2 ->
  framed buf (t1 ++ t2).
Proof.
  unfold framed. intros H1 H2.
  rewrite peer_lines_app, received_app, H1, H2, app_assoc.
  rewrite (extract_messages_app (buf ++ received t1)). simpl. now rewrite map_app.
Qed.

Lemma rest_app_quiet (buf : cstring) (t1 t2 : list event) :
  forallb inbound_quiet t1 = true ->
  snd (extract_messages (buf ++ received (t1 ++ t2)))
  = snd (extract_messages (buf ++ received t2)).
Proof. intros [_ Hr]%quiet_trace. now rewrite received_app, Hr. Qed.

Lemma bind_trace (W A B : Type) (m : M W A) (k : A -> M W B) (w : W) :
  trace_of (bind m k w)
  = trace_of (m w) ++
    match m w with
    | (Returned a, w1, _) => trace_of (k a w1)
    | _ => []
    end.
Proof.
  unfold bind, trace_of. destruct (m w) as [[[a| |] w1] t1]; simpl;
    [destruct (k a w1) as [[r w2] t2]; reflexivity | now rewrite app_nil_r..].
Qed.

Section Framing.

Variable W : Type.
Variable P : platform W.

Lemma frames_quiet {A} buf res (m : M W A) w :
  nl_free buf ->
  emits inbound_quiet m ->
  returns m (fun a => res a buf) ->
  frames buf res (m w).
Proof.
  intros Hb Hm Hres. specialize (Hm w). destruct (quiet_trace _ Hm) as [Hp Hr].
  split.
  - unfold framed. rewrite Hp, Hr, app_nil_r. now rewrite extract_messages_none.
  - intros a Ha. rewrite Hr, app_nil_r. rewrite extract_messages_none by exact Hb.
    unfold outcome_of, trace_of in *. destruct (m w) as [[o w1] t1] eqn:Hrun.
    simpl in Ha. subst o. exact (Hres _ _ _ _ Hrun).
Qed.

Lemma frames_bind {A B} buf res (m : M W A) (k : A -> M W B) w :
  nl_free buf ->
  emits inbound_quiet m ->
  (forall a w1, frames buf res (k a w1)) ->
  frames buf res (bind m k w).
Proof.
  intros Hb Hm Hk. specialize (Hm w). unfold frames, outcome_of in *.
  rewrite bind_trace. unfold bind, trace_of in *.
  destruct (m w) as [[[a| |] w1] t1]; simpl in *.
  - specialize (Hk a w1). destruct (k a w1) as [[r w2] t2]. simpl in *.
    destruct Hk as [Hf Hres]. split; [now apply framed_quiet_l|].
    intros b Hb'. rewrite rest_app_quiet by exact Hm. now apply Hres.
  - split; [|discriminate]. rewrite app_nil_r.
    assert (H := @framed_quiet_l buf t1 [] Hm (framed_nil Hb)).
    now rewrite app_nil_r in H.
  - split; [|discriminate]. rewrite app_nil_r.
    assert (H := @framed_quiet_l buf t1 [] Hm (framed_nil Hb)).
    now rewrite app_nil_r in H.
Qed.

End Framing.

Lemma peer_lines_printed (ms : list cstring) : peer_lines (map printed ms) = map printed ms.
Proof. unfold peer_lines. induction ms as [|m ms IH]; simpl; [reflexivity|]. now rewrite IH. Qed.

Lemma received_printed (ms : list cstring) : received (map printed ms) = [].
Proof. unfold received. induction ms as [|m ms IH]; simpl; auto. Qed.

Ltac quiet_auto :=
  repeat first [emits_step | progress unfold_calls | progress cbv zeta].

Ltac returns_auto :=
  unfold_calls;
  repeat first [ apply returns_ret; reflexivity
               | apply returns_bind; intros ?
               | match goal with
                 | |- returns (if ?c then _ else _) _ => destruct c
                 end ].

Section FramingOfRuns.

Variable W : Type.
Variable P : platform W.

Lemma send_loop_inbound_quiet fuel fd text data left :
  emits inbound_quiet (send_loop P fuel fd text data left).
Proof.
  revert data left; induction fuel as [|fuel IH]; intros data left; simpl.
  - quiet_auto.
  - destruct (left >? 0); [|quiet_auto].
    apply emits_bind; [quiet_auto|]. intros r. cbv zeta.
    destruct (rv r <? 0).
    + destruct (err r =? EINTR); [apply IH | quiet_auto].
    + destruct (rv r =? 0); [quiet_auto | apply IH].
Qed.

Lemma tcp_pump_stdin_inbound_quiet fuel fd :
  emits inbound_quiet (TcpPeer.pump_stdin P fuel fd).
Proof.
  unfold TcpPeer.pump_stdin, send_all_bytes.
  apply emits_bind; [quiet_auto|]. intros [line|]; [|quiet_auto].
  cbv zeta. apply emits_bind; [apply send_loop_inbound_quiet | intros; quiet_auto].
Qed.

Lemma tcp_pump_socket_frames fd buf w :
  nl_free buf ->
  frames buf (fun (r : flow * cstring) rest => snd r = rest)
    (TcpPeer.pump_socket P fd buf w).
Proof.
  intros Hb. unfold TcpPeer.pump_socket, bind, sys_recv, call, cout, cerr, emit, ret.
  destruct (os_recv P fd 4096 w) as [r w1]. cbv zeta.
  assert (Hnone : extract_messages (buf ++ []) = ([], buf))
    by (rewrite app_nil_r; now apply extract_messages_none).
  destruct r as [bytes|e]; cbn [read_n read_buf read_errno].
  - destruct (Z.of_nat (length bytes) =? 0) eqn:Hz.
    + apply Z.eqb_eq in Hz. destruct bytes; [|simpl in Hz; lia].
      split; [unfold framed, received, trace_of; simpl; now rewrite Hnone|].
      intros a [= <-]. unfold trace_of, received. simpl. now rewrite Hnone.
    + destruct (Z.of_nat (length bytes) <? 0) eqn:Hn; [apply Z.ltb_lt in Hn; lia|].
      rewrite Nat2Z.id, print_lines_extract. unfold Str.append. rewrite firstn_all.
      cbv beta iota zeta. unfold frames, framed, trace_of, outcome_of. cbn [fst snd].
      rewrite app_nil_r, peer_lines_app, received_app, peer_lines_printed, received_printed.
      change (peer_lines [ev_recv fd 4096 (read_bytes bytes)]) with (@nil event).
      change (received [ev_recv fd 4096 (read_bytes bytes)]) with (bytes ++ []).
      rewrite !app_nil_r. split; [reflexivity|].
      now intros a [= <-].
  - simpl. destruct (e =? EINTR); simpl.
    + split; [unfold framed, received, trace_of; simpl; now rewrite Hnone|].
      intros a [= <-]. unfold trace_of, received. simpl. now rewrite Hnone.
    + split; [unfold framed, received, trace_of; simpl; now rewrite Hnone|].
      intros a [= <-]. unfold trace_of, received. simpl. now rewrite Hnone.
Qed.

Lemma tcp_iteration_frames fuel fd buf w :
  nl_free buf ->
  frames buf (fun (r : flow * cstring) rest => snd r = rest)
    (TcpPeer.iteration P fuel fd buf w).
Proof.
  intros Hb. unfold TcpPeer.iteration. cbv zeta.
  apply frames_bind; [exact Hb | quiet_auto |]. intros s w1.
  destruct (rv (ready s) <? 0).
  { apply frames_quiet; [exact Hb | quiet_auto | returns_auto]. }
  apply frames_bind; [exact Hb | |].
  { destruct (FD_ISSET 0 (read_set s)); [apply tcp_pump_stdin_inbound_quiet | quiet_auto]. }
  intros f w2. destruct f;
    try solve [apply frames_quiet; [exact Hb | quiet_auto | returns_auto]].
  destruct (FD_ISSET fd (read_set s)).
  - now apply tcp_pump_socket_frames.
  - apply frames_quiet; [exact Hb | quiet_auto | returns_auto].
Qed.

Lemma tcp_session_framed fuel fd buf w :
  nl_free buf -> framed buf (trace_of (TcpPeer.session P fuel fd buf w)).
Proof.
  revert buf w; induction fuel as [|fuel IH]; intros buf w Hb; simpl.
  { now apply framed_nil. }
  rewrite bind_trace.
  destruct (tcp_iteration_frames fuel fd w Hb) as [Hf Hres].
  unfold outcome_of, trace_of in *.
  destruct (TcpPeer.iteration P fuel fd buf w) as [[[[f buf']| |] w1] t1]; simpl in *;
    try (rewrite app_nil_r; exact Hf).
  specialize (Hres _ eq_refl). simpl in Hres.
  apply framed_app; [exact Hf|]. rewrite <- Hres.
  assert (Hclean : nl_free buf') by (rewrite Hres; apply extract_messages_rest_clean).
  destruct f; simpl; solve [now apply IH | now apply framed_nil].
Qed.

Lemma framed_bind_l {A B} buf (m : M W A) (k : A -> M W B) w :
  nl_free buf ->
  emits inbound_quiet m ->
  (forall a w1, framed buf (trace_of (k a w1))) ->
  framed buf (trace_of (bind m k w)).
Proof.
  intros Hb Hm Hk. rewrite bind_trace. specialize (Hm w). unfold trace_of in *.
  destruct (m w) as [[[a| |] w1] t1]; simpl in *;
    apply framed_quiet_l; auto using framed_nil.
Qed.

Lemma framed_bind_r {A B} buf (m : M W A) (k : A -> M W B) w :
  framed buf (trace_of (m w)) ->
  (forall a, emits inbound_quiet (k a)) ->
  framed buf (trace_of (bind m k w)).
Proof.
  intros Hm Hk. rewrite bind_trace. unfold trace_of in *.
  destruct (m w) as [[[a| |] w1] t1]; simpl in *; rewrite ?app_nil_r; auto.
  apply framed_quiet_r; [exact Hm | apply Hk].
Qed.

Lemma framed_quiet_run {A} buf (m : M W A) w :
  nl_free buf -> emits inbound_quiet m -> framed buf (trace_of (m w)).
Proof.
  intros Hb Hm. specialize (Hm w).
  assert (H := @framed_quiet_l buf _ [] Hm (framed_nil Hb)). now rewrite app_nil_r in H.
Qed.

Lemma listen_and_accept_inbound_quiet port :
  emits inbound_quiet (listen_and_accept P port).
Proof. unfold listen_and_accept. quiet_auto. Qed.

Lemma connect_to_peer_inbound_quiet host port :
  emits inbound_quiet (connect_to_peer P host port).
Proof. unfold connect_to_peer. quiet_auto. Qed.

Lemma tcp_main_framed fuel argv w :
  framed [] (trace_of (TcpPeer.main P fuel argv w)).
Proof.
  assert (Hnil : nl_free []) by reflexivity.
  unfold TcpPeer.main.
  destruct (TcpPeer.listen_form argv); [|destruct (TcpPeer.connect_form argv)].
  - destruct (Stoi.stoi (nth 2 argv [])) as [port|]; [|now apply framed_nil].
    apply framed_bind_l; [exact Hnil | apply listen_and_accept_inbound_quiet|].
    intros fd w1. destruct (fd <? 0); [apply framed_quiet_run; [exact Hnil | quiet_auto]|].
    apply framed_bind_l; [exact Hnil | quiet_auto |]. intros _ w2.
    apply framed_bind_r; [now apply tcp_session_framed | intros; quiet_auto].
  - cbv zeta. destruct (Stoi.stoi (nth 3 argv [])) as [port|]; [|now apply framed_nil].
    apply framed_bind_l; [exact Hnil | apply connect_to_peer_inbound_quiet|].
    intros fd w1. destruct (fd <? 0); [apply framed_quiet_run; [exact Hnil | quiet_auto]|].
    apply framed_bind_l; [exact Hnil | quiet_auto |]. intros _ w2.
    apply framed_bind_l; [exact Hnil | quiet_auto |]. intros _ w3.
    apply framed_bind_r; [now apply tcp_session_framed | intros; quiet_auto].
  - apply framed_quiet_run; [exact Hnil | quiet_auto].
Qed.

End FramingOfRuns.

(** X12.  What the line-oriented peer prints as coming from the peer is
    what the framer makes of the bytes received: in every run, however
    it ends, the [[peer] ] lines printed are, in order, exactly the
    messages framed out of the concatenation of everything [recv] has
    delivered.  No received message is lost, repeated or reordered on
    its way to the output, and an undelimited tail is never printed. *)
Theorem printed_lines_are_framed_input
  (W : Type) (P : platform W) (fuel : nat) (argv : list cstring) (w : W) :
  let tr := trace_of (TcpPeer.main P fuel argv w) in
  peer_lines tr = map printed (fst (extract_messages (received tr))).
Proof. exact (tcp_main_framed P fuel argv w). Qed.

(** ** The keystroke peer: the screen shows what came in *)

Lemma written_app (a b : list event) : written (a ++ b) = written a ++ written b.
Proof. unfold written. now rewrite map_app, concat_app. Qed.

Lemma shown_app (a b : list event) : shown (a ++ b) = shown a ++ shown b.
Proof. unfold shown. now rewrite map_app, concat_app. Qed.

Lemma echoes_app (a b : list event) : echoes a -> echoes b -> echoes (a ++ b).
Proof. unfold echoes. intros Ha Hb. now rewrite written_app, shown_app, Ha, Hb. Qed.

Lemma echoes_neutral (tr : list event) : forallb screen_neutral tr = true -> echoes tr.
Proof.
  unfold echoes, written, shown. induction tr as [|e tr IH]; simpl; [reflexivity|].
  intros [He Htr]%andb_prop. rewrite (IH Htr). destruct e; simpl in *; auto; discriminate.
Qed.

Ltac as_emits :=
  match goal with
  | |- forallb ?p (trace_of (?m ?w)) = true => generalize w; change (emits p m)
  | |- forallb ?p (snd (?m ?w)) = true =>
      change (forallb p (trace_of (m w)) = true); generalize w; change (emits p m)
  end.

Section Echo.

Variable W : Type.
Variable P : platform W.

Lemma passes_neutral {A} (m : M W A) : emits screen_neutral m -> passes m.
Proof. intros H w. apply echoes_neutral, H. Qed.

Lemma passes_bind {A B} (m : M W A) (k : A -> M W B) :
  passes m -> (forall a, passes (k a)) -> passes (bind m k).
Proof.
  intros Hm Hk w. rewrite bind_trace. apply echoes_app; [apply Hm|].
  destruct (m w) as [[[a| |] w1] t1]; [apply Hk | reflexivity | reflexivity].
Qed.

Lemma send_loop_screen_neutral fuel fd text data left :
  emits screen_neutral (send_loop P fuel fd text data left).
Proof.
  revert data left; induction fuel as [|fuel IH]; intros data left; simpl.
  - quiet_auto.
  - destruct (left >? 0); [|quiet_auto].
    apply emits_bind; [quiet_auto|]. intros r. cbv zeta.
    destruct (rv r <? 0).
    + destruct (err r =? EINTR); [apply IH | quiet_auto].
    + destruct (rv r =? 0); [quiet_auto | apply IH].
Qed.

Lemma stream_pump_stdin_passes fuel sock : passes (StreamPeer.pump_stdin P fuel sock).
Proof.
  intros w. unfold StreamPeer.pump_stdin. rewrite bind_trace.
  unfold StreamPeer.sys_read, call at 1 2.
  destruct (os_read P STDIN_FILENO 1 w) as [r w1]. cbv zeta. unfold trace_of at 1. cbn [snd].
  destruct (read_n r =? 1) eqn:Hn.
  - rewrite bind_trace. unfold StreamPeer.sys_write, call_ at 1 2.
    unfold trace_of at 2. cbn [snd].
    assert (Hch : firstn 1 (read_buf r) = read_buf r).
    { apply firstn_all2. apply Z.eqb_eq in Hn. destruct r; simpl in *; lia. }
    rewrite Hch.
    rewrite app_assoc. apply echoes_app.
    + unfold echoes, written, shown, written_bytes, shown_bytes, STDOUT_FILENO. simpl.
      rewrite Hn, ?Z.eqb_refl, ?app_nil_r. reflexivity.
    + apply echoes_neutral. as_emits. unfold send_all_bytes_raw.
      apply emits_bind; [apply send_loop_screen_neutral | intros; quiet_auto].
  - apply echoes_app.
    + unfold echoes, written, shown, written_bytes, shown_bytes, STDOUT_FILENO. simpl.
      rewrite Hn, ?Z.eqb_refl, ?app_nil_r. reflexivity.
    + apply echoes_neutral. as_emits. quiet_auto.
Qed.

Lemma stream_pump_socket_passes sock : passes (StreamPeer.pump_socket P sock).
Proof.
  intros w. unfold StreamPeer.pump_socket. rewrite bind_trace.
  unfold sys_recv, call at 1 2.
  destruct (os_recv P sock 4096 w) as [r w1]. cbv zeta. unfold trace_of at 1. cbn [snd].
  destruct r as [bytes|e]; cbn [read_n read_buf read_errno].
  - destruct (Z.of_nat (length bytes) =? 0) eqn:Hz.
    + apply Z.eqb_eq in Hz. destruct bytes; [|simpl in Hz; lia]. reflexivity.
    + destruct (Z.of_nat (length bytes) <? 0) eqn:Hn; [apply Z.ltb_lt in Hn; lia|].
      rewrite Nat2Z.id, firstn_all.
      unfold echoes, written, shown, written_bytes, shown_bytes, STDOUT_FILENO. simpl.
      now rewrite ?Z.eqb_refl, ?app_nil_r.
  - simpl. destruct (e =? EINTR); reflexivity.
Qed.

Lemma stream_iteration_passes fuel sock : passes (StreamPeer.iteration P fuel sock).
Proof.
  unfold StreamPeer.iteration. cbv zeta.
  apply passes_bind; [apply passes_neutral; quiet_auto|]. intros s.
  destruct (rv (ready s) <? 0); [apply passes_neutral; quiet_auto|].
  apply passes_bind.
  - destruct (FD_ISSET STDIN_FILENO (read_set s));
      [apply stream_pump_stdin_passes | apply passes_neutral; quiet_auto].
  - intros [| |]; try solve [apply passes_neutral; quiet_auto].
    destruct (FD_ISSET sock (read_set s));
      [apply stream_pump_socket_passes | apply passes_neutral; quiet_auto].
Qed.

Lemma stream_session_passes fuel sock : passes (StreamPeer.session P fuel sock).
Proof.
  induction fuel as [|fuel IH]; simpl.
  - apply passes_neutral. quiet_auto.
  - apply passes_bind; [apply stream_iteration_passes|].
    intros [| |]; solve [apply IH | apply passes_neutral; quiet_auto].
Qed.

Lemma stream_main_passes fuel argv : passes (StreamPeer.main P fuel argv).
Proof.
  assert (Hrun : forall sock, passes (StreamPeer.run_session P fuel sock)).
  { intros sock. unfold StreamPeer.run_session.
    apply passes_bind; [apply passes_neutral; unfold StreamPeer.enable; quiet_auto|].
    intros e. cbv zeta.
    destruct (negb (fst e));
      [apply passes_neutral; unfold StreamPeer.destroy; quiet_auto|].
    apply passes_bind; [apply passes_neutral; quiet_auto|]. intros _.
    apply passes_bind; [apply stream_session_passes|]. intros _.
    apply passes_neutral. unfold StreamPeer.destroy. quiet_auto. }
  unfold StreamPeer.main.
  destruct (TcpPeer.listen_form argv); [|destruct (TcpPeer.connect_form argv)].
  - destruct (Stoi.stoi (nth 2 argv [])) as [port|]; [|apply passes_neutral; quiet_auto].
    apply passes_bind; [apply passes_neutral; unfold listen_and_accept; quiet_auto|].
    intros fd. destruct (fd <? 0); [apply passes_neutral; quiet_auto | apply Hrun].
  - cbv zeta. destruct (Stoi.stoi (nth 3 argv [])) as [port|];
      [|apply passes_neutral; quiet_auto].
    apply passes_bind; [apply passes_neutral; unfold connect_to_peer; quiet_auto|].
    intros fd. destruct (fd <? 0); [apply passes_neutral; quiet_auto | apply Hrun].
  - apply passes_neutral. quiet_auto.
Qed.

End Echo.

(** X13.  The keystroke peer is a transparent pipe to the screen: in
    every run, however it ends, the bytes written to the standard
    output with [write] are, in order and unmodified, exactly the keys
    read from the keyboard and the bytes received from the peer, in the
    order they came in.  Nothing is framed, dropped or held back. *)
Theorem keystroke_peer_shows_what_came_in
  (W : Type) (P : platform W) (fuel : nat) (argv : list cstring) (w : W) :
  let tr := trace_of (StreamPeer.main P fuel argv w) in
  written tr = shown tr.
Proof. exact (stream_main_passes P fuel argv w). Qed.

(** ** The line-oriented peer: what is sent is what was typed *)

Lemma typed_app (a b : list event) : typed (a ++ b) = typed a ++ typed b.
Proof. unfold typed. now rewrite flat_map_app. Qed.

Lemma wire_app (a b : list event) : wire (a ++ b) = wire a ++ wire b.
Proof.
  unfold wire, reassemble. simpl. rewrite typed_app, map_app, concat_app.
  now rewrite !app_nil_r.
Qed.

Lemma transmitted_app (a b : list event) :
  transmitted (a ++ b) = transmitted a ++ transmitted b.
Proof. unfold transmitted. now rewrite map_app, concat_app. Qed.

Lemma outbound_quiet_trace (tr : list event) :
  forallb outbound_quiet tr = true -> wire tr = [] /\ transmitted tr = [].
Proof.
  induction tr as [|e tr IH]; simpl; [auto|].
  intros [He Htr]%andb_prop. destruct (IH Htr) as [Hw Ht].
  change (e :: tr) with ([e] ++ tr). rewrite wire_app, transmitted_app, Hw, Ht.
  destruct e; simpl in *; auto; discriminate.
Qed.

Section SendPrefix.

Variable W : Type.
Variable P : platform W.
Variable socket_fd : Z.

Hypothesis within_request :
  forall data w, rv (fst (os_send P socket_fd data w)) <= Z.of_nat (length data).

(** However the loop ends, what it transmitted is the beginning of what
    it had to send. *)
Lemma send_loop_prefix (text : cstring) (fuel : nat) :
  Z.of_nat (length text) <= SIZE_MAX ->
  forall (data left : Z) (w : W),
    0 <= data -> 0 <= left -> data + left = Z.of_nat (length text) ->
    exists rest,
      skipn (Z.to_nat data) text
      = transmitted (trace_of (send_loop P fuel socket_fd text data left w)) ++ rest.
Proof.
  intros Hmax. induction fuel as [|fuel IH]; intros data left w Hd Hl Hsum; simpl.
  { eexists. reflexivity. }
  destruct (left >? 0) eqn:Hpos; [|eexists; reflexivity].
  rewrite Z.gtb_ltb in Hpos. apply Z.ltb_lt in Hpos.
  set (chunk := Str.substr text (Z.to_nat data) (Z.to_nat left)).
  assert (Hchunk : chunk = skipn (Z.to_nat data) text).
  { unfold chunk, Str.substr. apply firstn_all2. rewrite length_skipn. lia. }
  assert (Hlen : Z.of_nat (length chunk) = left).
  { rewrite Hchunk, length_skipn. lia. }
  pose proof (within_request chunk w) as Hle. rewrite Hlen in Hle.
  rewrite bind_trace. unfold sys_send, call at 1 2.
  destruct (os_send P socket_fd chunk w) as [r0 w1]. simpl in Hle.
  unfold trace_of at 1. cbn [snd]. rewrite transmitted_app.
  change (transmitted [ev_send socket_fd chunk r0])
    with (sent_bytes (ev_send socket_fd chunk r0) ++ []).
  rewrite app_nil_r.
  destruct (rv r0 <? 0) eqn:Hneg.
  - apply Z.ltb_lt in Hneg.
    assert (Hnone : sent_bytes (ev_send socket_fd chunk r0) = []).
    { simpl. destruct (rv r0 >? 0) eqn:Hgt; [|reflexivity].
      rewrite Z.gtb_ltb in Hgt. apply Z.ltb_lt in Hgt. lia. }
    rewrite Hnone. simpl.
    destruct (err r0 =? EINTR); [now apply IH|].
    eexists. reflexivity.
  - apply Z.ltb_ge in Hneg. destruct (rv r0 =? 0) eqn:Hzero.
    + apply Z.eqb_eq in Hzero. simpl. rewrite Hzero. simpl. eexists. reflexivity.
    + apply Z.eqb_neq in Hzero.
      assert (Hwrap : to_size_t (left - rv r0) = left - rv r0).
      { unfold to_size_t. apply Z.mod_small. unfold SIZE_MAX in Hmax. lia. }
      rewrite Hwrap.
      destruct (IH (data + rv r0) (left - rv r0) w1) as [rest Hrest]; try lia.
      exists rest. rewrite <- app_assoc, <- Hrest. simpl.
      destruct (rv r0 >? 0) eqn:Hgt;
        [|rewrite Z.gtb_ltb in Hgt; apply Z.ltb_ge in Hgt; lia].
      rewrite Hchunk, Z2Nat.inj_add by lia.
      rewrite (Nat.add_comm (Z.to_nat data)), <- skipn_skipn.
      symmetry. apply firstn_skipn.
Qed.

End SendPrefix.

Section Outbound.

Variable W : Type.
Variable P : platform W.
Hypothesis sane : sane_platform P.

Lemma outbound_ok_quiet {A} (stop : A -> Prop) (m : M W A) w :
  emits outbound_quiet m -> outbound_ok stop (m w).
Proof.
  intros Hm. destruct (outbound_quiet_trace _ (Hm w)) as [Hw Ht].
  exists []. rewrite Hw, Ht. auto.
Qed.

Lemma outbound_ok_bind {A B} (stop : B -> Prop) (m : M W A) (k : A -> M W B) w :
  emits outbound_quiet m ->
  (forall a w1, outbound_ok stop (k a w1)) ->
  outbound_ok stop (bind m k w).
Proof.
  intros Hm Hk. destruct (outbound_quiet_trace _ (Hm w)) as [Hw Ht].
  unfold outbound_ok. rewrite bind_trace, wire_app, transmitted_app, Hw, Ht.
  unfold bind, outcome_of, trace_of in *.
  destruct (m w) as [[[a| |] w1] t1]; simpl in *.
  - specialize (Hk a w1). destruct (k a w1) as [[r w2] t2]. simpl in *.
    destruct Hk as (rest & Heq & Hstop & Hgave). exists rest.
    split; [exact Heq|]. split; [exact Hstop|].
    intros b Hb Hno. apply (Hgave b Hb). intros Hin. apply Hno.
    apply in_or_app. now right.
  - exists []. repeat split; intros; discriminate.
  - exists []. repeat split; intros; discriminate.
Qed.

Lemma outbound_ok_then {A B} (stop1 : A -> Prop) (stop2 : B -> Prop)
      (m : M W A) (k : A -> M W B) w :
  outbound_ok stop1 (m w) ->
  (forall a, emits outbound_quiet (k a)) ->
  (forall a w1 b, outcome_of (k a w1) = Returned b -> ~ stop2 b -> ~ stop1 a) ->
  outbound_ok stop2 (bind m k w).
Proof.
  intros (rest & Heq & Hstop & Hgave) Hk Hnext.
  unfold outbound_ok. rewrite bind_trace, wire_app, transmitted_app.
  unfold bind, outcome_of, trace_of in *.
  destruct (m w) as [[[a| |] w1] t1]; simpl in *.
  - destruct (outbound_quiet_trace _ (Hk a w1)) as [Hw Ht]. unfold trace_of in *.
    specialize (Hnext a w1). destruct (k a w1) as [[r w2] t2]. simpl in *.
    rewrite Hw, Ht, !app_nil_r. exists rest. split; [exact Heq|]. split.
    + intros b Hb Hns. apply (Hstop a eq_refl). now apply (Hnext b).
    + intros b Hb Hno. apply (Hgave a eq_refl). intros Hin. apply Hno.
      apply in_or_app. now left.
  - rewrite !app_nil_r. exists rest. repeat split; [exact Heq | discriminate..].
  - rewrite !app_nil_r. exists rest. repeat split; [exact Heq | discriminate..].
Qed.

Lemma outbound_ok_loop {A B} (stop : A -> Prop) (m : M W A) (k : A -> M W B) w :
  (forall a, stop a \/ ~ stop a) ->
  outbound_ok stop (m w) ->
  (forall a w1, outbound_ok (fun _ : B => True) (k a w1)) ->
  (forall a w1, stop a -> trace_of (k a w1) = []) ->
  outbound_ok (fun _ : B => True) (bind m k w).
Proof.
  intros Hdec (rest & Heq & Hstop & Hgave) Hk Hend.
  unfold outbound_ok. rewrite bind_trace, wire_app, transmitted_app.
  unfold bind, outcome_of, trace_of in *.
  destruct (m w) as [[[a| |] w1] t1]; simpl in *.
  - specialize (Hk a w1). specialize (Hend a w1).
    destruct (k a w1) as [[r w2] t2]. simpl in *.
    destruct Hk as (rest2 & Heq2 & _ & Hgave2).
    unfold trace_of, outcome_of in Heq2, Hgave2. cbn [fst snd] in Heq2, Hgave2.
    assert (Hcases : stop a \/ rest = []).
    { destruct (Hdec a) as [Hs|Hs]; [now left|].
      right. exact (Hstop a eq_refl Hs). }
    destruct Hcases as [Hs| ->].
    + rewrite (Hend Hs). change (wire []) with (@nil ascii).
      change (transmitted []) with (@nil ascii). rewrite !app_nil_r. exists rest.
      split; [exact Heq|]. split; [intros b _ Hn; now destruct Hn|].
      intros b Hb Hno. exact (Hgave a eq_refl Hno).
    + rewrite app_nil_r in Heq. rewrite Heq, Heq2. exists rest2.
      split; [now rewrite <- app_assoc|]. split; [intros b _ Hn; now destruct Hn|].
      intros b Hb Hno. apply (Hgave2 b Hb). intros Hin. apply Hno.
      apply in_or_app. now right.
  - rewrite !app_nil_r. exists rest. repeat split; [exact Heq | discriminate..].
  - rewrite !app_nil_r. exists rest. repeat split; [exact Heq | discriminate..].
Qed.

End Outbound.

Lemma wire_of_sends (tr : list event) :
  forallb (fun e => is_send e || is_report e)%bool tr = true -> wire tr = [].
Proof.
  induction tr as [|e tr IH]; simpl; [reflexivity|].
  intros [He Htr]%andb_prop. change (e :: tr) with ([e] ++ tr).
  rewrite wire_app, (IH Htr). destruct e; simpl in *; auto; discriminate.
Qed.

Ltac out_quiet :=
  repeat first [emits_step | progress unfold_calls | progress cbv zeta].

Section OutboundOfRuns.

Variable W : Type.
Variable P : platform W.
Hypothesis sane : sane_platform P.

Lemma tcp_pump_stdin_outbound fuel fd w :
  outbound_ok (fun f : flow => f = f_break) (TcpPeer.pump_stdin P fuel fd w).
Proof.
  destruct sane as [Hsend Hline].
  unfold TcpPeer.pump_stdin, TcpPeer.sys_getline, bind, call, outbound_ok,
    outcome_of, trace_of.
  specialize (Hline w). destruct (os_getline P w) as [got w1]. simpl in Hline.
  destruct got as [line|].
  - specialize (Hline line eq_refl). cbv zeta.
    set (text := Str.push_back line NL).
    assert (Hmax : Z.of_nat (length text) <= SIZE_MAX).
    { unfold text, Str.push_back. rewrite length_app. simpl length. lia. }
    destruct (@send_loop_prefix W P fd (Hsend fd) text fuel Hmax 0
                (Z.of_nat (length text)) w1) as [rest Hrest]; try lia.
    simpl skipn in Hrest.
    pose proof (send_loop_emits P fuel fd text 0 (Z.of_nat (length text)) w1) as Hcls.
    pose proof (@send_all_bytes_success_iff W P fd (Hsend fd) text fuel w1) as Hiff.
    unfold send_all_bytes, trace_of in *.
    destruct (send_loop P fuel fd text 0 (Z.of_nat (length text)) w1)
      as [[o w2] ts] eqn:Hrun.
    cbn [snd] in Hrest, Hcls. apply wire_of_sends in Hcls.
    assert (Hwire : forall t, wire ([ev_getline (Some line)] ++ ts ++ t) = text ++ wire t).
    { intros t. rewrite !wire_app, Hcls. unfold wire, reassemble. simpl.
      now rewrite !app_nil_r. }
    assert (Htx : forall t, transmitted ([ev_getline (Some line)] ++ ts ++ t)
                            = transmitted ts ++ transmitted t).
    { intros t. now rewrite !transmitted_app. }
    destruct o as [sent| |]; cbn [fst snd].
    + specialize (Hiff w2 sent ts Hmax eq_refl).
      destruct sent; unfold cerr, emit, ret; cbn [negb fst snd].
      * assert (Hall : transmitted ts = text) by now apply Hiff.
        exists []. rewrite Hwire, Htx, Hall.
        change (wire []) with (@nil ascii). change (transmitted []) with (@nil ascii).
        rewrite !app_nil_r. auto.
      * exists rest. rewrite Hwire, Htx. split.
        { change (wire ([gave_up] ++ [])) with (@nil ascii).
          change (transmitted ([gave_up] ++ [])) with (@nil ascii).
          rewrite !app_nil_r. exact Hrest. }
        split.
        -- intros a [= <-] Hns. now destruct Hns.
        -- intros a _ Hno. exfalso. apply Hno.
           apply in_or_app. right. apply in_or_app. right. now left.
    + exists rest.
      rewrite <- (app_nil_r ts) at 1 2.
      rewrite Hwire, Htx. rewrite !app_nil_r.
      split; [exact Hrest|]. split; discriminate.
    + exists rest.
      rewrite <- (app_nil_r ts) at 1 2.
      rewrite Hwire, Htx. rewrite !app_nil_r.
      split; [exact Hrest|]. split; discriminate.
  - exists []. unfold cout, emit, ret. cbn [fst snd].
    split; [reflexivity|]. auto.
Qed.

Lemma tcp_iteration_outbound fuel fd buf w :
  outbound_ok (fun r : flow * cstring => fst r = f_break)
    (TcpPeer.iteration P fuel fd buf w).
Proof.
  unfold TcpPeer.iteration. cbv zeta.
  apply outbound_ok_bind; [out_quiet|]. intros s w1.
  destruct (rv (ready s) <? 0); [apply outbound_ok_quiet; out_quiet|].
  apply outbound_ok_then with (stop1 := fun f : flow => f = f_break).
  - destruct (FD_ISSET 0 (read_set s));
      [apply tcp_pump_stdin_outbound | apply outbound_ok_quiet; out_quiet].
  - intros [| |]; try solve [out_quiet].
    destruct (FD_ISSET fd (read_set s)); [|out_quiet].
    unfold TcpPeer.pump_socket.
    apply emits_bind; [out_quiet|]. intros r. cbv zeta.
    destruct (read_n r =? 0); [out_quiet|].
    destruct (read_n r <? 0); [out_quiet|].
    apply emits_bind; [|intros; out_quiet].
    eapply emits_weaken; [|apply print_lines_emits]. by_event.
  - intros a w2 b Hb Hns ->. apply Hns. unfold outcome_of in Hb. simpl in Hb.
    now injection Hb as <-.
Qed.

Lemma tcp_session_outbound fuel fd buf w :
  outbound_ok (fun _ : unit => True) (TcpPeer.session P fuel fd buf w).
Proof.
  revert buf w; induction fuel as [|fuel IH]; intros buf w; simpl.
  { apply outbound_ok_quiet. out_quiet. }
  apply outbound_ok_loop with (stop := fun r : flow * cstring => fst r = f_break).
  - intros [[| |] b]; simpl; [right | right | left]; congruence.
  - apply tcp_iteration_outbound.
  - intros [[| |] b] w1; simpl; solve [apply IH | apply outbound_ok_quiet; out_quiet].
  - intros [f b] w1 Hf. simpl in Hf. subst f. reflexivity.
Qed.

Lemma tcp_main_outbound fuel argv w :
  outbound_ok (fun _ : Z => True) (TcpPeer.main P fuel argv w).
Proof.
  assert (Hafter : forall fd w2,
             outbound_ok (fun _ : Z => True)
               ((TcpPeer.session P fuel fd [] ;; sys_close P fd ;; ret 0) w2)).
  { intros fd w2. apply outbound_ok_then with (stop1 := fun _ : unit => True).
    - apply tcp_session_outbound.
    - intros; out_quiet.
    - intros a w1 b _ Hns. now destruct Hns. }
  unfold TcpPeer.main.
  destruct (TcpPeer.listen_form argv); [|destruct (TcpPeer.connect_form argv)].
  - destruct (Stoi.stoi (nth 2 argv [])) as [port|];
      [|apply outbound_ok_quiet; out_quiet].
    apply outbound_ok_bind; [unfold listen_and_accept; out_quiet|].
    intros fd w1. destruct (fd <? 0); [apply outbound_ok_quiet; out_quiet|].
    apply outbound_ok_bind; [out_quiet|]. intros _ w2. apply Hafter.
  - cbv zeta. destruct (Stoi.stoi (nth 3 argv [])) as [port|];
      [|apply outbound_ok_quiet; out_quiet].
    apply outbound_ok_bind; [unfold connect_to_peer; out_quiet|].
    intros fd w1. destruct (fd <? 0); [apply outbound_ok_quiet; out_quiet|].
    apply outbound_ok_bind; [out_quiet|]. intros _ w2.
    apply outbound_ok_bind; [out_quiet|]. intros _ w3. apply Hafter.
  - apply outbound_ok_quiet. out_quiet.
Qed.

End OutboundOfRuns.

(** X14.  What the line-oriented peer sends is what was typed: on a
    platform whose [send] stays within the request, in every run,
    however it ends, the bytes transmitted are the beginning of the
    typed lines, each followed by one delimiter, in the order they were
    typed; and they are all of them when the run returns without having
    reported a failed send. *)
Theorem typed_lines_are_sent_in_order
  (W : Type) (P : platform W) (fuel : nat) (argv : list cstring) (w : W) :
  sane_platform P ->
  let run := TcpPeer.main P fuel argv w in
  (exists rest, wire (trace_of run) = transmitted (trace_of run) ++ rest) /\
  (forall code, outcome_of run = Returned code ->
                ~ In gave_up (trace_of run) ->
                transmitted (trace_of run) = wire (trace_of run)).
Proof.
  intros Hsane run.
  destruct (tcp_main_outbound Hsane fuel argv w) as (rest & Heq & _ & Hgave).
  split; [now exists rest|].
  intros code Hc Hno. fold run in Heq, Hgave.
  rewrite (Hgave code Hc Hno), app_nil_r in Heq. now symmetry.
Qed.

Lemma slow_send_sane : sane_platform (Scenario.platform_of Scenario.slow_send).
Proof.
  split.
  - intros fd data w. simpl. lia.
  - intros w line. simpl. destruct w as [|[|w]]; intros [= <-] || discriminate.
    vm_compute. discriminate.
Qed.

Lemma typed_lines_are_sent_in_order_witness :
  let P := Scenario.platform_of Scenario.slow_send in
  let run := TcpPeer.main P 10 [lit "tcp_peer"; lit "--listen"; lit "3333"] O in
  typed (trace_of run) = [lit "hello, peer"] /\
  (exists rest, wire (trace_of run) = transmitted (trace_of run) ++ rest) /\
  (forall code, outcome_of run = Returned code ->
                ~ In gave_up (trace_of run) ->
                transmitted (trace_of run) = wire (trace_of run)).
Proof.
  split; [reflexivity|].
  exact (@typed_lines_are_sent_in_order nat (Scenario.platform_of Scenario.slow_send) 10
           [lit "tcp_peer"; lit "--listen"; lit "3333"] O slow_send_sane).
Defined.

(** ** From one peer's keyboard to the other peer's screen *)

Lemma extract_reassembled (segments : list cstring) :
  Forall nl_free segments ->
  extract_messages (reassemble (segments, [])) = (segments, []).
Proof.
  unfold reassemble. simpl. intros Hseg. induction Hseg as [|m ms Hm _ IH]; simpl.
  - now apply extract_messages_none.
  - rewrite <- !app_assoc. simpl. rewrite extract_messages_line by exact Hm.
    rewrite app_nil_r in IH. rewrite app_nil_r. now rewrite IH.
Qed.

(** X15.  Round trip between two line-oriented peers.  Take a run of
    one peer that returns without a failed send, its platform staying
    within the request, the lines typed holding no delimiter; and a run
    of the other peer, however it ends, that has received exactly the
    bytes the first has transmitted, delivered in any pieces.  Then the
    lines the second prints as coming from the peer are the lines typed
    at the first, one for one and in order. *)
Theorem typed_lines_come_out_at_the_peer
  (WA WB : Type) (PA : platform WA) (PB : platform WB) (fuelA fuelB : nat)
  (argvA argvB : list cstring) (wA : WA) (wB : WB) (code : Z) :
  let runA := TcpPeer.main PA fuelA argvA wA in
  let runB := TcpPeer.main PB fuelB argvB wB in
  sane_platform PA ->
  outcome_of runA = Returned code ->
  ~ In gave_up (trace_of runA) ->
  Forall nl_free (typed (trace_of runA)) ->
  received (trace_of runB) = transmitted (trace_of runA) ->
  peer_lines (trace_of runB) = map printed (typed (trace_of runA)).
Proof.
  intros runA runB Hsane Hcode Hno Hclean Hdelivered.
  pose proof (tcp_main_framed PB fuelB argvB wB) as Hframed.
  unfold framed in Hframed. fold runB in Hframed. simpl app in Hframed.
  destruct (tcp_main_outbound Hsane fuelA argvA wA) as (rest & Heq & _ & Hgave).
  fold runA in Heq, Hgave. rewrite (Hgave code Hcode Hno), app_nil_r in Heq.
  rewrite Hframed, Hdelivered, <- Heq. unfold wire.
  now rewrite extract_reassembled.
Qed.

Lemma typed_lines_come_out_at_the_peer_witness :
  let PA := Scenario.platform_of Scenario.slow_send in
  let PB := Scenario.platform_of MoreWorlds.peer_sends_hello in
  let runA := TcpPeer.main PA 10 [lit "tcp_peer"; lit "--listen"; lit "3333"] O in
  let runB := TcpPeer.main PB 10 [lit "tcp_peer"; lit "--connect"; lit "127.0.0.1"; lit "3333"] O in
  transmitted (trace_of runA) = lit "hello, peer" ++ [NL] /\
  received (trace_of runB) = lit "hello, peer" ++ [NL] /\
  peer_lines (trace_of runB) = map printed (typed (trace_of runA)).
Proof.
  split; [reflexivity|]. split; [reflexivity|].
  apply (@typed_lines_come_out_at_the_peer nat nat
           (Scenario.platform_of Scenario.slow_send)
           (Scenario.platform_of MoreWorlds.peer_sends_hello) 10 10
           [lit "tcp_peer"; lit "--listen"; lit "3333"]
           [lit "tcp_peer"; lit "--connect"; lit "127.0.0.1"; lit "3333"] O O 0).
  - exact slow_send_sane.
  - reflexivity.
  - vm_compute. intros H. repeat (destruct H as [H|H]; [discriminate|]). exact H.
  - repeat constructor.
  - reflexivity.
Defined.

(** X16.  [connect_to_peer] does not dial a host it cannot parse: when
    [inet_pton] does not return 1, no [connect] is made, the socket is
    closed, the failure is reported with the host text and the result
    is -1. *)
Theorem unparsable_host_is_not_dialled
  (W : Type) (P : platform W) (host : cstring) (port : Z) (w w' : W)
  (r : outcome Z) (tr : list event) (h : cstring) (answer : Z) :
  connect_to_peer P host port w = (r, w', tr) ->
  In (ev_inet_pton h answer) tr ->
  answer <> 1 ->
  r = Returned (-1) /\
  filter is_connect tr = [] /\
  exists s,
    tr = [ev_socket s; ev_inet_pton host answer;
          ev_cerr (lit "inet_pton failed for host: " ++ host ++ [NL]);
          ev_close s].
Proof.
  intros Hrun Hin Hne. revert Hrun.
  run_setup; intros [= <- <- <-]; simpl in Hin;
    repeat (destruct Hin as [Hin|Hin]; [try discriminate|]); try contradiction;
    injection Hin as <- <-; ltb_facts; try contradiction.
  repeat split. eexists. reflexivity.
Qed.

Lemma unparsable_host_is_not_dialled_witness :
  let P := MoreWorlds.rejecting_hosts (Scenario.platform_of Scenario.slow_send) in
  connect_to_peer P (lit "localhost") 3333 O
  = (Returned (-1), O,
     [ev_socket 3; ev_inet_pton (lit "localhost") 0;
      ev_cerr (lit "inet_pton failed for host: localhost" ++ [NL]); ev_close 3]) /\
  Returned (-1) = Returned (-1) /\
  filter is_connect
    [ev_socket 3; ev_inet_pton (lit "localhost") 0;
     ev_cerr (lit "inet_pton failed for host: localhost" ++ [NL]); ev_close 3] = [] /\
  exists s,
    [ev_socket 3; ev_inet_pton (lit "localhost") 0;
     ev_cerr (lit "inet_pton failed for host: localhost" ++ [NL]); ev_close 3]
    = [ev_socket s; ev_inet_pton (lit "localhost") 0;
       ev_cerr (lit "inet_pton failed for host: " ++ lit "localhost" ++ [NL]);
       ev_close s].
Proof.
  split; [reflexivity|].
  apply (@unparsable_host_is_not_dialled nat
           (MoreWorlds.rejecting_hosts (Scenario.platform_of Scenario.slow_send))
           (lit "localhost") 3333 O O (Returned (-1)) _ (lit "localhost") 0 eq_refl).
  - simpl. tauto.
  - discriminate.
Defined.
